(** * brainscore_vision.metric_helpers.xarray_utils

    A shallow embedding of [XarrayRegression], [XarrayCorrelation],
    [recursive_op] and [apply_over_dims], together with the part of the
    labeled-array libraries (xarray, brainio, numpy) those functions call.

    Conventions.
    - A Python exception is a value of [exn]; a call that may raise has type
      [result A].
    - An n-dimensional array is a shape and an indexing function; labels and
      numbers are both integers.
    - A dict is an association list in insertion order.
    - The library calls follow the documented behaviour of xarray:
      [transpose], [sortby], [isel], [stack], [expand_dims] and [concat]
      return new arrays; a constructor or an assignment to [coords] raises
      when a coordinate does not fit the axes of the array.
    - The constructors of brainio's assemblies ([NeuroidAssembly], [Score])
      build the array and then gather the coordinates of each axis into the
      index of that axis ([new_Assembly]).
    - The wrapped regression, the comparison strategy, the callable of
      [apply_over_dims] and the operation of [recursive_op] are parameters
      that may raise. *)

From Stdlib Require Import List ZArith String Bool Lia Arith PeanoNat.
From Stdlib Require Import Sorted Permutation.
Import ListNotations.
Open Scope string_scope.
Open Scope list_scope.

(** ** Exceptions *)

Inductive exn : Type :=
| AssertionError
| KeyError
| TypeError
| ValueError
| AttributeError
| IndexError
| RecursionError
| StrategyError.

Definition result (A : Type) : Type := (exn + A)%type.

Definition raise {A : Type} (e : exn) : result A := inl e.
Definition ok {A : Type} (a : A) : result A := inr a.

Definition and_then {A B : Type} (r : result A) (k : A -> result B) : result B :=
  match r with
  | inl e => inl e
  | inr a => k a
  end.

Notation "'let!' x ':=' r 'in' k" := (and_then r (fun x => k))
  (at level 10, x name, r at level 100, k at level 200).

Definition assert_ (b : bool) : result unit :=
  if b then ok tt else raise AssertionError.

Definition failed {A : Type} (r : result A) : Prop := exists e, r = inl e.

Fixpoint traverse {A B : Type} (f : A -> result B) (l : list A) : result (list B) :=
  match l with
  | [] => ok []
  | x :: r =>
      let! y := f x in
      let! ys := traverse f r in
      ok (y :: ys)
  end.

(** ** Lists used as sequences of names *)

Definition dim := string.

Definition mem (d : dim) (l : list dim) : bool :=
  existsb (String.eqb d) l.

Definition subset (l1 l2 : list dim) : bool :=
  forallb (fun d => mem d l2) l1.

(** [set(l1) == set(l2)] *)
Definition set_eq (l1 l2 : list dim) : bool :=
  subset l1 l2 && subset l2 l1.

(** the two lists hold the same names *)
Definition set_equal (l1 l2 : list dim) : Prop := forall d, In d l1 <-> In d l2.

Fixpoint nodup_b (l : list dim) : bool :=
  match l with
  | [] => true
  | d :: r => negb (mem d r) && nodup_b r
  end.

Fixpoint index_of (d : dim) (l : list dim) : nat :=
  match l with
  | [] => 0
  | x :: r => if String.eqb d x then 0 else S (index_of d r)
  end.

Fixpoint index_nat (n : nat) (l : list nat) : nat :=
  match l with
  | [] => 0
  | x :: r => if Nat.eqb n x then 0 else S (index_nat n r)
  end.

Definition list_eqb (l1 l2 : list dim) : bool :=
  if list_eq_dec string_dec l1 l2 then true else false.

(** [array_is_element(arr, element)]: [len(arr) == 1 and arr[0] == element] *)
Definition array_is_element (arr : list dim) (element : dim) : bool :=
  match arr with
  | [x] => String.eqb x element
  | _ => false
  end.

(** ** Arrays *)

Record ndarray : Type := mk_ndarray {
  shape : list nat;
  item : list nat -> Z
}.

(** the values of a one-dimensional array, in order *)
Definition to_list (a : ndarray) : list Z :=
  map (fun i => item a [i]) (seq 0 (hd 0 (shape a))).

Definition of_list (l : list Z) : ndarray :=
  mk_ndarray [List.length l] (fun idx => nth (hd 0 idx) l 0%Z).

Fixpoint set_nth {A : Type} (p : nat) (x : A) (l : list A) : list A :=
  match p, l with
  | _, [] => []
  | 0, _ :: r => x :: r
  | S p', y :: r => y :: set_nth p' x r
  end.

Fixpoint remove_nth {A : Type} (p : nat) (l : list A) : list A :=
  match p, l with
  | _, [] => []
  | 0, _ :: r => r
  | S p', y :: r => y :: remove_nth p' r
  end.

Fixpoint insert_nth {A : Type} (p : nat) (x : A) (l : list A) : list A :=
  match p, l with
  | 0, _ => x :: l
  | S p', [] => [x]
  | S p', y :: r => y :: insert_nth p' x r
  end.

(** [numpy.transpose(a, axes)]: axis [j] of the result is axis [axes[j]] of [a] *)
Definition transpose_nd (axes : list nat) (a : ndarray) : ndarray :=
  mk_ndarray
    (map (fun p => nth p (shape a) 0) axes)
    (fun idx => item a (map (fun q => nth (index_nat q axes) idx 0)
                            (seq 0 (List.length axes)))).

(** [numpy.take(a, order, axis=p)] *)
Definition take_nd (p : nat) (order : list nat) (a : ndarray) : ndarray :=
  mk_ndarray
    (set_nth p (List.length order) (shape a))
    (fun idx => item a (set_nth p (nth (nth p idx 0) order 0) idx)).

(** [a[..., i, ...]] with the integer at axis [p]: the axis disappears *)
Definition select_nd (p : nat) (i : nat) (a : ndarray) : ndarray :=
  mk_ndarray
    (remove_nth p (shape a))
    (fun idx => item a (insert_nth p i idx)).

(** [numpy.stack(arrs, axis=0)] *)
Definition stack_nd (arrs : list ndarray) : ndarray :=
  mk_ndarray
    (List.length arrs :: match arrs with [] => [] | a :: _ => shape a end)
    (fun idx => match idx with
                | [] => 0%Z
                | i :: rest => item (nth i arrs (mk_ndarray [] (fun _ => 0%Z))) rest
                end).

(** ** Labeled arrays *)

(** one coordinate: its name, the axes it lies on and its labels *)
Record coord : Type := mk_coord {
  cname : string;
  cdims : list dim;
  cvalues : ndarray
}.

(** An [xarray.DataArray]: axis names, values, coordinates and [attrs].
    An attribute value is either another labeled array or a plain value. *)
Inductive DataArray : Type :=
| mk_DataArray (da_dims : list dim) (da_values : ndarray)
               (da_coords : list coord) (da_attrs : attr_dict)
with attr_dict : Type :=
| attrs_nil
| attrs_cons (k : string) (v : attr_value) (rest : attr_dict)
with attr_value : Type :=
| AttrArray (a : DataArray)
| AttrPlain (z : Z).

Definition dims (a : DataArray) : list dim :=
  match a with mk_DataArray d _ _ _ => d end.
Definition values (a : DataArray) : ndarray :=
  match a with mk_DataArray _ v _ _ => v end.
Definition coords (a : DataArray) : list coord :=
  match a with mk_DataArray _ _ c _ => c end.
Definition attrs (a : DataArray) : attr_dict :=
  match a with mk_DataArray _ _ _ t => t end.

Definition with_coords (c : list coord) (a : DataArray) : DataArray :=
  mk_DataArray (dims a) (values a) c (attrs a).
Definition with_attrs (t : attr_dict) (a : DataArray) : DataArray :=
  mk_DataArray (dims a) (values a) (coords a) t.

(** [a.sizes[d]] *)
Definition size_of (d : dim) (a : DataArray) : nat :=
  nth (index_of d (dims a)) (shape (values a)) 0.

(** *** dicts *)

Fixpoint attrs_get (k : string) (t : attr_dict) : option attr_value :=
  match t with
  | attrs_nil => None
  | attrs_cons k' v rest => if String.eqb k k' then Some v else attrs_get k rest
  end.

(** [t[k] = v]: an existing key keeps its place, a new one goes last *)
Fixpoint attrs_set (k : string) (v : attr_value) (t : attr_dict) : attr_dict :=
  match t with
  | attrs_nil => attrs_cons k v attrs_nil
  | attrs_cons k' v' rest =>
      if String.eqb k k' then attrs_cons k' v rest
      else attrs_cons k' v' (attrs_set k v rest)
  end.

Fixpoint attrs_keys (t : attr_dict) : list string :=
  match t with
  | attrs_nil => []
  | attrs_cons k _ rest => k :: attrs_keys rest
  end.

Fixpoint attrs_items (t : attr_dict) : list (string * attr_value) :=
  match t with
  | attrs_nil => []
  | attrs_cons k v rest => (k, v) :: attrs_items rest
  end.

Fixpoint coords_get (k : string) (cs : list coord) : option coord :=
  match cs with
  | [] => None
  | c :: rest => if String.eqb k (cname c) then Some c else coords_get k rest
  end.

Fixpoint coords_set (c : coord) (cs : list coord) : list coord :=
  match cs with
  | [] => [c]
  | c' :: rest =>
      if String.eqb (cname c) (cname c') then c :: rest
      else c' :: coords_set c rest
  end.

(** [brainio.assemblies.walk_coords]: every coordinate as
    [(name, dims, values)] *)
Definition walk_coords (a : DataArray) : list coord := coords a.

(** *** transpose *)

(** [a.transpose] with the axis names [order]: [order] has to name every
    axis of [a] once *)
Definition transpose (order : list dim) (a : DataArray) : result DataArray :=
  if set_eq order (dims a) && nodup_b order
     && Nat.eqb (List.length order) (List.length (dims a))
  then ok (mk_DataArray order
             (transpose_nd (map (fun d => index_of d (dims a)) order) (values a))
             (coords a) (attrs a))
  else raise ValueError.

(** ** XarrayRegression *)

(** The wrapped regression: [fit] may raise and leaves a fitted model,
    [predict] may raise and returns raw values. *)
Record Regression (M : Type) : Type := mk_Regression {
  reg_fit : DataArray -> DataArray -> result M;
  reg_predict : option M -> DataArray -> result ndarray
}.
Arguments reg_fit {M} _ _ _.
Arguments reg_predict {M} _ _ _.
Arguments mk_Regression {M} _ _.

Record XarrayRegression (M : Type) : Type := mk_XarrayRegression {
  _regression : Regression M;
  _model : option M;
  _expected_dims : list dim;
  _neuroid_dim : dim;
  _neuroid_coord : string;
  _stimulus_coord : string;
  _target_neuroid_values : option (list (string * ndarray))
}.
Arguments _regression {M} _.
Arguments _model {M} _.
Arguments _expected_dims {M} _.
Arguments _neuroid_dim {M} _.
Arguments _neuroid_coord {M} _.
Arguments _stimulus_coord {M} _.
Arguments _target_neuroid_values {M} _.
Arguments mk_XarrayRegression {M} _ _ _ _ _ _ _.

(** [XarrayRegression.__init__] *)
Definition init {M : Type} (regression : Regression M) (expected_dims : list dim)
    (neuroid_dim : dim) (neuroid_coord stimulus_coord : string)
  : XarrayRegression M :=
  mk_XarrayRegression regression None expected_dims neuroid_dim
    neuroid_coord stimulus_coord None.

(** [XarrayRegression._align] *)
Definition _align (expected_dims : list dim) (assembly : DataArray)
  : result DataArray :=
  let! _ := assert_ (set_eq (dims assembly) expected_dims) in
  transpose expected_dims assembly.

(** *** sorting and indexing *)

Fixpoint insert_key (x : Z * nat) (l : list (Z * nat)) : list (Z * nat) :=
  match l with
  | [] => [x]
  | y :: r => if (fst x <=? fst y)%Z then x :: l else y :: insert_key x r
  end.

(** [numpy.argsort(l, kind="stable")] *)
Definition argsort (l : list Z) : list nat :=
  map snd (fold_right insert_key [] (combine l (seq 0 (List.length l)))).

Definition take_coord (d : dim) (order : list nat) (c : coord) : coord :=
  if mem d (cdims c)
  then mk_coord (cname c) (cdims c)
         (take_nd (index_of d (cdims c)) order (cvalues c))
  else c.

(** [a.isel({d: order})] with an integer array: reorders the values and
    every coordinate lying on [d] *)
Definition take_along (d : dim) (order : list nat) (a : DataArray) : DataArray :=
  mk_DataArray (dims a)
    (take_nd (index_of d (dims a)) order (values a))
    (map (take_coord d order) (coords a))
    (attrs a).

(** [a[key]] for a coordinate name, or for an axis without coordinate
    (whose labels are then [0 .. size-1]) *)
Definition getitem (key : string) (a : DataArray) : result coord :=
  match coords_get key (coords a) with
  | Some c => ok c
  | None =>
      if mem key (dims a)
      then ok (mk_coord key [key]
                 (of_list (map Z.of_nat (seq 0 (size_of key a)))))
      else raise KeyError
  end.

Definition sortby1 (key : string) (a : DataArray) : result DataArray :=
  let! c := getitem key a in
  match cdims c with
  | [d] => ok (take_along d (argsort (to_list (cvalues c))) a)
  | _ => raise ValueError
  end.

(** [a.sortby(keys)]: the first key is the primary one *)
Fixpoint sortby (keys : list string) (a : DataArray) : result DataArray :=
  match keys with
  | [] => ok a
  | k :: rest =>
      let! a' := sortby rest a in
      sortby1 k a'
  end.

Definition select_coord (d : dim) (i : nat) (c : coord) : coord :=
  if mem d (cdims c)
  then mk_coord (cname c) (remove_nth (index_of d (cdims c)) (cdims c))
         (select_nd (index_of d (cdims c)) i (cvalues c))
  else c.

(** [a.isel({d: i})] with an integer: the axis disappears, [attrs] are kept *)
Definition isel (d : dim) (i : nat) (a : DataArray) : result DataArray :=
  if negb (mem d (dims a)) then raise ValueError
  else if negb (Nat.ltb i (size_of d a)) then raise IndexError
  else ok (mk_DataArray
             (remove_nth (index_of d (dims a)) (dims a))
             (select_nd (index_of d (dims a)) i (values a))
             (map (select_coord d i) (coords a))
             (attrs a)).

(** *** construction *)

(** the labels of [c] fit axes [ds] of sizes [sh] *)
Definition coord_fits (ds : list dim) (sh : list nat) (c : coord) : bool :=
  subset (cdims c) ds
  && Nat.eqb (List.length (shape (cvalues c))) (List.length (cdims c))
  && forallb (fun d => Nat.eqb (nth (index_of d (cdims c)) (shape (cvalues c)) 0)
                               (nth (index_of d ds) sh 0))
             (cdims c).

(** [DataArray(values, coords=coords, dims=dims)]: one axis name per axis
    of [values], and every coordinate on axes of the array with as many
    labels as the axis has entries *)
Definition new_DataArray (vals : ndarray) (cs : list coord) (ds : list dim)
  : result DataArray :=
  if Nat.eqb (List.length (shape vals)) (List.length ds)
     && forallb (coord_fits ds (shape vals)) cs
  then ok (mk_DataArray ds vals cs attrs_nil)
  else raise ValueError.

(** *** the constructor of an assembly *)

(** [c] lies on the axis [d] alone and is not the index of that axis *)
Definition on_axis_alone (d : dim) (c : coord) : bool :=
  list_eqb (cdims c) [d] && negb (String.eqb (cname c) d).

(** the axis [d] has an index: a coordinate of its own name, lying on it *)
Definition has_index (d : dim) (cs : list coord) : bool :=
  existsb (fun c => String.eqb (cname c) d && list_eqb (cdims c) [d]) cs.

(** the name under which [set_index(append=True)] keeps the index an axis
    already has *)
Definition level_0 (d : dim) : string := String.append d "_level_0".

(** [set_index(append=True, d=names)], [names] being the coordinates that
    lie on [d] alone and are not its index.  Without such coordinates
    nothing changes.  A lone one on an axis without index becomes the index
    of the axis, under the name of the axis, and its own name is gone;
    several become the levels of a MultiIndex and are still found under
    their names; an index that the axis already has becomes one more level,
    named [level_0 d].  A name that a level or the index is to take must
    not be the name of another coordinate.  The MultiIndex itself, a
    coordinate of tuples under the name of the axis, is not represented:
    [walk_coords] goes through its levels. *)
Definition gather_dim (d : dim) (cs : list coord) : result (list coord) :=
  match filter (on_axis_alone d) cs with
  | [] => ok cs
  | _ :: more =>
      if has_index d cs then
        if mem (level_0 d) (map cname cs) then raise ValueError
        else ok (map (fun c => if String.eqb (cname c) d && list_eqb (cdims c) [d]
                               then mk_coord (level_0 d) [d] (cvalues c)
                               else c) cs)
      else
        match more with
        | [] =>
            if mem d (map cname cs) then raise ValueError
            else ok (map (fun c => if on_axis_alone d c
                                   then mk_coord d [d] (cvalues c) else c) cs)
        | _ => ok cs
        end
  end.

Fixpoint gather_dims (ds : list dim) (cs : list coord) : result (list coord) :=
  match ds with
  | [] => ok cs
  | d :: rest =>
      let! cs' := gather_dim d cs in
      gather_dims rest cs'
  end.

(** [brainio.assemblies.gather_indexes]: the coordinates lying on one axis
    alone are made the index of that axis, axis by axis *)
Definition gather_indexes (a : DataArray) : result DataArray :=
  let! cs := gather_dims (dims a) (coords a) in
  ok (with_coords cs a).

(** [NeuroidAssembly(values, coords=coords, dims=dims)] and
    [Score(values, coords=coords, dims=dims)]: the constructor of an
    assembly builds the [DataArray] and gathers its indexes *)
Definition new_Assembly (vals : ndarray) (cs : list coord) (ds : list dim)
  : result DataArray :=
  let! a := new_DataArray vals cs ds in
  gather_indexes a.

Definition move_last (p : nat) (a : ndarray) : ndarray :=
  transpose_nd (remove_nth p (seq 0 (List.length (shape a))) ++ [p]) a.

Definition stack_coord (new_dim level : dim) (c : coord) : coord :=
  if list_eqb (cdims c) [level] then mk_coord (cname c) [new_dim] (cvalues c)
  else if mem level (cdims c)
  then mk_coord (cname c)
         (remove_nth (index_of level (cdims c)) (cdims c) ++ [new_dim])
         (move_last (index_of level (cdims c)) (cvalues c))
  else c.

(** [a.stack(new_dim=[level])]: the axis [level] becomes the last axis, named
    [new_dim], and [level] stays as the coordinate of that axis.  A new axis
    cannot take the name of an axis the array already has. *)
Definition stack (new_dim level : dim) (a : DataArray) : result DataArray :=
  if negb (mem level (dims a)) then raise ValueError
  else if mem new_dim (dims a) then raise ValueError
  else ok (mk_DataArray
             (remove_nth (index_of level (dims a)) (dims a) ++ [new_dim])
             (move_last (index_of level (dims a)) (values a))
             (map (stack_coord new_dim level) (coords a))
             (attrs a)).

(** *** fit and predict *)

Fixpoint dict_set (k : string) (v : ndarray) (m : list (string * ndarray))
  : list (string * ndarray) :=
  match m with
  | [] => [(k, v)]
  | (k', v') :: rest =>
      if String.eqb k k' then (k', v) :: rest
      else (k', v') :: dict_set k v rest
  end.

(** the loop of [fit] over [walk_coords(target)] *)
Fixpoint capture (neuroid_dim : dim) (cs : list coord)
    (acc : list (string * ndarray)) : result (list (string * ndarray)) :=
  match cs with
  | [] => ok acc
  | c :: rest =>
      if mem neuroid_dim (cdims c) then
        let! _ := assert_ (array_is_element (cdims c) neuroid_dim) in
        capture neuroid_dim rest (dict_set (cname c) (cvalues c) acc)
      else capture neuroid_dim rest acc
  end.

(** [XarrayRegression.fit]; the result is the adapter after the call.  The
    state an exception leaves behind is not modelled. *)
Definition fit {M : Type} (self : XarrayRegression M) (source target : DataArray)
  : result (XarrayRegression M) :=
  let! source := _align (_expected_dims self) source in
  let! target := _align (_expected_dims self) target in
  let! source := sortby [_stimulus_coord self] source in
  let! target := sortby [_stimulus_coord self] target in
  let! model := reg_fit (_regression self) source target in
  let! captured := capture (_neuroid_dim self) (walk_coords target) [] in
  ok (mk_XarrayRegression (_regression self) (Some model) (_expected_dims self)
        (_neuroid_dim self) (_neuroid_coord self) (_stimulus_coord self)
        (Some captured)).

(** truth value of a Python string *)
Definition truthy (s : string) : bool := negb (String.eqb s "").

(** [a or b] on strings, [a] possibly [None] *)
Definition or_else (a : option string) (b : string) : string :=
  match a with
  | Some s => if truthy s then s else b
  | None => b
  end.

(** the dict comprehension over [walk_coords(source)] *)
Definition source_coords (neuroid_dim : dim) (source : DataArray) : list coord :=
  fold_left (fun cs c => coords_set c cs)
    (filter (fun c => negb (array_is_element (cdims c) neuroid_dim))
            (walk_coords source))
    [].

(** [XarrayRegression._package_prediction] *)
Definition _package_prediction {M : Type} (self : XarrayRegression M)
    (predicted_values : ndarray) (source : DataArray) : result DataArray :=
  let coords0 := source_coords (_neuroid_dim self) source in
  let dims0 := dims source in
  match _target_neuroid_values self with
  | None => raise TypeError
  | Some tv =>
      let neuroid_level_dim :=
        match tv with
        | [(k, _)] => Some k
        | _ => None
        end in
      let dims1 :=
        match neuroid_level_dim with
        | Some k =>
            map (fun d => if negb (String.eqb d (_neuroid_dim self)) then d else k)
                dims0
        | None => dims0
        end in
      let coords1 :=
        fold_left
          (fun cs kv =>
             coords_set
               (mk_coord (fst kv) [or_else neuroid_level_dim (_neuroid_dim self)]
                         (snd kv))
               cs)
          tv coords0 in
      let! prediction := new_Assembly predicted_values coords1 dims1 in
      match neuroid_level_dim with
      | Some k =>
          if truthy k then stack (_neuroid_dim self) k prediction
          else ok prediction
      | None => ok prediction
      end
  end.

(** [XarrayRegression.predict] *)
Definition predict {M : Type} (self : XarrayRegression M) (source : DataArray)
  : result DataArray :=
  let! source := _align (_expected_dims self) source in
  let! predicted_values := reg_predict (_regression self) (_model self) source in
  _package_prediction self predicted_values source.

Fixpoint dict_get (k : string) (m : list (string * ndarray)) : option ndarray :=
  match m with
  | [] => None
  | (k', v) :: rest => if String.eqb k k' then Some v else dict_get k rest
  end.

(** the labels of the coordinate named [k] of [a], when that coordinate lies
    on exactly the axis [d] *)
Definition axis_labels (d : dim) (a : DataArray) (k : string) : option ndarray :=
  match coords_get k (coords a) with
  | Some c => if list_eqb (cdims c) [d] then Some (cvalues c) else None
  | None => None
  end.

(** the same labels as a Python list *)
Definition labels_list (d : dim) (a : DataArray) (k : string) : option (list Z) :=
  option_map to_list (axis_labels d a k).

(** the same on a dict of coordinates *)
Definition labels_in (d : dim) (cs : list coord) (k : string) : option ndarray :=
  match coords_get k cs with
  | Some c => if list_eqb (cdims c) [d] then Some (cvalues c) else None
  | None => None
  end.

(** what [gather_dim] leaves as it is on the axis [x]: no coordinate on
    that axis but its index, or several and no index *)
Definition settled (x : dim) (cs : list coord) : Prop :=
  (forall k, k <> x -> labels_in x cs k = None)
  \/ (labels_in x cs x = None
      /\ exists k1 k2, k1 <> k2 /\ labels_in x cs k1 <> None
                       /\ labels_in x cs k2 <> None).

(** coordinate names are the keys of a dict *)
Definition unique_names (a : DataArray) : Prop := NoDup (map cname (coords a)).

(** every coordinate lies on axes of the array and has as many labels as
    those axes have entries *)
Definition labels_fit (a : DataArray) : bool :=
  forallb (coord_fits (dims a) (shape (values a))) (coords a).

(** what the coordinates of an array say about names, axes and sizes *)
Definition layout (a : DataArray) : list (string * list dim * list nat) :=
  map (fun c => (cname c, cdims c, shape (cvalues c))) (coords a).

(** every coordinate lies on axes of the array *)
Definition coords_on_axes (a : DataArray) : Prop :=
  forall c, In c (coords a) -> incl (cdims c) (dims a).

(** a coordinate named like an axis is the coordinate of that axis *)
Definition axis_names_reserved (a : DataArray) : Prop :=
  forall c, In c (coords a) -> In (cname c) (dims a) -> cdims c = [cname c].

(** ** XarrayCorrelation *)

(** [numpy.array(a == b).all()] on two one-dimensional arrays, a single
    element being broadcast *)
Definition all_equal (a b : list Z) : bool :=
  if Nat.eqb (List.length a) (List.length b)
  then forallb (fun p => Z.eqb (fst p) (snd p)) (combine a b)
  else match a, b with
       | [x], _ => forallb (Z.eqb x) b
       | _, [y] => forallb (fun x => Z.eqb x y) a
       | _, _ => false
       end.

Definition Correlation : Type := DataArray -> DataArray -> result (Z * Z).

(** [XarrayCorrelation.__call__] *)
Definition correlation_call (_correlation : Correlation)
    (_correlation_coord _neuroid_coord : string)
    (prediction target : DataArray) : result DataArray :=
  let! prediction := sortby [_correlation_coord; _neuroid_coord] prediction in
  let! target := sortby [_correlation_coord; _neuroid_coord] target in
  let! pc := getitem _correlation_coord prediction in
  let! tc := getitem _correlation_coord target in
  let! _ := assert_ (all_equal (to_list (cvalues pc)) (to_list (cvalues tc))) in
  let! pn := getitem _neuroid_coord prediction in
  let! tn := getitem _neuroid_coord target in
  let! _ := assert_ (all_equal (to_list (cvalues pn)) (to_list (cvalues tn))) in
  let neuroid_dims := cdims tn in
  let! _ := assert_ (Nat.eqb (List.length neuroid_dims) 1) in
  let d := hd "" neuroid_dims in
  let! correlations :=
    traverse
      (fun i =>
         let! target_neuroids := isel d i target in
         let! prediction_neuroids := isel d i prediction in
         let! rp := _correlation target_neuroids prediction_neuroids in
         ok (fst rp))
      (seq 0 (List.length (to_list (cvalues tn)))) in
  new_Assembly (of_list correlations)
    (fold_left (fun cs c => coords_set c cs)
       (filter (fun c => list_eqb (cdims c) neuroid_dims) (walk_coords target))
       [])
    neuroid_dims.

(** ** recursive_op *)

(** the operation handed to [recursive_op]: it receives the operands and
    returns a new array, or raises *)
Definition Op : Type := list attr_value -> result DataArray.

(** [arr.attrs[attr]] on an operand *)
Definition operand_attr (attr : string) (arr : attr_value) : result attr_value :=
  match arr with
  | AttrArray a =>
      match attrs_get attr (attrs a) with
      | Some v => ok v
      | None => raise KeyError
      end
  | AttrPlain _ => raise AttributeError
  end.

(** [recursive_op( *arrs, op=op)] with [arrs = arr0 :: others]; [attrs_loop]
    is its [for attr in attrs] loop, [acc] being [val.attrs] so far.  The
    array returned by [op] is taken to be a new object. *)
Fixpoint recursive_op (op : Op) (arr0 : DataArray) (others : list attr_value)
    {struct arr0} : result DataArray :=
  match arr0 with
  | mk_DataArray _ _ _ attrs0 =>
      let! val := op (AttrArray arr0 :: others) in
      let! t := attrs_loop op attrs0 others (attrs val) in
      ok (with_attrs t val)
  end
with attrs_loop (op : Op) (attrs0 : attr_dict) (others : list attr_value)
    (acc : attr_dict) {struct attrs0} : result attr_dict :=
  match attrs0 with
  | attrs_nil => ok acc
  | attrs_cons attr v rest =>
      let! attr_val :=
        match v with
        | AttrArray a =>
            let! attr_arrs := traverse (operand_attr attr) others in
            let! r := recursive_op op a attr_arrs in
            ok (AttrArray r)
        | AttrPlain _ => ok v
        end in
      attrs_loop op rest others (attrs_set attr attr_val acc)
  end.

(** ** apply_over_dims *)

Fixpoint indices (sh : list nat) : list (list nat) :=
  match sh with
  | [] => [[]]
  | n :: r => flat_map (fun i => map (cons i) (indices r)) (seq 0 n)
  end.

Definition shape_eqb (s1 s2 : list nat) : bool :=
  if list_eq_dec Nat.eq_dec s1 s2 then true else false.

Definition nd_eqb (a b : ndarray) : bool :=
  shape_eqb (shape a) (shape b)
  && forallb (fun idx => Z.eqb (item a idx) (item b idx)) (indices (shape a)).

Definition coord_eqb (c1 c2 : coord) : bool :=
  String.eqb (cname c1) (cname c2) && list_eqb (cdims c1) (cdims c2)
  && nd_eqb (cvalues c1) (cvalues c2).

(** [numpy.concatenate(arrs, axis=p)] *)
Fixpoint concat_item (p : nat) (arrs : list ndarray) (idx : list nat) : Z :=
  match arrs with
  | [] => 0%Z
  | a :: r =>
      let n := nth p (shape a) 0 in
      if Nat.ltb (nth p idx 0) n then item a idx
      else concat_item p r (set_nth p (nth p idx 0 - n) idx)
  end.

Definition concat_nd (p : nat) (arrs : list ndarray) : ndarray :=
  mk_ndarray
    (match arrs with
     | [] => []
     | a :: _ =>
         set_nth p (list_sum (map (fun x => nth p (shape x) 0) arrs)) (shape a)
     end)
    (concat_item p arrs).

(** [v] has a coordinate named [d] that is not a scalar *)
Definition has_labels_named (d : dim) (v : DataArray) : bool :=
  existsb (fun c => String.eqb (cname c) d && negb (list_eqb (cdims c) []))
          (coords v).

(** [v.expand_dims(d)]: a new first axis of length one; a scalar coordinate
    named [d] becomes the coordinate of that axis.  The name must be new:
    neither an axis of [v] nor a coordinate of [v] other than a scalar. *)
Definition expand_dims (d : dim) (v : DataArray) : result DataArray :=
  if mem d (dims v) then raise ValueError
  else if has_labels_named d v then raise ValueError
  else ok (mk_DataArray (d :: dims v) (stack_nd [values v])
             (map (fun c =>
                     if String.eqb (cname c) d && list_eqb (cdims c) []
                     then mk_coord d [d] (stack_nd [cvalues c]) else c)
                  (coords v))
             (attrs v)).

(** the coordinate named like [c] in each of [arrs], if each has one on the
    same axes *)
Fixpoint same_named (c : coord) (arrs : list DataArray) : option (list coord) :=
  match arrs with
  | [] => Some []
  | a :: r =>
      match coords_get (cname c) (coords a), same_named c r with
      | Some c', Some cs =>
          if list_eqb (cdims c') (cdims c) then Some (c' :: cs) else None
      | _, _ => None
      end
  end.

(** coordinates of a concatenation along the new axis [d]: one that is the
    same in every part is kept, one that differs is stacked along [d] *)
Definition concat_coord_new (d : dim) (arrs : list DataArray) (c : coord)
  : result coord :=
  match same_named c arrs with
  | None => raise ValueError
  | Some cs =>
      if forallb (coord_eqb c) cs then ok c
      else ok (mk_coord (cname c) (d :: cdims c) (stack_nd (map cvalues cs)))
  end.

(** coordinates of a concatenation along the existing axis [d]: one lying
    on [d] is concatenated, the others come from the first part *)
Definition concat_coord_old (d : dim) (arrs : list DataArray) (c : coord)
  : result coord :=
  if mem d (cdims c) then
    match same_named c arrs with
    | None => raise ValueError
    | Some cs =>
        ok (mk_coord (cname c) (cdims c)
              (concat_nd (index_of d (cdims c)) (map cvalues cs)))
    end
  else ok c.

(** [r] has the axes of [x0] and, for each of them, the coordinate of its
    name that [x0] has: what [xr.concat] aligns the parts on *)
Definition same_indexes (x0 r : DataArray) : Prop :=
  dims r = dims x0
  /\ filter (fun c => mem (cname c) (dims x0)) (coords r)
     = filter (fun c => mem (cname c) (dims x0)) (coords x0).

(** [xr.concat(arrs, dim=d)]: the parts have the same axes; [attrs] are
    those of the first part.  [xr.concat] first aligns the parts on the
    coordinates of their axes, taking the union of the labels; the parts
    are concatenated as they are here, which is what the program does when
    they have the same coordinates of their axes ([same_indexes]), as the
    slices of one array have. *)
Definition concat (d : dim) (arrs : list DataArray) : result DataArray :=
  match arrs with
  | [] => raise ValueError
  | a0 :: _ =>
      if negb (forallb (fun a => list_eqb (dims a) (dims a0)) arrs)
      then raise ValueError
      else if mem d (dims a0) then
        let! cs := traverse (concat_coord_old d arrs) (coords a0) in
        ok (mk_DataArray (dims a0)
              (concat_nd (index_of d (dims a0)) (map values arrs))
              cs (attrs a0))
      else if forallb (fun a => shape_eqb (shape (values a)) (shape (values a0))) arrs
      then
        let! cs := traverse (concat_coord_new d arrs) (coords a0) in
        ok (mk_DataArray (d :: dims a0) (stack_nd (map values arrs))
              cs (attrs a0))
      else raise ValueError
  end.

(** [a.coords[d]]: the coordinate of axis [d] together with the coordinates
    attached to it, which are those of [a] lying on no other axis *)
Definition axis_coordinate (d : dim) (a : DataArray) : result (list coord) :=
  let! c := getitem d a in
  ok (c :: filter (fun c' => subset (cdims c') [d]
                             && negb (String.eqb (cname c') d))
                  (coords a)).

(** [x.coords[d] = cs]: the labels have to fit the axes of [x] *)
Definition assign_coords (cs : list coord) (x : DataArray) : result DataArray :=
  if forallb (coord_fits (dims x) (shape (values x))) cs
  then ok (with_coords (fold_left (fun acc c => coords_set c acc) cs (coords x)) x)
  else raise ValueError.

(** [attrs.setdefault(k, []).append(v)] *)
Fixpoint append_at (k : string) (v : DataArray) (m : list (string * list DataArray))
  : list (string * list DataArray) :=
  match m with
  | [] => [(k, [v])]
  | (k', vs) :: rest =>
      if String.eqb k k' then (k', vs ++ [v]) :: rest
      else (k', vs) :: append_at k v rest
  end.

(** the loop over [arr.attrs.items()] *)
Fixpoint collect_attrs (d : dim) (t : attr_dict) (acc : list (string * list DataArray))
  : result (list (string * list DataArray)) :=
  match t with
  | attrs_nil => ok acc
  | attrs_cons k v rest =>
      match v with
      | AttrArray a =>
          let! e := expand_dims d a in
          collect_attrs d rest (append_at k e acc)
      | AttrPlain _ => raise AssertionError
      end
  end.

(** the loop over [results] *)
Fixpoint collect (d : dim) (results : list (option DataArray))
    (xarr : list DataArray) (acc : list (string * list DataArray))
  : result (list DataArray * list (string * list DataArray)) :=
  match results with
  | [] => ok (xarr, acc)
  | None :: rest => collect d rest xarr acc
  | Some arr :: rest =>
      let! acc' := collect_attrs d (attrs arr) acc in
      collect d rest (xarr ++ [arr]) acc'
  end.

(** the last loop of [apply_helper], over the concatenated attributes *)
Fixpoint attach (cs : list coord) (items : list (string * DataArray))
    (xarr : DataArray) : result DataArray :=
  match items with
  | [] => ok xarr
  | (k, v) :: rest =>
      let! v' := assign_coords cs v in
      attach cs rest (with_attrs (attrs_set k (AttrArray v') (attrs xarr)) xarr)
  end.

(** the part of [apply_helper] after [results] is known; [asm0] is
    [asms[0]] *)
Definition reassemble (d : dim) (asm0 : DataArray)
    (results : list (option DataArray)) : result (option DataArray) :=
  let! xa := collect d results [] [] in
  match fst xa with
  | [] => ok None
  | _ =>
      let! xarr := concat d (fst xa) in
      let! items :=
        traverse (fun kv => let! v := concat d (snd kv) in ok (fst kv, v))
                 (snd xa) in
      let! cs := axis_coordinate d asm0 in
      let! xarr := assign_coords cs xarr in
      let! xarr := attach cs items xarr in
      ok (Some xarr)
  end.

(** the same without arrays: [asms[0]] raises once there is a result to
    label *)
Definition reassemble_unlabelled (d : dim) (results : list (option DataArray))
  : result (option DataArray) :=
  let! xa := collect d results [] [] in
  match fst xa with
  | [] => ok None
  | _ =>
      let! xarr := concat d (fst xa) in
      let! items :=
        traverse (fun kv => let! v := concat d (snd kv) in ok (fst kv, v))
                 (snd xa) in
      raise IndexError
  end.

Definition Callable : Type := list DataArray -> result (option DataArray).

(** [apply_helper(sizes, dims, *asms)]; joblib's [Parallel] hands back the
    results of the last axis in index order *)
Fixpoint apply_helper (callable : Callable) (sizes : list nat) (ds : list dim)
    (asms : list DataArray) {struct ds} : result (option DataArray) :=
  match ds, sizes with
  | d :: rdims, size :: rsizes =>
      let! results :=
        match rsizes with
        | [] =>
            traverse (fun s => let! slices := traverse (isel d s) asms in
                               callable slices)
                     (seq 0 size)
        | _ =>
            traverse (fun s => let! slices := traverse (isel d s) asms in
                               apply_helper callable rsizes rdims slices)
                     (seq 0 size)
        end in
      match asms with
      | [] => reassemble_unlabelled d results
      | asm0 :: _ => reassemble d asm0 results
      end
  | _, _ => raise IndexError
  end.

(** [asm.transpose( *ds, ...)]: the axes [ds] first, the others in their
    order *)
Definition transpose_front (ds : list dim) (a : DataArray) : result DataArray :=
  if subset ds (dims a)
  then transpose (ds ++ filter (fun x => negb (mem x ds)) (dims a)) a
  else raise ValueError.

(** [apply_over_dims(callable, *asms, dims=ds)] *)
Definition apply_over_dims (callable : Callable) (asms : list DataArray)
    (ds : list dim) : result (option DataArray) :=
  let! asms := traverse (transpose_front ds) asms in
  let! sizes :=
    match ds, asms with
    | [], _ => ok []
    | _, [] => raise IndexError
    | _, asm0 :: _ => ok (map (fun d => size_of d asm0) ds)
    end in
  apply_helper callable sizes ds asms.

(** *** attribute trees *)

(** what [recursive_op] leaves under the name [k] when the first operand
    holds [v] there: the combination of the nested arrays, or [v] itself *)
Definition combined_under (op : Op) (others : list attr_value) (k : string)
    (v : attr_value) (out : option attr_value) : Prop :=
  match v with
  | AttrArray a =>
      exists attr_arrs r,
        traverse (operand_attr k) others = inr attr_arrs
        /\ recursive_op op a attr_arrs = inr r
        /\ out = Some (AttrArray r)
  | AttrPlain _ => out = Some v
  end.

(** the operand [b] has the attribute tree of [a]: the same names, and under
    every name where [a] holds a nested array a nested array with the tree
    of that one *)
Fixpoint same_tree (a : DataArray) (b : attr_value) {struct a} : Prop :=
  match a with
  | mk_DataArray _ _ _ t =>
      match b with
      | AttrArray b' =>
          set_equal (attrs_keys t) (attrs_keys (attrs b')) /\ same_attrs t b'
      | AttrPlain _ => False
      end
  end
with same_attrs (t : attr_dict) (b' : DataArray) {struct t} : Prop :=
  match t with
  | attrs_nil => True
  | attrs_cons k v rest =>
      match v with
      | AttrArray a =>
          exists vb, attrs_get k (attrs b') = Some vb /\ same_tree a vb
      | AttrPlain _ => True
      end
      /\ same_attrs rest b'
  end.

(** the operand [o] supplies what [recursive_op] asks of it next to the
    first operand [a]: under every name where [a] holds a nested array, [o]
    is an array with a value under that name, which in turn supplies what
    the nested array asks for *)
Fixpoint supplies (a : DataArray) (o : attr_value) {struct a} : Prop :=
  match a with
  | mk_DataArray _ _ _ t => supplies_attrs t o
  end
with supplies_attrs (t : attr_dict) (o : attr_value) {struct t} : Prop :=
  match t with
  | attrs_nil => True
  | attrs_cons k v rest =>
      match v with
      | AttrArray a => exists vb, operand_attr k o = inr vb /\ supplies a vb
      | AttrPlain _ => True
      end
      /\ supplies_attrs rest o
  end.

(** the operation returns on every operand list *)
Definition returns_always (op : Op) : Prop :=
  forall arrs, exists val, op arrs = inr val.

(** *** bookkeeping of the reassembly *)

(** the results that are not [None], in order *)
Fixpoint survivors (results : list (option DataArray)) : list DataArray :=
  match results with
  | [] => []
  | None :: rest => survivors rest
  | Some arr :: rest => arr :: survivors rest
  end.

(** how many arrays the dict of lists holds under [k] *)
Fixpoint held_under (k : string) (m : list (string * list DataArray)) : nat :=
  match m with
  | [] => 0
  | (k', vs) :: rest =>
      if String.eqb k k' then List.length vs else held_under k rest
  end.

(** [v] has [d] as its first axis, with one entry *)
Definition unit_along (d : dim) (v : DataArray) : Prop :=
  hd_error (dims v) = Some d /\ hd_error (shape (values v)) = Some 1.

(** [arr.attrs] has the name [k] *)
Definition has_attr (k : string) (arr : DataArray) : bool :=
  mem k (attrs_keys (attrs arr)).

(** the result [apply_helper] obtains for the index [s] of the axis [d]:
    from [callable] on the last axis, from the recursive call otherwise *)
Definition level_result (callable : Callable) (rsizes : list nat)
    (rdims : list dim) (d : dim) (asms : list DataArray) (s : nat)
  : result (option DataArray) :=
  let! slices := traverse (isel d s) asms in
  match rsizes with
  | [] => callable slices
  | _ => apply_helper callable rsizes rdims slices
  end.

(** ** The operations on a store of objects

    [recursive_op] assigns into [val.attrs], and [val] is whatever object
    [op] returned, possibly one of the operands (the default [op] returns
    its argument); [apply_helper] assigns into the coordinates and the
    attributes of the arrays it has concatenated.  To see which objects a
    call changes, arrays live in a store and attribute values refer to them
    by address.  What a call computes is given by the functions above; here
    every method of the library that returns an array allocates one, and
    an assignment updates the object it is made on. *)
Module Store.

Definition ref := nat.

Inductive value : Type :=
| Ref (r : ref)
| Plain (z : Z).

Record object : Type := mk_object {
  o_dims : list dim;
  o_values : ndarray;
  o_coords : list coord;
  o_attrs : list (string * value)
}.

Definition store := list object.

Definition lookup (h : store) (r : ref) : result object :=
  match nth_error h r with
  | Some o => ok o
  | None => raise AttributeError
  end.

Fixpoint dict_get (k : string) (m : list (string * value)) : option value :=
  match m with
  | [] => None
  | (k', v) :: rest => if String.eqb k k' then Some v else dict_get k rest
  end.

Fixpoint dict_set (k : string) (v : value) (m : list (string * value))
  : list (string * value) :=
  match m with
  | [] => [(k, v)]
  | (k', v') :: rest =>
      if String.eqb k k' then (k', v) :: rest
      else (k', v') :: dict_set k v rest
  end.

Fixpoint update (h : store) (r : ref) (f : object -> object) : store :=
  match h, r with
  | [], _ => []
  | o :: rest, 0 => f o :: rest
  | o :: rest, S r' => o :: update rest r' f
  end.

(** [val.attrs[k] = v] *)
Definition set_attr (h : store) (val : ref) (k : string) (v : value) : store :=
  update h val
    (fun o => mk_object (o_dims o) (o_values o) (o_coords o)
                (dict_set k v (o_attrs o))).

(** [arr.attrs[k]] on an operand *)
Definition operand_attr (h : store) (k : string) (arr : value) : result value :=
  match arr with
  | Ref r =>
      let! o := lookup h r in
      match dict_get k (o_attrs o) with
      | Some v => ok v
      | None => raise KeyError
      end
  | Plain _ => raise AttributeError
  end.

(** an operation: it may allocate, and returns the address of its result *)
Definition Op : Type := store -> list value -> result (store * ref).

(** the loop [for attr in attrs] of [recursive_op]; [recur] is the nested
    call, [val] the object returned by [op], [keys] the names in
    [arrs[0].attrs] *)
Fixpoint attrs_loop (recur : store -> ref -> list value -> result (store * ref))
    (val arr0 : ref) (others : list value) (keys : list string) (h : store)
  : result (store * ref) :=
  match keys with
  | [] => ok (h, val)
  | attr :: rest =>
      let! o := lookup h arr0 in
      match dict_get attr (o_attrs o) with
      | None => raise KeyError
      | Some (Ref a) =>
          let! attr_arrs := traverse (operand_attr h attr) others in
          let! hr := recur h a attr_arrs in
          attrs_loop recur val arr0 others rest
            (set_attr (fst hr) val attr (Ref (snd hr)))
      | Some (Plain z) =>
          attrs_loop recur val arr0 others rest (set_attr h val attr (Plain z))
      end
  end.

(** [recursive_op( *arrs, op=op)] with [arrs = Ref arr0 :: others]; [depth]
    bounds the nesting of calls, as the interpreter's recursion limit
    does *)
Fixpoint recursive_op (depth : nat) (op : Op) (h : store) (arr0 : ref)
    (others : list value) : result (store * ref) :=
  match depth with
  | 0 => raise RecursionError
  | S depth' =>
      let! hv := op h (Ref arr0 :: others) in
      let! o0 := lookup (fst hv) arr0 in
      attrs_loop (recursive_op depth' op) (snd hv) arr0 others
        (map fst (o_attrs o0)) (fst hv)
  end.

(** the default operation, [lambda x: x] *)
Definition identity_op : Op :=
  fun h arrs =>
    match arrs with
    | [Ref r] => ok (h, r)
    | _ => raise TypeError
    end.

(** [op] leaves the objects of the store as they are and returns a new one *)
Definition allocates (op : Op) : Prop :=
  forall h arrs h' r,
    op h arrs = inr (h', r) ->
    List.length h <= r /\ r < List.length h'
    /\ forall i, i < List.length h -> nth_error h' i = nth_error h i.

(** *** the other operations, on the store *)

(** every object of [h] is in [h'], at its address and as it was *)
Definition extends (h h' : store) : Prop :=
  List.length h <= List.length h'
  /\ forall i, i < List.length h -> nth_error h' i = nth_error h i.

(** axes, values and coordinates of an object; its attributes stay in the
    store *)
Definition view (o : object) : DataArray :=
  mk_DataArray (o_dims o) (o_values o) (o_coords o) attrs_nil.

(** a new object, at a new address *)
Definition alloc (h : store) (o : object) : store * ref :=
  (h ++ [o], List.length h).

(** a method of xarray that returns a new array ([transpose], [sortby],
    [isel], [expand_dims]): [f] is what it does to axes, values and
    coordinates; the new array has a dict of its own with the attributes of
    the old one *)
Definition method (f : DataArray -> result DataArray) (h : store) (r : ref)
  : result (store * ref) :=
  let! o := lookup h r in
  let! a := f (view o) in
  ok (alloc h (mk_object (dims a) (values a) (coords a) (o_attrs o))).

(** what a constructor returns: a new array without attributes *)
Definition construct (a : DataArray) (h : store) : store * ref :=
  alloc h (mk_object (dims a) (values a) (coords a) []).

(** a loop whose body may allocate *)
Fixpoint traverse_st {A B : Type} (f : store -> A -> result (store * B))
    (l : list A) (h : store) : result (store * list B) :=
  match l with
  | [] => ok (h, [])
  | x :: rest =>
      let! hy := f h x in
      let! hys := traverse_st f rest (fst hy) in
      ok (fst hys, snd hy :: snd hys)
  end.

(** a regression strategy, handed arrays of the store *)
Record Regression (M : Type) : Type := mk_Regression {
  reg_fit : store -> ref -> ref -> result (store * M);
  reg_predict : store -> option M -> ref -> result (store * ndarray)
}.

Arguments mk_Regression {M} _ _.
Arguments reg_fit {M} _ _ _ _.
Arguments reg_predict {M} _ _ _ _.

(** the strategy leaves the arrays that exist as they are *)
Definition regression_preserves {M : Type} (regression : Regression M) : Prop :=
  (forall h s t h' m, reg_fit regression h s t = inr (h', m) -> extends h h')
  /\ (forall h m s h' pv,
        reg_predict regression h m s = inr (h', pv) -> extends h h').

(** [XarrayRegression._align] *)
Definition _align (expected_dims : list dim) : store -> ref -> result (store * ref) :=
  method (_align expected_dims).

(** [XarrayRegression.fit]; [self] holds the fields of the adapter other
    than the regression, which is [regression] *)
Definition fit {M : Type} (regression : Regression M) (self : XarrayRegression M)
    (h : store) (source target : ref) : result (store * XarrayRegression M) :=
  let! hs := _align (_expected_dims self) h source in
  let! ht := _align (_expected_dims self) (fst hs) target in
  let! hs' := method (sortby [_stimulus_coord self]) (fst ht) (snd hs) in
  let! ht' := method (sortby [_stimulus_coord self]) (fst hs') (snd ht) in
  let! hm := reg_fit regression (fst ht') (snd hs') (snd ht') in
  let! t := lookup (fst hm) (snd ht') in
  let! captured := capture (_neuroid_dim self) (walk_coords (view t)) [] in
  ok (fst hm,
      mk_XarrayRegression (_regression self) (Some (snd hm)) (_expected_dims self)
        (_neuroid_dim self) (_neuroid_coord self) (_stimulus_coord self)
        (Some captured)).

(** [XarrayRegression._package_prediction]: the prediction is a new array;
    the array that [stack] is called on is not kept *)
Definition _package_prediction {M : Type} (self : XarrayRegression M)
    (predicted_values : ndarray) (h : store) (source : ref)
  : result (store * ref) :=
  let! s := lookup h source in
  let! prediction := _package_prediction self predicted_values (view s) in
  ok (construct prediction h).

(** [XarrayRegression.predict] *)
Definition predict {M : Type} (regression : Regression M)
    (self : XarrayRegression M) (h : store) (source : ref)
  : result (store * ref) :=
  let! hs := _align (_expected_dims self) h source in
  let! hp := reg_predict regression (fst hs) (_model self) (snd hs) in
  _package_prediction self (snd hp) (fst hp) (snd hs).

(** a comparison strategy, handed arrays of the store *)
Definition Correlation : Type := store -> ref -> ref -> result (store * (Z * Z)).

Definition correlation_preserves (c : Correlation) : Prop :=
  forall h a b h' rp, c h a b = inr (h', rp) -> extends h h'.

(** [XarrayCorrelation.__call__] *)
Definition correlation_call (_correlation : Correlation)
    (_correlation_coord _neuroid_coord : string) (h : store)
    (prediction target : ref) : result (store * ref) :=
  let! hp := method (sortby [_correlation_coord; _neuroid_coord]) h prediction in
  let! ht := method (sortby [_correlation_coord; _neuroid_coord]) (fst hp) target in
  let! p := lookup (fst ht) (snd hp) in
  let! t := lookup (fst ht) (snd ht) in
  let! pc := getitem _correlation_coord (view p) in
  let! tc := getitem _correlation_coord (view t) in
  let! _ := assert_ (all_equal (to_list (cvalues pc)) (to_list (cvalues tc))) in
  let! pn := getitem _neuroid_coord (view p) in
  let! tn := getitem _neuroid_coord (view t) in
  let! _ := assert_ (all_equal (to_list (cvalues pn)) (to_list (cvalues tn))) in
  let neuroid_dims := cdims tn in
  let! _ := assert_ (Nat.eqb (List.length neuroid_dims) 1) in
  let d := hd ""%string neuroid_dims in
  let! hc :=
    traverse_st
      (fun h i =>
         let! hti := method (isel d i) h (snd ht) in
         let! hpi := method (isel d i) (fst hti) (snd hp) in
         let! hr := _correlation (fst hpi) (snd hti) (snd hpi) in
         ok (fst hr, fst (snd hr)))
      (seq 0 (List.length (to_list (cvalues tn)))) (fst ht) in
  let! score :=
    new_Assembly (of_list (snd hc))
      (fold_left (fun cs c => coords_set c cs)
         (filter (fun c => list_eqb (cdims c) neuroid_dims) (walk_coords (view t)))
         [])
      neuroid_dims in
  ok (construct score (fst hc)).

(** [xr.concat(arrs, dim=d)]: a new array, with the attributes of the first
    part *)
Definition concat (d : dim) (h : store) (arrs : list ref) : result (store * ref) :=
  let! os := traverse (lookup h) arrs in
  let! a := concat d (map view os) in
  ok (alloc h (mk_object (dims a) (values a) (coords a)
                 (match os with
                  | o :: _ => o_attrs o
                  | [] => []
                  end))).

(** [x.coords[d] = cs]: an assignment into the array [x] *)
Definition set_coords (h : store) (x : ref) (cs : list coord) : result store :=
  let! o := lookup h x in
  let! a := assign_coords cs (view o) in
  ok (update h x
        (fun o => mk_object (o_dims o) (o_values o) (coords a) (o_attrs o))).

(** [attrs.setdefault(k, []).append(v)] *)
Fixpoint append_at (k : string) (v : ref) (m : list (string * list ref))
  : list (string * list ref) :=
  match m with
  | [] => [(k, [v])]
  | (k', vs) :: rest =>
      if String.eqb k k' then (k', vs ++ [v]) :: rest
      else (k', vs) :: append_at k v rest
  end.

(** the loop over [arr.attrs.items()] *)
Fixpoint collect_attrs (d : dim) (items : list (string * value))
    (acc : list (string * list ref)) (h : store)
  : result (store * list (string * list ref)) :=
  match items with
  | [] => ok (h, acc)
  | (k, Ref v) :: rest =>
      let! he := method (expand_dims d) h v in
      collect_attrs d rest (append_at k (snd he) acc) (fst he)
  | (k, Plain _) :: rest => raise AssertionError
  end.

(** the loop over [results] *)
Fixpoint collect (d : dim) (results : list (option ref)) (xarr : list ref)
    (acc : list (string * list ref)) (h : store)
  : result (store * (list ref * list (string * list ref))) :=
  match results with
  | [] => ok (h, (xarr, acc))
  | None :: rest => collect d rest xarr acc h
  | Some arr :: rest =>
      let! o := lookup h arr in
      let! ha := collect_attrs d (o_attrs o) acc h in
      collect d rest (xarr ++ [arr]) (snd ha) (fst ha)
  end.

(** the last loop of [apply_helper]: assignments into [attrs[k]] and into
    [xarr] *)
Fixpoint attach (cs : list coord) (items : list (string * ref)) (xarr : ref)
    (h : store) : result store :=
  match items with
  | [] => ok h
  | (k, v) :: rest =>
      let! h1 := set_coords h v cs in
      attach cs rest xarr (set_attr h1 xarr k (Ref v))
  end.

(** the part of [apply_helper] after [results] is known; [asm0] is
    [asms[0]], if there is one *)
Definition reassemble (d : dim) (asm0 : option ref)
    (results : list (option ref)) (h : store) : result (store * option ref) :=
  let! hxa := collect d results [] [] h in
  match fst (snd hxa) with
  | [] => ok (fst hxa, None)
  | _ =>
      let! hx := concat d (fst hxa) (fst (snd hxa)) in
      let! hitems :=
        traverse_st
          (fun h kv => let! hv := concat d h (snd kv) in
                       ok (fst hv, (fst kv, snd hv)))
          (snd (snd hxa)) (fst hx) in
      match asm0 with
      | None => raise IndexError
      | Some asm0 =>
          let! o0 := lookup (fst hitems) asm0 in
          let! cs := axis_coordinate d (view o0) in
          let! h1 := set_coords (fst hitems) (snd hx) cs in
          let! h2 := attach cs (snd hitems) (snd hx) h1 in
          ok (h2, Some (snd hx))
      end
  end.

(** a callable, handed slices of the store; it returns an array of the
    store, or [None] *)
Definition Callable : Type := store -> list ref -> result (store * option ref).

Definition callable_preserves (c : Callable) : Prop :=
  forall h slices h' r, c h slices = inr (h', r) -> extends h h'.

(** [apply_helper(sizes, dims, *asms)] *)
Fixpoint apply_helper (callable : Callable) (sizes : list nat) (ds : list dim)
    (h : store) (asms : list ref) {struct ds} : result (store * option ref) :=
  match ds, sizes with
  | d :: rdims, size :: rsizes =>
      let! hres :=
        match rsizes with
        | [] =>
            traverse_st
              (fun h s =>
                 let! hsl := traverse_st (method (isel d s)) asms h in
                 callable (fst hsl) (snd hsl))
              (seq 0 size) h
        | _ =>
            traverse_st
              (fun h s =>
                 let! hsl := traverse_st (method (isel d s)) asms h in
                 apply_helper callable rsizes rdims (fst hsl) (snd hsl))
              (seq 0 size) h
        end in
      reassemble d (hd_error asms) (snd hres) (fst hres)
  | _, _ => raise IndexError
  end.

(** [apply_over_dims(callable, *asms, dims=ds)] *)
Definition apply_over_dims (callable : Callable) (h : store) (asms : list ref)
    (ds : list dim) : result (store * option ref) :=
  let! hasms := traverse_st (method (transpose_front ds)) asms h in
  let! sizes :=
    match ds, snd hasms with
    | [], _ => ok []
    | _, [] => raise IndexError
    | _, asm0 :: _ =>
        let! o := lookup (fst hasms) asm0 in
        ok (map (fun d => size_of d (view o)) ds)
    end in
  apply_helper callable sizes ds (fst hasms) (snd hasms).

End Store.

(** ** The identity callable *)

(** a callable that returns its input slice unchanged *)
Definition identity_callable : Callable :=
  fun slices =>
    match slices with
    | [s] => ok (Some s)
    | _ => raise TypeError
    end.

(** [idx] starts with one index below each of [sizes] *)
Fixpoint within (sizes : list nat) (idx : list nat) : Prop :=
  match sizes with
  | [] => True
  | n :: r =>
      match idx with
      | [] => False
      | i :: rest => i < n /\ within r rest
      end
  end.






(** the arrays the dict of lists holds under [k] *)
Fixpoint held_list (k : string) (m : list (string * list DataArray))
  : list DataArray :=
  match m with
  | [] => []
  | (k', vs) :: rest => if String.eqb k k' then vs else held_list k rest
  end.






(** the slice [a.isel({d: s})] when [d] is the first axis of [a] *)
Definition slice_at (d : dim) (a : DataArray) (s : nat) : DataArray :=
  mk_DataArray (remove_nth 0 (dims a)) (select_nd 0 s (values a))
    (map (select_coord d s) (coords a)) (attrs a).

(** [a[key].values] as a Python list *)
Definition labels_of (key : string) (a : DataArray) : result (list Z) :=
  let! c := getitem key a in
  ok (to_list (cvalues c)).

(** the attributes of the object at [r] nest arrays at most [n] levels
    deep, [r] included *)
Fixpoint nests (n : nat) (h : Store.store) (r : Store.ref) : bool :=
  match n with
  | 0 => false
  | S n' =>
      match nth_error h r with
      | None => false
      | Some o =>
          forallb (fun kv => match snd kv with
                             | Store.Ref a => nests n' h a
                             | Store.Plain _ => true
                             end)
                  (Store.o_attrs o)
      end
  end.

(** every attribute of every object refers to an object of the store *)
Definition closed (h : Store.store) : Prop :=
  forall r o k a,
    nth_error h r = Some o -> In (k, Store.Ref a) (Store.o_attrs o) ->
    a < List.length h.

(** attribute names are the keys of a dict, at every level of nesting *)
Fixpoint keys_unique (a : DataArray) {struct a} : Prop :=
  match a with
  | mk_DataArray _ _ _ t => NoDup (attrs_keys t) /\ attrs_unique t
  end
with attrs_unique (t : attr_dict) {struct t} : Prop :=
  match t with
  | attrs_nil => True
  | attrs_cons _ v rest =>
      match v with
      | AttrArray a => keys_unique a
      | AttrPlain _ => True
      end
      /\ attrs_unique rest
  end.

(** the arrays [op] returns carry no attributes, as the results of xarray
    arithmetic do *)
Definition drops_attrs (op : Op) : Prop :=
  forall arrs val, op arrs = inr val -> attrs val = attrs_nil.

(** ** Sample data *)

Definition presentation_neuroid : list dim := ["presentation"; "neuroid"].

(** a 2 x 3 array laid out neuroid-first *)
Definition neuroid_first : DataArray :=
  mk_DataArray ["neuroid"; "presentation"]
    (mk_ndarray [2; 3]
       (fun idx => (10 * Z.of_nat (nth 0 idx 0%nat) + Z.of_nat (nth 1 idx 0%nat))%Z))
    [mk_coord "neuroid_id" ["neuroid"] (of_list [7; 8]%Z);
     mk_coord "stimulus_id" ["presentation"] (of_list [3; 1; 2]%Z)]
    attrs_nil.

(** a regression strategy that remembers how many neuroids the target had
    and predicts zeros *)
Definition toy_regression : Regression nat :=
  mk_Regression
    (fun _ target => ok (size_of "neuroid" target))
    (fun model source =>
       match model with
       | Some n => ok (mk_ndarray [size_of "presentation" source; n] (fun _ => 0%Z))
       | None => ok (mk_ndarray [size_of "presentation" source; 0] (fun _ => 0%Z))
       end).

(** a regression that refuses to predict without a model *)
Definition strict_regression : Regression nat :=
  mk_Regression
    (fun _ target => ok (size_of "neuroid" target))
    (fun model source =>
       match model with
       | Some n => ok (mk_ndarray [size_of "presentation" source; n] (fun _ => 0%Z))
       | None => raise StrategyError
       end).

Definition toy_adapter : XarrayRegression nat :=
  init toy_regression presentation_neuroid "neuroid" "neuroid_id" "stimulus_id".

Definition grid (n m : nat) : ndarray :=
  mk_ndarray [n; m]
    (fun idx => (10 * Z.of_nat (nth 0 idx 0%nat) + Z.of_nat (nth 1 idx 0%nat))%Z).


Definition source_plain : DataArray :=
  mk_DataArray presentation_neuroid (grid 3 4)
    [mk_coord "stimulus_id" ["presentation"] (of_list [3; 1; 2]%Z);
     mk_coord "neuroid_id" ["neuroid"] (of_list [1; 2; 3; 4]%Z)]
    attrs_nil.

(** two coordinates on the neuroid axis *)
Definition target_two : DataArray :=
  mk_DataArray presentation_neuroid (grid 3 2)
    [mk_coord "stimulus_id" ["presentation"] (of_list [3; 1; 2]%Z);
     mk_coord "neuroid_id" ["neuroid"] (of_list [10; 20]%Z);
     mk_coord "area" ["neuroid"] (of_list [1; 2]%Z)]
    attrs_nil.

(** one coordinate on the neuroid axis *)
Definition target_one : DataArray :=
  mk_DataArray presentation_neuroid (grid 3 2)
    [mk_coord "stimulus_id" ["presentation"] (of_list [3; 1; 2]%Z);
     mk_coord "neuroid_id" ["neuroid"] (of_list [10; 20]%Z)]
    attrs_nil.

(** the one coordinate on the neuroid axis has the empty name *)
Definition target_unnamed : DataArray :=
  mk_DataArray presentation_neuroid (grid 3 2)
    [mk_coord "stimulus_id" ["presentation"] (of_list [3; 1; 2]%Z);
     mk_coord "" ["neuroid"] (of_list [10; 20]%Z)]
    attrs_nil.

(** the one coordinate on the neuroid axis is the axis coordinate itself *)
Definition target_indexed : DataArray :=
  mk_DataArray presentation_neuroid (grid 3 2)
    [mk_coord "stimulus_id" ["presentation"] (of_list [3; 1; 2]%Z);
     mk_coord "neuroid" ["neuroid"] (of_list [10; 20]%Z)]
    attrs_nil.

(** the neuroid axis has its own coordinate and one more *)
Definition target_index_and_id : DataArray :=
  mk_DataArray presentation_neuroid (grid 3 2)
    [mk_coord "stimulus_id" ["presentation"] (of_list [3; 1; 2]%Z);
     mk_coord "neuroid" ["neuroid"] (of_list [10; 20]%Z);
     mk_coord "neuroid_id" ["neuroid"] (of_list [7; 8]%Z)]
    attrs_nil.

(** the stimulus coordinate is attached to the neuroid axis *)
Definition target_stimulus_on_neuroid : DataArray :=
  mk_DataArray presentation_neuroid (grid 3 2)
    [mk_coord "stimulus_id" ["neuroid"] (of_list [2; 1]%Z);
     mk_coord "neuroid_id" ["neuroid"] (of_list [10; 20]%Z)]
    attrs_nil.

(** [self.predict(source')] after [self.fit(source, target)] *)
Definition fit_then_predict {M : Type} (self : XarrayRegression M)
    (source target source' : DataArray) : result DataArray :=
  let! fitted := fit self source target in
  predict fitted source'.

Definition fitted_two : XarrayRegression nat :=
  match fit toy_adapter source_plain target_two with
  | inr fitted => fitted
  | inl _ => toy_adapter
  end.

Definition prediction_two : DataArray :=
  match predict fitted_two source_plain with
  | inr p => p
  | inl _ => source_plain
  end.

(** a prediction for [target_two], stored in another order *)
Definition prediction_shuffled : DataArray :=
  mk_DataArray presentation_neuroid (grid 3 2)
    [mk_coord "stimulus_id" ["presentation"] (of_list [1; 2; 3]%Z);
     mk_coord "neuroid_id" ["neuroid"] (of_list [20; 10]%Z)]
    attrs_nil.

(** a comparison strategy: a statistic and a p-value *)
Definition toy_correlation : Correlation :=
  fun a b => ok (Z.add (item (values a) [0]) (item (values b) [1]), 42%Z).

(** an operation in the manner of [lambda x, y: x + y]: a new array on the
    axes of the first operand, without attributes *)
Definition toy_op : Op :=
  fun arrs =>
    match arrs with
    | AttrArray a :: _ => ok (mk_DataArray (dims a) (values a) (coords a) attrs_nil)
    | _ => ok (mk_DataArray [] (of_list []) [] attrs_nil)
    end.

Definition bare : DataArray :=
  mk_DataArray ["x"] (of_list [1; 2]%Z) [] attrs_nil.

Definition annotated : DataArray :=
  mk_DataArray ["x"] (of_list [3; 4]%Z) []
    (attrs_cons "m" (AttrArray bare) attrs_nil).

(** two rows along ["a"], labelled 10 and 20 *)
Definition asm_pair : DataArray :=
  mk_DataArray ["a"; "b"] (grid 2 2)
    [mk_coord "a" ["a"] (of_list [10; 20]%Z)]
    attrs_nil.

(** a callable that attaches an attribute to the first row only *)
Definition picky : Callable :=
  fun slices =>
    match slices with
    | [s] =>
        if Z.eqb (item (values s) [0]) 0
        then ok (Some (with_attrs (attrs_cons "m" (AttrArray bare) attrs_nil) s))
        else ok (Some s)
    | _ => raise TypeError
    end.

(** [lambda x, y: y]: the operation returns its second operand *)
Definition second_op : Store.Op :=
  fun h arrs =>
    match arrs with
    | [_; Store.Ref r] => ok (h, r)
    | _ => raise TypeError
    end.

(** two arrays whose attribute ["name"] holds 1 and 2 *)
Definition store_named : Store.store :=
  [Store.mk_object ["x"] (of_list [3; 4]%Z) [] [("name", Store.Plain 1)];
   Store.mk_object ["x"] (of_list [1; 2]%Z) [] [("name", Store.Plain 2)]].

(** object 0 carries the attribute ["m"], which is object 1 *)
Definition store_two : Store.store :=
  [Store.mk_object ["x"] (of_list [3; 4]%Z) [] [("m", Store.Ref 1)];
   Store.mk_object ["x"] (of_list [1; 2]%Z) [] []].

(** object 0, on the axis ["a"], carries the attribute ["m"], which is
    object 1, on the axis ["y"] *)
Definition store_walk : Store.store :=
  [Store.mk_object ["a"] (of_list [3; 4]%Z) [] [("m", Store.Ref 1)];
   Store.mk_object ["y"] (of_list [1; 2]%Z) [] []].

(** a callable that returns the slice it is given *)
Definition echo : Store.Callable :=
  fun h slices =>
    match slices with
    | [r] => ok (h, Some r)
    | _ => raise TypeError
    end.

(** an array of the sample data as an object without attributes *)
Definition object_of (a : DataArray) : Store.object :=
  Store.mk_object (dims a) (values a) (coords a) [].

(** a source, a target and a prediction in a store *)
Definition store_data : Store.store :=
  [object_of source_plain; object_of target_two; object_of prediction_shuffled].

(** [toy_regression] on the arrays it is handed, which it only reads *)
Definition store_regression : Store.Regression nat :=
  Store.mk_Regression
    (fun h source target =>
       let! s := Store.lookup h source in
       let! t := Store.lookup h target in
       let! m := reg_fit toy_regression (Store.view s) (Store.view t) in
       ok (h, m))
    (fun h model source =>
       let! s := Store.lookup h source in
       let! pv := reg_predict toy_regression model (Store.view s) in
       ok (h, pv)).

(** [toy_correlation] on the slices it is handed, which it only reads *)
Definition store_correlation : Store.Correlation :=
  fun h a b =>
    let! oa := Store.lookup h a in
    let! ob := Store.lookup h b in
    let! rp := toy_correlation (Store.view oa) (Store.view ob) in
    ok (h, rp).

(** an operation in the manner of [lambda x: 2 * x]: always a new array *)
Definition fresh_op : Store.Op :=
  fun h arrs =>
    match arrs with
    | Store.Ref r :: _ =>
        match nth_error h r with
        | Some o =>
            ok (h ++ [Store.mk_object (Store.o_dims o)
                        (mk_ndarray (shape (Store.o_values o))
                           (fun idx => (2 * item (Store.o_values o) idx)%Z))
                        (Store.o_coords o) []],
                List.length h)
        | None => raise AttributeError
        end
    | _ => raise TypeError
    end.

(** an attribute array on an axis of its own *)
Definition side_array : DataArray :=
  mk_DataArray ["y"] (of_list [7; 8]%Z) [] attrs_nil.

(** 3 x 2 values with a coordinate on each axis and one attribute *)
Definition asm_attr : DataArray :=
  mk_DataArray ["a"; "b"] (grid 3 2)
    [mk_coord "a" ["a"] (of_list [10; 20; 30]%Z);
     mk_coord "bid" ["b"] (of_list [1; 2]%Z)]
    (attrs_cons "m" (AttrArray side_array) attrs_nil).


(** no entry along the axis "a" *)
Definition asm_empty : DataArray :=
  mk_DataArray ["a"; "b"] (mk_ndarray [0; 2] (fun _ => 0%Z)) [] attrs_nil.

(** a callable that returns [None] for every slice *)
Definition silent : Callable := fun _ => ok None.

(** a callable that raises on every slice *)
Definition raising : Callable := fun _ => raise StrategyError.

(** a target without the stimulus coordinate *)
Definition target_unlabelled : DataArray :=
  mk_DataArray presentation_neuroid (grid 3 2)
    [mk_coord "neuroid_id" ["neuroid"] (of_list [10; 20]%Z)]
    attrs_nil.

(** the adapter fitted on a target with one neuroid coordinate, and its
    prediction *)
Definition fitted_one : XarrayRegression nat :=
  match fit toy_adapter source_plain target_one with
  | inr fitted => fitted
  | inl _ => toy_adapter
  end.

Definition prediction_one : DataArray :=
  match predict fitted_one source_plain with
  | inr p => p
  | inl _ => source_plain
  end.

(** a regression whose predictions have one axis only *)
Definition flat_regression : Regression nat :=
  mk_Regression
    (fun _ target => ok (size_of "neuroid" target))
    (fun _ source =>
       ok (mk_ndarray [size_of "presentation" source] (fun _ => 0%Z))).

Definition fitted_flat : XarrayRegression nat :=
  match fit (init flat_regression presentation_neuroid "neuroid" "neuroid_id"
               "stimulus_id") source_plain target_two with
  | inr fitted => fitted
  | inl _ => toy_adapter
  end.

(** a prediction for other stimuli than those of [target_two] *)
Definition prediction_other : DataArray :=
  mk_DataArray presentation_neuroid (grid 3 2)
    [mk_coord "stimulus_id" ["presentation"] (of_list [1; 2; 4]%Z);
     mk_coord "neuroid_id" ["neuroid"] (of_list [20; 10]%Z)]
    attrs_nil.

(** an array whose attribute "self" is the array itself *)
Definition store_cycle : Store.store :=
  [Store.mk_object ["x"] (of_list [1; 2]%Z) [] [("self", Store.Ref 0)]].

(** values with a nested array and a plain attribute, as in
    [attrs={"m": ..., "units": 3}] *)
Definition asm_units : DataArray :=
  mk_DataArray ["a"; "b"] (grid 3 2) []
    (attrs_cons "m" (AttrArray side_array)
       (attrs_cons "units" (AttrPlain 3) attrs_nil)).

(** two rows only *)
Definition asm_short : DataArray :=
  mk_DataArray ["a"; "b"] (grid 2 2) [] attrs_nil.

(** a callable that returns the first of its slices *)
Definition first_slice : Callable :=
  fun slices =>
    match slices with
    | s :: _ => ok (Some s)
    | [] => raise TypeError
    end.

(** the same statistic as [toy_correlation] with another p-value *)
Definition toy_correlation_p : Correlation :=
  fun a b => ok (Z.add (item (values a) [0]) (item (values b) [1]), 7%Z).


(** a callable that returns the first row and [None] for the others *)
Definition dropping : Callable :=
  fun slices =>
    match slices with
    | [s] => if Z.eqb (item (values s) [0]) 0 then ok (Some s) else ok None
    | _ => raise TypeError
    end.

(** * Properties *)

(** ** Names and membership *)

Lemma mem_In (d : dim) (l : list dim) : mem d l = true <-> In d l.
Proof.
  unfold mem. rewrite existsb_exists. split.
  - intros [x [Hx He]]. apply String.eqb_eq in He. now subst.
  - intros H. exists d. split; [assumption | apply String.eqb_refl].
Qed.

Lemma mem_false (d : dim) (l : list dim) : mem d l = false <-> ~ In d l.
Proof.
  rewrite <- mem_In. destruct (mem d l); split; congruence.
Qed.

Lemma subset_incl (l1 l2 : list dim) : subset l1 l2 = true <-> incl l1 l2.
Proof.
  unfold subset, incl. rewrite forallb_forall. split; intros H x Hx.
  - apply mem_In. now apply H.
  - apply mem_In. now apply H.
Qed.

Lemma set_eq_spec (l1 l2 : list dim) : set_eq l1 l2 = true <-> set_equal l1 l2.
Proof.
  unfold set_eq, set_equal. rewrite andb_true_iff, !subset_incl. unfold incl.
  split.
  - intros [H1 H2] d. split; auto.
  - intros H. split; intros d; apply H.
Qed.

Lemma set_eq_sym (l1 l2 : list dim) : set_eq l1 l2 = set_eq l2 l1.
Proof. unfold set_eq. apply andb_comm. Qed.

Lemma nodup_b_spec (l : list dim) : nodup_b l = true <-> NoDup l.
Proof.
  induction l as [|d r IH]; simpl.
  - split; [constructor | reflexivity].
  - rewrite andb_true_iff, negb_true_iff, mem_false, IH. split.
    + intros [H1 H2]. now constructor.
    + intros H. inversion H; subst. now split.
Qed.

Lemma list_eqb_eq (l1 l2 : list dim) : list_eqb l1 l2 = true <-> l1 = l2.
Proof.
  unfold list_eqb. destruct (list_eq_dec string_dec l1 l2); split; congruence.
Qed.

Lemma list_eqb_refl (l : list dim) : list_eqb l l = true.
Proof. now apply list_eqb_eq. Qed.

Lemma array_is_element_spec (arr : list dim) (d : dim) :
  array_is_element arr d = true <-> arr = [d].
Proof.
  destruct arr as [|x [|y r]]; simpl; try (split; congruence).
  rewrite String.eqb_eq. split; congruence.
Qed.

(** ** Positions *)

Lemma nth_index_of (d : dim) (l : list dim) :
  In d l -> nth (index_of d l) l "" = d.
Proof.
  induction l as [|x r IH]; simpl; [tauto|].
  intros H. destruct (String.eqb_spec d x) as [->|Hne]; [reflexivity|].
  destruct H as [->|H]; [congruence | now apply IH].
Qed.

Lemma index_of_inj (l : list dim) (d x : dim) :
  In d l -> In x l -> index_of d l = index_of x l -> d = x.
Proof.
  intros Hd Hx He.
  rewrite <- (nth_index_of d l Hd), <- (nth_index_of x l Hx). now rewrite He.
Qed.

Lemma index_of_nth (l : list dim) (q : nat) :
  NoDup l -> q < List.length l -> index_of (nth q l "") l = q.
Proof.
  revert q. induction l as [|x r IH]; simpl; intros q Hnd Hq; [lia|].
  inversion Hnd as [|? ? Hnin Hnd']; subst.
  destruct q as [|q].
  - now rewrite String.eqb_refl.
  - destruct (String.eqb_spec (nth q r "") x) as [He|Hne].
    + exfalso. apply Hnin. rewrite <- He. apply nth_In. lia.
    + f_equal. apply IH; [assumption | lia].
Qed.

Lemma index_nat_positions (ds l : list dim) (d : dim) :
  incl l ds -> In d ds -> In d l ->
  index_nat (index_of d ds) (map (fun x => index_of x ds) l) = index_of d l.
Proof.
  intros Hl Hd. induction l as [|x r IH]; simpl; [tauto|].
  intros Hin.
  assert (Hx : In x ds) by (apply Hl; now left).
  destruct (String.eqb_spec d x) as [->|Hne].
  - now rewrite Nat.eqb_refl.
  - destruct (Nat.eqb_spec (index_of d ds) (index_of x ds)) as [He|_].
    + exfalso. apply Hne. eapply index_of_inj; eassumption.
    + f_equal. apply IH.
      * intros y Hy. apply Hl. now right.
      * destruct Hin as [->|Hin]; [congruence | assumption].
Qed.

Lemma nth_index_of_map (env : dim -> nat) (l : list dim) (d : dim) :
  In d l -> nth (index_of d l) (map env l) 0 = env d.
Proof.
  induction l as [|x r IH]; simpl; [tauto|].
  intros H. destruct (String.eqb_spec d x) as [->|Hne]; [reflexivity|].
  destruct H as [->|H]; [congruence | now apply IH].
Qed.

Lemma map_seq_nth {A : Type} (g : nat -> A) (h : dim -> A) (l : list dim) :
  (forall q, q < List.length l -> g q = h (nth q l "")) ->
  map g (seq 0 (List.length l)) = map h l.
Proof.
  revert g. induction l as [|x r IH]; simpl; intros g Hg; [reflexivity|].
  f_equal.
  - apply (Hg 0). lia.
  - rewrite <- seq_shift, map_map. apply IH.
    intros q Hq. apply (Hg (S q)). lia.
Qed.

Lemma NoDup_incl_length_eq (l1 l2 : list dim) :
  NoDup l1 -> NoDup l2 -> set_equal l1 l2 -> List.length l1 = List.length l2.
Proof.
  intros H1 H2 He. apply Nat.le_antisymm.
  - apply NoDup_incl_length; [assumption | intros d; apply He].
  - apply NoDup_incl_length; [assumption | intros d; apply He].
Qed.

(** ** _align *)

Lemma transpose_values (order : list dim) (a : DataArray) (env : dim -> nat) :
  NoDup (dims a) -> set_equal order (dims a) ->
  List.length order = List.length (dims a) ->
  item (transpose_nd (map (fun d => index_of d (dims a)) order) (values a))
       (map env order)
  = item (values a) (map env (dims a)).
Proof.
  intros Hnd Hset Hlen. unfold transpose_nd. simpl.
  f_equal. rewrite length_map, Hlen.
  apply map_seq_nth. intros q Hq.
  set (d := nth q (dims a) "").
  assert (Hd : In d (dims a)) by (apply nth_In; assumption).
  rewrite <- (index_of_nth (dims a) q Hnd Hq). fold d.
  rewrite index_nat_positions.
  - apply nth_index_of_map. now apply Hset.
  - intros x Hx. now apply Hset.
  - assumption.
  - now apply Hset.
Qed.

Lemma transpose_ok (order : list dim) (a : DataArray) :
  NoDup order -> NoDup (dims a) -> set_equal order (dims a) ->
  transpose order a
  = inr (mk_DataArray order
           (transpose_nd (map (fun d => index_of d (dims a)) order) (values a))
           (coords a) (attrs a)).
Proof.
  intros Ho Hd Hset. unfold transpose.
  assert (H1 : set_eq order (dims a) = true) by now apply set_eq_spec.
  assert (H2 : nodup_b order = true) by now apply nodup_b_spec.
  assert (H3 : List.length order = List.length (dims a))
    by now apply NoDup_incl_length_eq.
  rewrite H1, H2, H3, Nat.eqb_refl. reflexivity.
Qed.

(** C4.  [_align] raises exactly when the set of the array's axis names
    differs from the set of the expected axes; when the sets are equal it
    returns an array whose axes are the expected axes in their order, with
    the same coordinates and attributes, and whose value at every named
    position is the value of the input at that position. *)
Theorem align_spec (expected : list dim) (assembly : DataArray)
    (Hexp : NoDup expected) (Hdims : NoDup (dims assembly)) :
  (failed (_align expected assembly) <-> ~ set_equal (dims assembly) expected)
  /\ (~ set_equal (dims assembly) expected ->
      _align expected assembly = inl AssertionError)
  /\ (set_equal (dims assembly) expected ->
      exists aligned,
        _align expected assembly = inr aligned
        /\ dims aligned = expected
        /\ shape (values aligned) = map (fun d => size_of d assembly) expected
        /\ coords aligned = coords assembly
        /\ attrs aligned = attrs assembly
        /\ forall env : dim -> nat,
             item (values aligned) (map env expected)
             = item (values assembly) (map env (dims assembly))).
Proof.
  assert (Hbad : ~ set_equal (dims assembly) expected ->
                 _align expected assembly = inl AssertionError).
  { intros Hne. unfold _align.
    destruct (set_eq (dims assembly) expected) eqn:E.
    - exfalso. apply Hne. now apply set_eq_spec.
    - reflexivity. }
  assert (Hgood : set_equal (dims assembly) expected ->
                  _align expected assembly
                  = inr (mk_DataArray expected
                           (transpose_nd
                              (map (fun d => index_of d (dims assembly)) expected)
                              (values assembly))
                           (coords assembly) (attrs assembly))).
  { intros Hset. unfold _align.
    assert (E : set_eq (dims assembly) expected = true) by now apply set_eq_spec.
    rewrite E. simpl. apply transpose_ok; try assumption.
    intros d. symmetry. apply Hset. }
  split; [|split].
  - split.
    + intros [e He] Hset. rewrite (Hgood Hset) in He. discriminate.
    + intros Hne. exists AssertionError. now apply Hbad.
  - exact Hbad.
  - intros Hset. eexists. split; [apply Hgood; assumption|].
    simpl. repeat split.
    + unfold size_of. now rewrite map_map.
    + intros env. apply transpose_values.
      * assumption.
      * intros d. symmetry. apply Hset.
      * symmetry. now apply NoDup_incl_length_eq.
Qed.

Lemma align_spec_witness :
  exists aligned,
    _align presentation_neuroid neuroid_first = inr aligned
    /\ dims aligned = presentation_neuroid
    /\ item (values aligned) [2; 1] = 12%Z.
Proof.
  assert (H1 : NoDup presentation_neuroid) by (apply nodup_b_spec; reflexivity).
  assert (H2 : NoDup (dims neuroid_first)) by (apply nodup_b_spec; reflexivity).
  assert (H3 : set_equal (dims neuroid_first) presentation_neuroid)
    by (apply set_eq_spec; reflexivity).
  destruct (align_spec presentation_neuroid neuroid_first H1 H2) as [_ [_ H]].
  destruct (H H3) as [aligned [Ha [Hd [_ [_ [_ Hv]]]]]].
  exists aligned. split; [exact Ha|]. split; [exact Hd|].
  specialize (Hv (fun d => if String.eqb d "presentation" then 2 else 1)).
  simpl in Hv. exact Hv.
Defined.

(** ** Sorting keeps names and axes *)

Lemma take_coord_cdims (d : dim) (order : list nat) (c : coord) :
  cdims (take_coord d order c) = cdims c /\ cname (take_coord d order c) = cname c.
Proof. unfold take_coord. destruct (mem d (cdims c)); split; reflexivity. Qed.

Lemma take_coord_other (d : dim) (order : list nat) (c : coord) :
  ~ In d (cdims c) -> take_coord d order c = c.
Proof.
  intros H. unfold take_coord. apply mem_false in H. now rewrite H.
Qed.

Lemma sortby1_inv (key : string) (a a' : DataArray) :
  sortby1 key a = inr a' ->
  exists (d : dim) (order : list nat), a' = take_along d order a.
Proof.
  unfold sortby1. destruct (getitem key a) as [e|c]; simpl; [discriminate|].
  destruct (cdims c) as [|d [|d' r]]; try discriminate.
  intros H. injection H as <-. eauto.
Qed.

Lemma sortby_single (key : string) (a : DataArray) :
  sortby [key] a = sortby1 key a.
Proof. reflexivity. Qed.

Lemma align_inv (expected : list dim) (a a' : DataArray) :
  _align expected a = inr a' ->
  dims a' = expected /\ coords a' = coords a /\ attrs a' = attrs a.
Proof.
  unfold _align, transpose.
  destruct (assert_ (set_eq (dims a) expected)) as [e|u]; simpl; [discriminate|].
  destruct (set_eq expected (dims a) && nodup_b expected
            && Nat.eqb (List.length expected) (List.length (dims a)));
    [|discriminate].
  intros H. injection H as <-. auto.
Qed.

(** ** fit: the capture loop *)

Lemma capture_ok_inv (nd : dim) (cs : list coord) :
  forall acc m, capture nd cs acc = inr m ->
  forall c, In c cs -> In nd (cdims c) -> cdims c = [nd].
Proof.
  induction cs as [|c0 rest IH]; simpl; intros acc m H c Hin Hnd; [tauto|].
  destruct (mem nd (cdims c0)) eqn:Em.
  - destruct (array_is_element (cdims c0) nd) eqn:Ea; simpl in H; [|discriminate].
    destruct Hin as [->|Hin].
    + now apply array_is_element_spec.
    + eapply IH; eassumption.
  - destruct Hin as [->|Hin].
    + apply mem_false in Em. contradiction.
    + eapply IH; eassumption.
Qed.


(** what [fit] does, step by step, when it returns *)
Lemma fit_inv {M : Type} (self self' : XarrayRegression M) (source target : DataArray) :
  fit self source target = inr self' ->
  exists s1 t1 s2 t2 model captured,
    _align (_expected_dims self) source = inr s1
    /\ _align (_expected_dims self) target = inr t1
    /\ sortby1 (_stimulus_coord self) s1 = inr s2
    /\ sortby1 (_stimulus_coord self) t1 = inr t2
    /\ reg_fit (_regression self) s2 t2 = inr model
    /\ capture (_neuroid_dim self) (walk_coords t2) [] = inr captured
    /\ self' = mk_XarrayRegression (_regression self) (Some model)
                 (_expected_dims self) (_neuroid_dim self) (_neuroid_coord self)
                 (_stimulus_coord self) (Some captured).
Proof.
  unfold fit.
  destruct (_align (_expected_dims self) source) as [e|s1]; simpl; [discriminate|].
  destruct (_align (_expected_dims self) target) as [e|t1]; simpl; [discriminate|].
  destruct (sortby1 (_stimulus_coord self) s1) as [e|s2] eqn:Es; simpl; [discriminate|].
  destruct (sortby1 (_stimulus_coord self) t1) as [e|t2] eqn:Et; simpl; [discriminate|].
  destruct (reg_fit (_regression self) s2 t2) as [e|model] eqn:Er; simpl;
    [discriminate|].
  destruct (capture (_neuroid_dim self) (walk_coords t2) []) as [e|captured]
    eqn:Ec; simpl; [discriminate|].
  intros H. injection H as <-.
  exists s1, t1, s2, t2, model, captured.
  repeat split; first [reflexivity | assumption].
Qed.




Lemma align_ok (expected : list dim) (a : DataArray) :
  NoDup expected -> NoDup (dims a) -> set_equal (dims a) expected ->
  _align expected a
  = inr (mk_DataArray expected
           (transpose_nd (map (fun d => index_of d (dims a)) expected) (values a))
           (coords a) (attrs a)).
Proof.
  intros He Hd Hs. unfold _align.
  assert (H : set_eq (dims a) expected = true) by now apply set_eq_spec.
  rewrite H. simpl. apply transpose_ok; [exact He | exact Hd|].
  intros x. symmetry. apply Hs.
Qed.

Lemma align_mismatch (expected : list dim) (a : DataArray) :
  ~ set_equal (dims a) expected -> _align expected a = inl AssertionError.
Proof.
  intros Hn. unfold _align.
  destruct (set_eq (dims a) expected) eqn:E; [|reflexivity].
  apply set_eq_spec in E. contradiction.
Qed.

(** C8 (amended).  [predict] on an adapter on which [fit] was never called
    raises, whatever the source is, but there is no check of its own for
    this and no error of its own: after the axis check ([AssertionError]
    for another set of axes) the wrapped regression is asked to predict
    with no model, and what it raises is what [predict] raises; when it
    returns values, [predict] raises [TypeError] on the length of the
    missing capture.  A source with the expected axes passes the axis
    check. *)
Theorem predict_before_fit_fails {M : Type} (regression : Regression M)
    (expected_dims : list dim) (neuroid_dim : dim)
    (neuroid_coord stimulus_coord : string) (source : DataArray) :
  failed (predict (init regression expected_dims neuroid_dim neuroid_coord
                        stimulus_coord) source)
  /\ (~ set_equal (dims source) expected_dims ->
      predict (init regression expected_dims neuroid_dim neuroid_coord
                    stimulus_coord) source = inl AssertionError)
  /\ (NoDup expected_dims -> NoDup (dims source) ->
      set_equal (dims source) expected_dims ->
      exists s, _align expected_dims source = inr s /\ dims s = expected_dims)
  /\ (forall s e,
        _align expected_dims source = inr s ->
        reg_predict regression None s = inl e ->
        predict (init regression expected_dims neuroid_dim neuroid_coord
                      stimulus_coord) source = inl e)
  /\ (forall s pv,
        _align expected_dims source = inr s ->
        reg_predict regression None s = inr pv ->
        predict (init regression expected_dims neuroid_dim neuroid_coord
                      stimulus_coord) source = inl TypeError).
Proof.
  unfold predict, init. simpl.
  split; [|split; [|split; [|split]]].
  - destruct (_align expected_dims source) as [e|s]; simpl; [now exists e|].
    destruct (reg_predict regression None s) as [e|v]; simpl;
      [now exists e | now exists TypeError].
  - intros Hn. now rewrite (align_mismatch _ _ Hn).
  - intros He Hd Hs. rewrite (align_ok _ _ He Hd Hs). eexists.
    split; reflexivity.
  - intros s e Ha Hp. rewrite Ha. simpl. now rewrite Hp.
  - intros s pv Ha Hp. rewrite Ha. simpl. now rewrite Hp.
Qed.

(** C8, as stated, fails: on an adapter that was never fitted [predict]
    raises [TypeError] when the wrapped regression returns values for a
    missing model, and the exception of the regression when that raises. *)
Lemma predict_before_fit_counterexample :
  set_equal (dims source_plain) presentation_neuroid
  /\ predict toy_adapter source_plain = inl TypeError
  /\ predict (init strict_regression presentation_neuroid "neuroid"
                   "neuroid_id" "stimulus_id") source_plain
     = inl StrategyError.
Proof.
  split; [apply set_eq_spec; reflexivity|]. split; reflexivity.
Qed.

(** ** Dicts *)

Lemma dict_get_set (k k' : string) (v : ndarray) (m : list (string * ndarray)) :
  dict_get k (dict_set k' v m) = if String.eqb k k' then Some v else dict_get k m.
Proof.
  induction m as [|[k0 v0] rest IH]; simpl.
  - reflexivity.
  - destruct (String.eqb_spec k' k0) as [->|Hne]; simpl.
    + destruct (String.eqb k k0); reflexivity.
    + rewrite IH. destruct (String.eqb_spec k k0) as [->|Hne'].
      * destruct (String.eqb_spec k0 k'); [congruence | reflexivity].
      * reflexivity.
Qed.

Lemma coords_get_set (k : string) (c : coord) (cs : list coord) :
  coords_get k (coords_set c cs)
  = if String.eqb k (cname c) then Some c else coords_get k cs.
Proof.
  induction cs as [|c0 rest IH]; simpl.
  - reflexivity.
  - destruct (String.eqb_spec (cname c) (cname c0)) as [He|Hne]; simpl.
    + rewrite He. destruct (String.eqb k (cname c0)); reflexivity.
    + rewrite IH. destruct (String.eqb_spec k (cname c0)) as [->|Hne'].
      * destruct (String.eqb_spec (cname c0) (cname c)); [congruence | reflexivity].
      * reflexivity.
Qed.

Lemma coords_get_In (k : string) (cs : list coord) (c : coord) :
  coords_get k cs = Some c -> In c cs /\ cname c = k.
Proof.
  induction cs as [|c0 rest IH]; simpl; [discriminate|].
  destruct (String.eqb_spec k (cname c0)) as [->|Hne].
  - intros H. injection H as <-. auto.
  - intros H. destruct (IH H). auto.
Qed.

Lemma coords_get_None (k : string) (cs : list coord) :
  ~ In k (map cname cs) -> coords_get k cs = None.
Proof.
  induction cs as [|c0 rest IH]; simpl; [reflexivity|].
  intros H. destruct (String.eqb_spec k (cname c0)) as [->|Hne].
  - exfalso. apply H. now left.
  - apply IH. intros Hin. apply H. now right.
Qed.

Lemma coords_get_map (f : coord -> coord) (k : string) (cs : list coord) :
  (forall c, cname (f c) = cname c) ->
  coords_get k (map f cs) = option_map f (coords_get k cs).
Proof.
  intros Hf. induction cs as [|c0 rest IH]; simpl; [reflexivity|].
  rewrite Hf. destruct (String.eqb k (cname c0)); [reflexivity | exact IH].
Qed.

Lemma In_fold_coords_set (l : list coord) :
  forall acc c, In c (fold_left (fun cs x => coords_set x cs) l acc) ->
                In c l \/ In c acc.
Proof.
  assert (Hset : forall x cs c, In c (coords_set x cs) -> c = x \/ In c cs).
  { intros x cs. induction cs as [|c0 rest IH]; simpl; intros c H.
    - destruct H as [<-|[]]. now left.
    - destruct (String.eqb (cname x) (cname c0)); simpl in H.
      + destruct H as [<-|H]; auto.
      + destruct H as [<-|H]; auto. destruct (IH _ H); auto. }
  induction l as [|x r IH]; simpl; intros acc c H; [now right|].
  destruct (IH _ _ H) as [H1|H1]; [now left; right|].
  destruct (Hset _ _ _ H1) as [->|H2]; [now left; left | now right].
Qed.

Lemma dict_get_None (k : string) (m : list (string * ndarray)) :
  ~ In k (map fst m) -> dict_get k m = None.
Proof.
  induction m as [|[k0 v0] rest IH]; simpl; [reflexivity|].
  intros H. destruct (String.eqb_spec k k0) as [->|Hne].
  - exfalso. apply H. now left.
  - apply IH. intros Hin. apply H. now right.
Qed.

Lemma dict_set_keys (k : string) (v : ndarray) (m : list (string * ndarray)) :
  forall x, In x (map fst (dict_set k v m)) -> x = k \/ In x (map fst m).
Proof.
  induction m as [|[k0 v0] rest IH]; simpl; intros x H.
  - destruct H as [<-|[]]. now left.
  - destruct (String.eqb_spec k k0) as [->|Hne]; simpl in H.
    + destruct H as [<-|H]; auto.
    + destruct H as [<-|H]; auto. destruct (IH _ H); auto.
Qed.

Lemma dict_set_nodup (k : string) (v : ndarray) (m : list (string * ndarray)) :
  NoDup (map fst m) -> NoDup (map fst (dict_set k v m)).
Proof.
  induction m as [|[k0 v0] rest IH]; simpl; intros H.
  - constructor; [simpl; tauto | constructor].
  - inversion H as [|? ? Hnin Hnd]; subst.
    destruct (String.eqb_spec k k0) as [->|Hne]; simpl.
    + now constructor.
    + constructor; [|now apply IH].
      intros Hin. apply dict_set_keys in Hin. destruct Hin; [congruence | contradiction].
Qed.

Lemma capture_nodup (nd : dim) (cs : list coord) :
  forall acc m, NoDup (map fst acc) -> capture nd cs acc = inr m ->
                NoDup (map fst m).
Proof.
  induction cs as [|c0 rest IH]; simpl; intros acc m Hacc H.
  - injection H as <-. assumption.
  - destruct (mem nd (cdims c0)).
    + destruct (assert_ (array_is_element (cdims c0) nd)); simpl in H;
        [discriminate|].
      eapply IH; [|exact H]. now apply dict_set_nodup.
    + eapply IH; eassumption.
Qed.

Lemma capture_lookup (nd : dim) (cs : list coord) :
  NoDup (map cname cs) ->
  forall acc m, capture nd cs acc = inr m ->
  forall k, dict_get k m
            = match coords_get k cs with
              | Some c => if mem nd (cdims c) then Some (cvalues c)
                          else dict_get k acc
              | None => dict_get k acc
              end.
Proof.
  induction cs as [|c0 rest IH]; simpl; intros Hnd acc m H k.
  - injection H as <-. reflexivity.
  - inversion Hnd as [|? ? Hnin Hnd']; subst.
    destruct (String.eqb_spec k (cname c0)) as [->|Hne].
    + destruct (mem nd (cdims c0)).
      * destruct (assert_ (array_is_element (cdims c0) nd)); simpl in H;
          [discriminate|].
        rewrite (IH Hnd' _ _ H), (coords_get_None _ _ Hnin), dict_get_set.
        now rewrite String.eqb_refl.
      * rewrite (IH Hnd' _ _ H), (coords_get_None _ _ Hnin). reflexivity.
    + destruct (mem nd (cdims c0)).
      * destruct (assert_ (array_is_element (cdims c0) nd)); simpl in H;
          [discriminate|].
        rewrite (IH Hnd' _ _ H), dict_get_set.
        destruct (String.eqb_spec k (cname c0)); [congruence|]. reflexivity.
      * apply (IH Hnd' _ _ H).
Qed.

(** the capture of [fit] holds the labels of the coordinates on the neuroid
    axis *)
Lemma capture_axis_labels (nd : dim) (t : DataArray) (m : list (string * ndarray)) :
  unique_names t -> capture nd (walk_coords t) [] = inr m ->
  forall k, dict_get k m = axis_labels nd t k.
Proof.
  intros Hu Hc k. unfold axis_labels.
  rewrite (capture_lookup nd _ Hu _ _ Hc). simpl.
  destruct (coords_get k (coords t)) as [c|] eqn:E; [|reflexivity].
  apply coords_get_In in E. destruct E as [Hin _].
  destruct (mem nd (cdims c)) eqn:Em.
  - apply mem_In in Em.
    rewrite (capture_ok_inv nd _ _ _ Hc c Hin Em). now rewrite list_eqb_refl.
  - destruct (list_eqb (cdims c) [nd]) eqn:El; [|reflexivity].
    apply list_eqb_eq in El. rewrite El in Em. simpl in Em.
    now rewrite String.eqb_refl in Em.
Qed.

Lemma fold_set_lookup (d : dim) (tv : list (string * ndarray)) :
  NoDup (map fst tv) ->
  forall cs0 k,
    coords_get k
      (fold_left (fun cs kv => coords_set (mk_coord (fst kv) [d] (snd kv)) cs)
                 tv cs0)
    = match dict_get k tv with
      | Some v => Some (mk_coord k [d] v)
      | None => coords_get k cs0
      end.
Proof.
  induction tv as [|[k1 v1] r IH]; simpl; intros Hnd cs0 k; [reflexivity|].
  inversion Hnd as [|? ? Hnin Hnd']; subst.
  rewrite (IH Hnd'), coords_get_set. simpl.
  destruct (String.eqb_spec k k1) as [->|Hne].
  - now rewrite (dict_get_None _ _ Hnin).
  - reflexivity.
Qed.

(** ** _package_prediction *)

Lemma new_DataArray_inv (v : ndarray) (cs : list coord) (ds : list dim) (p : DataArray) :
  new_DataArray v cs ds = inr p ->
  p = mk_DataArray ds v cs attrs_nil
  /\ forallb (coord_fits ds (shape v)) cs = true.
Proof.
  unfold new_DataArray.
  destruct (Nat.eqb (List.length (shape v)) (List.length ds)); simpl; [|discriminate].
  destruct (forallb (coord_fits ds (shape v)) cs); [|discriminate].
  intros H. injection H as <-. auto.
Qed.

Lemma source_coords_lookup (nd : dim) (s : DataArray) (k : string) (c : coord) :
  coords_get k (source_coords nd s) = Some c ->
  In c (coords s) /\ cdims c <> [nd].
Proof.
  intros H. apply coords_get_In in H. destruct H as [Hin _].
  unfold source_coords in Hin. apply In_fold_coords_set in Hin.
  destruct Hin as [Hin|[]].
  apply filter_In in Hin. destruct Hin as [Hin Hf]. split; [exact Hin|].
  intros He. apply array_is_element_spec in He. rewrite He in Hf. discriminate.
Qed.

(** ** the constructor of an assembly *)

Lemma level_0_fresh (d : dim) : level_0 d <> d.
Proof.
  unfold level_0. induction d as [|a d IH]; simpl; [discriminate|].
  intros H. injection H as H. now apply IH.
Qed.

Lemma coords_get_unique (cs : list coord) (c : coord) :
  NoDup (map cname cs) -> In c cs -> coords_get (cname c) cs = Some c.
Proof.
  induction cs as [|c0 rest IH]; simpl; intros Hnd Hin; [contradiction|].
  inversion Hnd as [|? ? Hnin Hnd']; subst.
  destruct Hin as [->|Hin].
  - now rewrite String.eqb_refl.
  - destruct (String.eqb_spec (cname c) (cname c0)) as [He|Hne].
    + exfalso. apply Hnin. rewrite <- He. now apply in_map.
    + now apply IH.
Qed.

Lemma coords_set_names (c : coord) (cs : list coord) :
  NoDup (map cname cs) -> NoDup (map cname (coords_set c cs))
  /\ forall x, In x (map cname (coords_set c cs)) -> x = cname c \/ In x (map cname cs).
Proof.
  induction cs as [|c0 rest IH]; simpl; intros Hnd.
  - split; [constructor; [intros []|constructor]|]. intros x [<-|[]]. now left.
  - inversion Hnd as [|? ? Hnin Hnd']; subst.
    destruct (String.eqb_spec (cname c) (cname c0)) as [He|Hne]; simpl.
    + split.
      * constructor; [now rewrite He | assumption].
      * intros x [<-|H]; auto.
    + destruct (IH Hnd') as [IH1 IH2]. split.
      * constructor; [|assumption]. intros H. destruct (IH2 _ H); congruence.
      * intros x [<-|H]; auto. destruct (IH2 _ H); auto.
Qed.

Lemma fold_coords_set_nodup {A : Type} (f : A -> coord) (l : list A) :
  forall acc, NoDup (map cname acc) ->
    NoDup (map cname (fold_left (fun cs x => coords_set (f x) cs) l acc)).
Proof.
  induction l as [|x r IH]; simpl; intros acc H; [assumption|].
  apply IH. now apply coords_set_names.
Qed.

Lemma source_coords_nodup (nd : dim) (s : DataArray) :
  NoDup (map cname (source_coords nd s)).
Proof.
  unfold source_coords.
  apply (fold_coords_set_nodup (fun c => c)). constructor.
Qed.

Lemma labels_in_Some (x : dim) (cs : list coord) (k : string) (v : ndarray) :
  labels_in x cs k = Some v ->
  exists c, In c cs /\ cname c = k /\ cdims c = [x] /\ cvalues c = v.
Proof.
  unfold labels_in. destruct (coords_get k cs) as [c|] eqn:E; [|discriminate].
  destruct (list_eqb (cdims c) [x]) eqn:El; [|discriminate].
  intros H. injection H as <-. apply coords_get_In in E. destruct E.
  apply list_eqb_eq in El. exists c. auto.
Qed.

Lemma labels_in_unique (x : dim) (cs : list coord) (c : coord) :
  NoDup (map cname cs) -> In c cs -> cdims c = [x] ->
  labels_in x cs (cname c) = Some (cvalues c).
Proof.
  intros Hnd Hin Hd. unfold labels_in.
  rewrite (coords_get_unique _ _ Hnd Hin), Hd. now rewrite list_eqb_refl.
Qed.

Lemma rename_labels (x n : dim) (p : coord -> bool) (g : coord -> coord)
    (cs : list coord) :
  NoDup (map cname cs) ->
  (forall c, p c = true -> cdims c <> [x]) ->
  (forall c, cname (g c) = n /\ cdims (g c) <> [x]) ->
  ~ In n (map cname cs) ->
  forall k, labels_in x (map (fun c => if p c then g c else c) cs) k
            = labels_in x cs k.
Proof.
  intros Hnd Hp Hg Hn k. unfold labels_in.
  induction cs as [|c rest IH]; simpl; [reflexivity|].
  inversion Hnd as [|? ? Hnin Hnd']; subst.
  assert (Hn' : ~ In n (map cname rest)) by (intros H; apply Hn; now right).
  assert (Hnc : n <> cname c) by (intros H; apply Hn; now left).
  specialize (IH Hnd' Hn').
  destruct (p c) eqn:Epc.
  - destruct (Hg c) as [Hgn Hgd]. rewrite Hgn.
    destruct (String.eqb_spec k n) as [->|Hkn].
    + destruct (list_eqb (cdims (g c)) [x]) eqn:El;
        [apply list_eqb_eq in El; contradiction|].
      destruct (String.eqb_spec n (cname c)); [contradiction|].
      now rewrite (coords_get_None _ _ Hn').
    + rewrite IH. destruct (String.eqb_spec k (cname c)) as [->|Hkc];
        [|reflexivity].
      rewrite (coords_get_None _ _ Hnin).
      destruct (list_eqb (cdims c) [x]) eqn:El; [|reflexivity].
      apply list_eqb_eq in El. now elim (Hp c Epc).
  - destruct (String.eqb k (cname c)); [reflexivity | exact IH].
Qed.

Lemma rename_none (p : coord -> bool) (g : coord -> coord) (cs : list coord) :
  filter p cs = [] -> map (fun c => if p c then g c else c) cs = cs.
Proof.
  induction cs as [|c rest IH]; simpl; [reflexivity|].
  destruct (p c); [discriminate|]. intros H. now rewrite IH.
Qed.

Lemma rename_names (n : dim) (p : coord -> bool) (g : coord -> coord)
    (cs : list coord) :
  (forall c, cname (g c) = n) ->
  forall y, In y (map cname (map (fun c => if p c then g c else c) cs)) ->
            y = n \/ In y (map cname cs).
Proof.
  intros Hg. induction cs as [|c rest IH]; simpl; intros y H; [contradiction|].
  destruct H as [H|H].
  - destruct (p c); [left; now rewrite <- H, Hg | right; now left].
  - destruct (IH y H); auto.
Qed.

Lemma rename_nodup (n : dim) (p : coord -> bool) (g : coord -> coord)
    (cs : list coord) :
  NoDup (map cname cs) ->
  (forall c, cname (g c) = n) ->
  ~ In n (map cname cs) ->
  (List.length (filter p cs) <= 1)%nat ->
  NoDup (map cname (map (fun c => if p c then g c else c) cs)).
Proof.
  intros Hnd Hg. induction cs as [|c rest IH]; simpl; intros Hn Hlen;
    [constructor|].
  inversion Hnd as [|? ? Hnin Hnd']; subst.
  assert (Hn' : ~ In n (map cname rest)) by (intros H; apply Hn; now right).
  destruct (p c) eqn:Epc.
  - simpl in Hlen.
    assert (Hf : filter p rest = [])
      by (destruct (filter p rest); [reflexivity | simpl in Hlen; lia]).
    rewrite (rename_none p g rest Hf), Hg. now constructor.
  - constructor.
    + intros H. destruct (rename_names n p g rest Hg _ H) as [He|Hin].
      * apply Hn. now left.
      * contradiction.
    + now apply IH.
Qed.

Lemma filter_name_once (q : coord -> bool) (d : dim) (cs : list coord) :
  NoDup (map cname cs) ->
  (List.length (filter (fun c => String.eqb (cname c) d && q c) cs) <= 1)%nat.
Proof.
  induction cs as [|c rest IH]; simpl; intros Hnd; [lia|].
  inversion Hnd as [|? ? Hnin Hnd']; subst.
  destruct (String.eqb_spec (cname c) d) as [He|Hne]; simpl; [|now apply IH].
  destruct (q c); [|now apply IH]. simpl.
  assert (Hf : filter (fun c0 => String.eqb (cname c0) d && q c0) rest = []).
  { destruct (filter _ rest) as [|c1 r1] eqn:Ef; [reflexivity|].
    assert (H1 : In c1 (c1 :: r1)) by now left.
    rewrite <- Ef in H1. apply filter_In in H1. destruct H1 as [Hin Hq].
    apply andb_true_iff in Hq. destruct Hq as [Hq _].
    apply String.eqb_eq in Hq. exfalso. apply Hnin. rewrite He, <- Hq.
    now apply in_map. }
  rewrite Hf. simpl. lia.
Qed.

Lemma on_axis_alone_spec (d : dim) (c : coord) :
  on_axis_alone d c = true <-> cdims c = [d] /\ cname c <> d.
Proof.
  unfold on_axis_alone. rewrite andb_true_iff, list_eqb_eq, negb_true_iff.
  split; intros [H1 H2]; split; auto.
  - intros He. rewrite He, String.eqb_refl in H2. discriminate.
  - now apply String.eqb_neq.
Qed.

(** gathering the indexes of one axis leaves the coordinates of another
    axis alone *)
Lemma gather_dim_other (x d : dim) (cs cs' : list coord) :
  d <> x -> NoDup (map cname cs) ->
  gather_dim d cs = inr cs' ->
  NoDup (map cname cs')
  /\ forall k, labels_in x cs' k = labels_in x cs k.
Proof.
  intros Hdx Hnd. unfold gather_dim.
  destruct (filter (on_axis_alone d) cs) as [|lone more] eqn:Ef.
  { intros H. injection H as <-. auto. }
  destruct (has_index d cs) eqn:Ei.
  - destruct (mem (level_0 d) (map cname cs)) eqn:Em; [discriminate|].
    apply mem_false in Em. intros H. injection H as <-. split.
    + apply (rename_nodup (level_0 d)
               (fun c => String.eqb (cname c) d && list_eqb (cdims c) [d])
               (fun c => mk_coord (level_0 d) [d] (cvalues c)));
        auto using filter_name_once.
    + apply (rename_labels x (level_0 d)
               (fun c => String.eqb (cname c) d && list_eqb (cdims c) [d])
               (fun c => mk_coord (level_0 d) [d] (cvalues c))); auto.
      * intros c Hc. apply andb_true_iff in Hc. destruct Hc as [_ Hc].
        apply list_eqb_eq in Hc. rewrite Hc. congruence.
      * intros c. simpl. split; [reflexivity | congruence].
  - destruct more as [|c2 more].
    + destruct (mem d (map cname cs)) eqn:Em; [discriminate|].
      apply mem_false in Em. intros H. injection H as <-. split.
      * apply (rename_nodup d (on_axis_alone d)
                 (fun c => mk_coord d [d] (cvalues c))); auto.
        rewrite Ef. simpl. lia.
      * apply (rename_labels x d (on_axis_alone d)
                 (fun c => mk_coord d [d] (cvalues c))); auto.
        -- intros c Hc. apply on_axis_alone_spec in Hc. destruct Hc as [Hc _].
           rewrite Hc. congruence.
        -- intros c. simpl. split; [reflexivity | congruence].
    + intros H. injection H as <-. auto.
Qed.

(** an axis whose only coordinate is its index, or that has none, is left
    as it is *)
Lemma gather_dim_nothing (x : dim) (cs : list coord) :
  NoDup (map cname cs) ->
  (forall k, k <> x -> labels_in x cs k = None) ->
  gather_dim x cs = inr cs.
Proof.
  intros Hnd Hno. unfold gather_dim.
  destruct (filter (on_axis_alone x) cs) as [|c more] eqn:Ef; [reflexivity|].
  assert (H1 : In c (c :: more)) by now left.
  rewrite <- Ef in H1. apply filter_In in H1. destruct H1 as [Hin Hc].
  apply on_axis_alone_spec in Hc. destruct Hc as [Hcd Hcn].
  pose proof (labels_in_unique x cs c Hnd Hin Hcd) as H.
  rewrite (Hno _ Hcn) in H. discriminate.
Qed.

(** several coordinates on an axis without index keep their names *)
Lemma gather_dim_several (x : dim) (cs : list coord) (k1 k2 : string) :
  NoDup (map cname cs) ->
  labels_in x cs x = None ->
  k1 <> k2 -> labels_in x cs k1 <> None -> labels_in x cs k2 <> None ->
  gather_dim x cs = inr cs.
Proof.
  intros Hnd Hx Hk H1 H2. unfold gather_dim.
  assert (Hi : has_index x cs = false).
  { destruct (has_index x cs) eqn:Ei; [|reflexivity].
    unfold has_index in Ei. apply existsb_exists in Ei.
    destruct Ei as (c & Hin & Hc). apply andb_true_iff in Hc.
    destruct Hc as [Hn Hd]. apply String.eqb_eq in Hn.
    apply list_eqb_eq in Hd.
    pose proof (labels_in_unique x cs c Hnd Hin Hd) as H.
    rewrite Hn, Hx in H. discriminate. }
  rewrite Hi.
  assert (Hin : forall k, labels_in x cs k <> None ->
                  exists c, In c (filter (on_axis_alone x) cs) /\ cname c = k).
  { intros k Hl. destruct (labels_in x cs k) as [v|] eqn:El; [|congruence].
    pose proof El as El0.
    apply labels_in_Some in El. destruct El as (c & Hc & Hn & Hd & _).
    exists c. split; [|exact Hn]. apply filter_In. split; [exact Hc|].
    apply on_axis_alone_spec. split; [exact Hd|].
    intros He. rewrite <- Hn, He, Hx in El0. discriminate. }
  destruct (Hin _ H1) as (c1 & Hc1 & Hn1).
  destruct (Hin _ H2) as (c2 & Hc2 & Hn2).
  destruct (filter (on_axis_alone x) cs) as [|a [|b more]]; try reflexivity.
  destruct Hc1 as [<-|[]]. destruct Hc2 as [<-|[]]. congruence.
Qed.

Lemma gather_dim_settled (x : dim) (cs : list coord) :
  NoDup (map cname cs) -> settled x cs -> gather_dim x cs = inr cs.
Proof.
  intros Hnd [Hs|(Hx & k1 & k2 & Hk & H1 & H2)].
  - now apply gather_dim_nothing.
  - now apply (gather_dim_several x cs k1 k2).
Qed.

Lemma settled_ext (x : dim) (cs cs' : list coord) :
  (forall k, labels_in x cs' k = None <-> labels_in x cs k = None) ->
  settled x cs -> settled x cs'.
Proof.
  intros He [Hs|(Hx & k1 & k2 & Hk & H1 & H2)]; [left|right].
  - intros k Hk. apply He. now apply Hs.
  - split; [now apply He|]. exists k1, k2. split; [exact Hk|].
    split; intros H; apply He in H; contradiction.
Qed.

Lemma labels_in_filter (x : dim) (cs : list coord) (k : string) :
  NoDup (map cname cs) ->
  labels_in x (filter (fun c => list_eqb (cdims c) [x]) cs) k = labels_in x cs k.
Proof.
  unfold labels_in. induction cs as [|c rest IH]; simpl; intros Hnd;
    [reflexivity|].
  inversion Hnd as [|? ? Hnin Hnd']; subst. specialize (IH Hnd').
  destruct (list_eqb (cdims c) [x]) eqn:El; simpl.
  - destruct (String.eqb k (cname c)); [reflexivity | exact IH].
  - rewrite IH. destruct (String.eqb_spec k (cname c)) as [->|Hne];
      [|reflexivity].
    rewrite (coords_get_None _ _ Hnin). now rewrite El.
Qed.

Lemma gather_dims_labels (x : dim) (ds : list dim) :
  forall cs cs', NoDup (map cname cs) -> settled x cs ->
    gather_dims ds cs = inr cs' ->
    NoDup (map cname cs')
    /\ forall k, labels_in x cs' k = labels_in x cs k.
Proof.
  induction ds as [|d rest IH]; simpl; intros cs cs' Hnd Hs H.
  - injection H as <-. auto.
  - destruct (gather_dim d cs) as [e|cs1] eqn:E1; simpl in H; [discriminate|].
    destruct (String.eqb_spec d x) as [->|Hdx].
    + assert (E : gather_dim x cs = inr cs) by now apply gather_dim_settled.
      rewrite E in E1. injection E1 as <-. now apply IH.
    + destruct (gather_dim_other x d cs cs1 Hdx Hnd E1) as [Hnd1 Hl1].
      assert (Hs1 : settled x cs1).
      { destruct Hs as [Hs|(Hx & k1 & k2 & Hk & H1 & H2)]; [left|right].
        - intros k Hk. rewrite Hl1. now apply Hs.
        - rewrite !Hl1. split; [exact Hx|]. exists k1, k2.
          rewrite !Hl1. auto. }
      destruct (IH cs1 cs' Hnd1 Hs1 H) as [Hnd' Hl']. split; [exact Hnd'|].
      intros k. now rewrite Hl', Hl1.
Qed.

Lemma new_Assembly_shape (v : ndarray) (cs : list coord) (ds : list dim)
    (p : DataArray) :
  new_Assembly v cs ds = inr p -> List.length (shape v) = List.length ds.
Proof.
  unfold new_Assembly, new_DataArray.
  destruct (Nat.eqb (List.length (shape v)) (List.length ds)) eqn:E;
    simpl; [|discriminate].
  intros _. now apply Nat.eqb_eq.
Qed.

Lemma new_Assembly_inv (v : ndarray) (cs : list coord) (ds : list dim)
    (p : DataArray) :
  new_Assembly v cs ds = inr p ->
  exists cs',
    gather_dims ds cs = inr cs'
    /\ p = mk_DataArray ds v cs' attrs_nil
    /\ forallb (coord_fits ds (shape v)) cs = true.
Proof.
  unfold new_Assembly.
  destruct (new_DataArray v cs ds) as [e|a] eqn:Ea; simpl; [discriminate|].
  apply new_DataArray_inv in Ea. destruct Ea as [-> Hfit].
  unfold gather_indexes. simpl.
  destruct (gather_dims ds cs) as [e|cs'] eqn:Eg; simpl; [discriminate|].
  intros H. injection H as <-. exists cs'. auto.
Qed.


Lemma plain_package_labels (nd : dim) (s : DataArray) (ds : list dim)
    (pv : ndarray) (tv : list (string * ndarray)) (k : string) :
  NoDup (map fst tv) ->
  axis_labels nd
    (mk_DataArray ds pv
       (fold_left (fun cs kv => coords_set (mk_coord (fst kv) [nd] (snd kv)) cs)
                  tv (source_coords nd s))
       attrs_nil) k
  = dict_get k tv.
Proof.
  intros Hnd. unfold axis_labels. simpl. rewrite (fold_set_lookup nd tv Hnd).
  destruct (dict_get k tv) as [v|]; simpl.
  - now rewrite list_eqb_refl.
  - destruct (coords_get k (source_coords nd s)) as [c|] eqn:E; [|reflexivity].
    apply source_coords_lookup in E. destruct E as [_ Hne].
    destruct (list_eqb (cdims c) [nd]) eqn:El; [|reflexivity].
    apply list_eqb_eq in El. contradiction.
Qed.

Lemma stack_coord_cname (nd k0 : dim) (c : coord) :
  cname (stack_coord nd k0 c) = cname c.
Proof.
  unfold stack_coord.
  destruct (list_eqb (cdims c) [k0]); [reflexivity|].
  destruct (mem k0 (cdims c)); reflexivity.
Qed.

Lemma stack_coord_other (nd k0 : dim) (c : coord) :
  ~ In k0 (cdims c) -> stack_coord nd k0 c = c.
Proof.
  intros H. unfold stack_coord.
  destruct (list_eqb (cdims c) [k0]) eqn:El.
  - apply list_eqb_eq in El. exfalso. apply H. rewrite El. now left.
  - apply mem_false in H. now rewrite H.
Qed.

Lemma stack_inv (nd k0 : dim) (a p : DataArray) :
  stack nd k0 a = inr p ->
  mem k0 (dims a) = true /\ mem nd (dims a) = false
  /\ dims p = remove_nth (index_of k0 (dims a)) (dims a) ++ [nd]
  /\ coords p = map (stack_coord nd k0) (coords a).
Proof.
  unfold stack.
  destruct (mem k0 (dims a)); simpl; [|discriminate].
  destruct (mem nd (dims a)); simpl; [discriminate|].
  intros H. injection H as <-. simpl. auto.
Qed.

Lemma mem_rename_self (nd : dim) (ds : list dim) :
  mem nd (map (fun d => if negb (String.eqb d nd) then d else nd) ds) = mem nd ds.
Proof.
  induction ds as [|x r IH]; simpl; [reflexivity|].
  rewrite IH. destruct (String.eqb_spec x nd) as [->|Hne]; simpl.
  - now rewrite String.eqb_refl.
  - reflexivity.
Qed.

Lemma remove_level_nonempty (level : dim) (l : list dim) :
  mem level l = true -> l <> [level] ->
  remove_nth (index_of level l) l <> [].
Proof.
  destruct l as [|x r]; simpl; [discriminate|].
  intros _ Hne. destruct (String.eqb_spec level x) as [->|Hx]; simpl.
  - intros ->. now apply Hne.
  - destruct (String.eqb x level); discriminate.
Qed.

Lemma stack_coord_level (nd k0 : dim) (c : coord) :
  cdims c = [k0] -> stack_coord nd k0 c = mk_coord (cname c) [nd] (cvalues c).
Proof.
  intros H. unfold stack_coord. now rewrite H, list_eqb_refl.
Qed.

Lemma stack_coord_axis (nd k0 : dim) (c : coord) :
  cdims c <> [k0] -> cdims c <> [nd] -> cdims (stack_coord nd k0 c) <> [nd].
Proof.
  intros Hk Hn. unfold stack_coord.
  destruct (list_eqb (cdims c) [k0]) eqn:El;
    [apply list_eqb_eq in El; contradiction|].
  destruct (mem k0 (cdims c)) eqn:Em; [|exact Hn]. simpl.
  pose proof (remove_level_nonempty k0 (cdims c) Em Hk) as Hr.
  destruct (remove_nth (index_of k0 (cdims c)) (cdims c)) as [|y [|z r]];
    simpl; congruence.
Qed.

Lemma package_coords_lookup (nd d : dim) (s : DataArray)
    (tv : list (string * ndarray)) (k : string) :
  NoDup (map fst tv) ->
  labels_in nd
    (fold_left (fun cs kv => coords_set (mk_coord (fst kv) [d] (snd kv)) cs)
               tv (source_coords nd s)) k
  = if String.eqb d nd then dict_get k tv else None.
Proof.
  intros Hnd. unfold labels_in. rewrite (fold_set_lookup d tv Hnd).
  destruct (dict_get k tv) as [v|]; simpl.
  - destruct (String.eqb_spec d nd) as [->|Hne].
    + now rewrite list_eqb_refl.
    + destruct (list_eqb [d] [nd]) eqn:El; [|reflexivity].
      apply list_eqb_eq in El. congruence.
  - destruct (coords_get k (source_coords nd s)) as [c|] eqn:E;
      [|now destruct (String.eqb d nd)].
    apply source_coords_lookup in E. destruct E as [_ Hne].
    destruct (list_eqb (cdims c) [nd]) eqn:El;
      [apply list_eqb_eq in El; contradiction|].
    now destruct (String.eqb d nd).
Qed.

Lemma settled_capture (nd : dim) (cs : list coord)
    (tv : list (string * ndarray)) :
  NoDup (map fst tv) ->
  (forall k, labels_in nd cs k = dict_get k tv) ->
  match tv with
  | [] => True
  | [(k0, _)] => k0 = nd
  | _ => dict_get nd tv = None
  end ->
  settled nd cs.
Proof.
  intros Hnd Hl Hn.
  destruct tv as [|[k0 v0] [|[k1 v1] rest]].
  - left. intros k _. now rewrite Hl.
  - left. intros k Hk. rewrite Hl. simpl. subst k0.
    destruct (String.eqb_spec k nd); [contradiction | reflexivity].
  - right. rewrite Hl. split; [exact Hn|]. exists k0, k1. rewrite !Hl.
    inversion Hnd as [|? ? Hnin _]; subst.
    assert (Hk : k0 <> k1) by (intros ->; apply Hnin; now left).
    split; [exact Hk|]. simpl. rewrite String.eqb_refl.
    destruct (String.eqb_spec k1 k0); [congruence|].
    rewrite String.eqb_refl. split; discriminate.
Qed.

Lemma package_labels {M : Type} (self : XarrayRegression M)
    (tv : list (string * ndarray)) (pv : ndarray) (s p : DataArray) :
  _target_neuroid_values self = Some tv ->
  NoDup (map fst tv) ->
  coords_on_axes s ->
  (forall k v, tv = [(k, v)] -> In k (dims s) -> k = _neuroid_dim self) ->
  ((2 <= List.length tv)%nat -> dict_get (_neuroid_dim self) tv = None) ->
  _package_prediction self pv s = inr p ->
  forall k, axis_labels (_neuroid_dim self) p k = dict_get k tv.
Proof.
  intros Htv Hnd Hwf Hres Hn Hp k.
  unfold _package_prediction in Hp. rewrite Htv in Hp.
  set (nd := _neuroid_dim self) in *.
  assert (Hplain : forall ds q,
            match tv with
            | [] => True
            | [(k0, _)] => k0 = nd
            | _ => dict_get nd tv = None
            end ->
            new_Assembly pv
              (fold_left (fun cs kv => coords_set (mk_coord (fst kv) [nd] (snd kv)) cs)
                         tv (source_coords nd s)) ds = inr q ->
            axis_labels nd q k = dict_get k tv).
  { intros ds q Hone Hq. apply new_Assembly_inv in Hq.
    destruct Hq as (cs' & Hg & -> & _).
    assert (Hl : forall k0,
              labels_in nd
                (fold_left
                   (fun cs kv => coords_set (mk_coord (fst kv) [nd] (snd kv)) cs)
                   tv (source_coords nd s)) k0 = dict_get k0 tv).
    { intros k0. rewrite (package_coords_lookup nd nd s tv k0 Hnd).
      now rewrite String.eqb_refl. }
    apply gather_dims_labels with (x := nd) in Hg.
    - destruct Hg as [_ Hg]. change (labels_in nd cs' k = dict_get k tv).
      now rewrite Hg.
    - apply fold_coords_set_nodup, source_coords_nodup.
    - now apply (settled_capture nd _ tv). }
  destruct tv as [|[k0 v0] [|kv2 rest]].
  - (* nothing captured *)
    simpl in Hp.
    destruct (new_Assembly pv (source_coords nd s) (dims s)) as [e|q] eqn:Eq;
      simpl in Hp; [discriminate|].
    injection Hp as <-. eapply Hplain; [exact I | exact Eq].
  - (* one captured coordinate *)
    simpl in Hp. unfold or_else in Hp.
    destruct (truthy k0) eqn:Et.
    + match type of Hp with
      | and_then ?n _ = _ => destruct n as [e|q] eqn:Eq; simpl in Hp; [discriminate|]
      end.
      apply new_Assembly_inv in Eq. destruct Eq as (cs' & Hg & -> & _).
      apply stack_inv in Hp. simpl in Hp.
      destruct Hp as (Hk0 & Hnot & _ & Hco).
      assert (Hnk : nd <> k0).
      { intros He. subst k0. rewrite Hnot in Hk0. discriminate. }
      assert (Hk0s : ~ In k0 (dims s)).
      { intros Hin. apply Hnk. symmetry. eapply Hres; [reflexivity | exact Hin]. }
      set (cs1 := coords_set (mk_coord k0 [k0] v0) (source_coords nd s)) in *.
      assert (Hnd1 : NoDup (map cname cs1))
        by (apply (proj1 (coords_set_names _ _ (source_coords_nodup nd s)))).
      assert (Hl0 : forall k1, labels_in k0 cs1 k1
                               = if String.eqb k1 k0 then Some v0 else None).
      { intros k1. unfold labels_in, cs1. rewrite coords_get_set. simpl.
        destruct (String.eqb k1 k0);
          [cbn [cdims cvalues]; now rewrite list_eqb_refl|].
        destruct (coords_get k1 (source_coords nd s)) as [c|] eqn:E;
          [|reflexivity].
        apply source_coords_lookup in E. destruct E as [Hin _].
        match goal with
        | |- context [list_eqb ?a ?b] => destruct (list_eqb a b) eqn:El
        end; [|reflexivity].
        apply list_eqb_eq in El. exfalso. apply Hk0s.
        apply (Hwf c Hin). rewrite El. now left. }
      assert (Hln : forall k1, labels_in nd cs1 k1 = None).
      { intros k1. unfold labels_in, cs1. rewrite coords_get_set. simpl.
        destruct (String.eqb k1 k0).
        - cbn [cdims cvalues].
          match goal with
          | |- context [list_eqb ?a ?b] => destruct (list_eqb a b) eqn:El
          end; [|reflexivity].
          apply list_eqb_eq in El. congruence.
        - destruct (coords_get k1 (source_coords nd s)) as [c|] eqn:E;
            [|reflexivity].
          apply source_coords_lookup in E. destruct E as [_ Hne].
          destruct (list_eqb (cdims c) [nd]) eqn:El; [|reflexivity].
          apply list_eqb_eq in El. contradiction. }
      pose proof Hg as Hg0.
      apply gather_dims_labels with (x := k0) in Hg0;
        [|exact Hnd1
         |left; intros k1 Hk1; rewrite Hl0;
          now destruct (String.eqb_spec k1 k0)].
      apply gather_dims_labels with (x := nd) in Hg;
        [|exact Hnd1 | left; intros k1 _; apply Hln].
      destruct Hg0 as [_ Hg0]. destruct Hg as [_ Hg].
      specialize (Hg0 k). specialize (Hg k).
      rewrite Hl0 in Hg0. rewrite Hln in Hg.
      unfold axis_labels. rewrite Hco.
      rewrite (coords_get_map _ _ _ (stack_coord_cname nd k0)).
      unfold labels_in in Hg0, Hg. simpl.
      destruct (coords_get k cs') as [c|] eqn:E; simpl.
      * match type of Hg0 with
        | context [list_eqb ?a ?b] => destruct (list_eqb a b) eqn:El0
        end.
        -- pose proof (proj1 (list_eqb_eq _ _) El0) as Hc0.
           rewrite (stack_coord_level nd k0 c Hc0). simpl.
           rewrite list_eqb_refl. exact Hg0.
        -- rewrite <- Hg0.
           destruct (list_eqb (cdims (stack_coord nd k0 c)) [nd]) eqn:El;
             [|reflexivity].
           apply list_eqb_eq in El. exfalso. revert El.
           apply stack_coord_axis.
           ++ intros He. rewrite He, list_eqb_refl in El0. discriminate.
           ++ intros He. rewrite He, list_eqb_refl in Hg. discriminate.
      * exact Hg0.
    + (* a coordinate without name: the constructor raises unless the
         neuroid axis has no name either *)
      match type of Hp with
      | and_then ?n _ = _ => destruct n as [e|q] eqn:Eq; simpl in Hp; [discriminate|]
      end.
      injection Hp as <-.
      assert (Hk0 : k0 = ""%string).
      { unfold truthy in Et. apply negb_false_iff in Et.
        now apply String.eqb_eq in Et. }
      pose proof Eq as Eq0.
      apply new_Assembly_inv in Eq0. destruct Eq0 as (cs' & _ & _ & Hfit).
      rewrite forallb_forall in Hfit.
      assert (Hin : In (mk_coord k0 [nd] v0)
                       (coords_set (mk_coord k0 [nd] v0) (source_coords nd s))).
      { assert (H : coords_get k0
                      (coords_set (mk_coord k0 [nd] v0) (source_coords nd s))
                    = Some (mk_coord k0 [nd] v0))
          by (rewrite coords_get_set; simpl; now rewrite String.eqb_refl).
        now apply coords_get_In in H. }
      apply Hfit in Hin. unfold coord_fits in Hin. simpl in Hin.
      apply andb_true_iff in Hin. destruct Hin as [Hin _].
      apply andb_true_iff in Hin. destruct Hin as [Hin _].
      rewrite andb_true_r in Hin. apply mem_In, in_map_iff in Hin.
      destruct Hin as (d & Hd & _).
      assert (Hnk : k0 = nd)
        by (destruct (String.eqb_spec d nd) as [He|Hne]; simpl in Hd; congruence).
      eapply Hplain; [exact Hnk | simpl; exact Eq].
  - (* several captured coordinates *)
    simpl in Hp.
    match type of Hp with
    | and_then ?n _ = _ => destruct n as [e|q] eqn:Eq; simpl in Hp; [discriminate|]
    end.
    injection Hp as <-. eapply Hplain; [|simpl; exact Eq].
    apply Hn. simpl. lia.
Qed.

Lemma align_set_eq (expected : list dim) (a a' : DataArray) :
  _align expected a = inr a' -> set_equal (dims a) expected.
Proof.
  unfold _align.
  destruct (set_eq (dims a) expected) eqn:E; simpl; [|discriminate].
  intros _. now apply set_eq_spec.
Qed.

Lemma sortby1_axis (key : string) (a a' : DataArray) :
  sortby1 key a = inr a' ->
  exists (c : coord) (d : dim),
    getitem key a = inr c /\ cdims c = [d]
    /\ a' = take_along d (argsort (to_list (cvalues c))) a.
Proof.
  unfold sortby1. destruct (getitem key a) as [e|c]; simpl; [discriminate|].
  destruct (cdims c) as [|d [|d' r]] eqn:Ec; try discriminate.
  intros H. injection H as <-. exists c, d. auto.
Qed.

Lemma take_along_axis_labels (nd d : dim) (order : list nat) (a : DataArray)
    (k : string) :
  d <> nd -> axis_labels nd (take_along d order a) k = axis_labels nd a k.
Proof.
  intros Hne. unfold axis_labels, take_along. simpl.
  rewrite coords_get_map by (intros c; apply take_coord_cdims).
  destruct (coords_get k (coords a)) as [c|]; simpl; [|reflexivity].
  destruct (take_coord_cdims d order c) as [Hd _]. rewrite Hd.
  destruct (list_eqb (cdims c) [nd]) eqn:El; [|reflexivity].
  apply list_eqb_eq in El. rewrite take_coord_other; [reflexivity|].
  rewrite El. simpl. intros [H|[]]. congruence.
Qed.

Lemma align_axis_labels (expected : list dim) (nd : dim) (a a' : DataArray)
    (k : string) :
  _align expected a = inr a' -> axis_labels nd a' k = axis_labels nd a k.
Proof.
  intros H. apply align_inv in H. destruct H as (_ & Hc & _).
  unfold axis_labels. now rewrite Hc.
Qed.

Lemma take_along_axis_labels_none (nd d : dim) (order : list nat)
    (a : DataArray) (k : string) :
  axis_labels nd a k = None -> axis_labels nd (take_along d order a) k = None.
Proof.
  unfold axis_labels, take_along. simpl.
  rewrite coords_get_map by (intros c; apply take_coord_cdims).
  destruct (coords_get k (coords a)) as [c|]; simpl; [|reflexivity].
  destruct (take_coord_cdims d order c) as [Hd _]. rewrite Hd.
  destruct (list_eqb (cdims c) [nd]); [discriminate | reflexivity].
Qed.

Lemma predict_inv {M : Type} (self : XarrayRegression M) (source p : DataArray) :
  predict self source = inr p ->
  exists s pv,
    _align (_expected_dims self) source = inr s
    /\ reg_predict (_regression self) (_model self) s = inr pv
    /\ _package_prediction self pv s = inr p.
Proof.
  unfold predict.
  destruct (_align (_expected_dims self) source) as [e|s]; simpl; [discriminate|].
  destruct (reg_predict (_regression self) (_model self) s) as [e|pv] eqn:Ep;
    simpl; [discriminate|].
  intros H. exists s, pv. auto.
Qed.

(** the labels a prediction carries on the neuroid axis are the capture *)
Lemma fit_predict_labels_general {M : Type} (self self' : XarrayRegression M)
    (source target source' prediction : DataArray) :
  unique_names target -> axis_names_reserved target -> coords_on_axes source' ->
  fit self source target = inr self' ->
  predict self' source' = inr prediction ->
  exists captured,
    _target_neuroid_values self' = Some captured
    /\ (((2 <= List.length captured)%nat ->
         dict_get (_neuroid_dim self) captured = None) ->
        forall k, axis_labels (_neuroid_dim self) prediction k
                  = dict_get k captured).
Proof.
  intros Hu Hr Hs Hfit Hpred.
  apply fit_inv in Hfit.
  destruct Hfit as (s1 & t1 & s2 & t2 & model & captured
                    & Hs1 & Ht1 & Hs2 & Ht2 & Hm & Hc & ->).
  pose proof (sortby1_axis _ _ _ Ht2) as (c & d & Hget & Hcd & Ht2e).
  set (nd := _neuroid_dim self) in *.
  pose proof (align_inv _ _ _ Ht1) as (Hd1 & Hco1 & _).
  assert (Hu2 : unique_names t2).
  { unfold unique_names. rewrite Ht2e. simpl. rewrite map_map.
    rewrite (map_ext _ cname) by (intros x; apply take_coord_cdims).
    rewrite Hco1. exact Hu. }
  pose proof (capture_axis_labels nd t2 captured Hu2 Hc) as Hcap.
  apply predict_inv in Hpred. simpl in Hpred.
  destruct Hpred as (s & pv & Hsa & _ & Hpk).
  pose proof (align_inv _ _ _ Hsa) as (Hds & Hcos & _).
  exists captured. split; [reflexivity|]. intros Hn.
  refine (package_labels _ captured pv s prediction _ _ _ _ _ Hpk).
  - reflexivity.
  - eapply capture_nodup; [|exact Hc]. constructor.
  - intros x Hx. rewrite Hcos in Hx. rewrite Hds.
    intros y Hy. apply (align_set_eq _ _ _ Hsa). now apply (Hs x).
  - intros k v Hkv Hin. simpl.
    assert (Hk : dict_get k captured = Some v)
      by (rewrite Hkv; simpl; now rewrite String.eqb_refl).
    rewrite Hcap in Hk. unfold axis_labels in Hk.
    rewrite Ht2e in Hk. simpl in Hk.
    rewrite coords_get_map in Hk by (intros x; apply take_coord_cdims).
    rewrite Hco1 in Hk.
    destruct (coords_get k (coords target)) as [c0|] eqn:E0; simpl in Hk;
      [|discriminate].
    destruct (take_coord_cdims d (argsort (to_list (cvalues c))) c0) as [Hcd0 _].
    rewrite Hcd0 in Hk.
    destruct (list_eqb (cdims c0) [nd]) eqn:El; [|discriminate].
    apply list_eqb_eq in El.
    apply coords_get_In in E0. destruct E0 as [Hin0 Hn0].
    assert (Hkt : In (cname c0) (dims target)).
    { rewrite Hn0. apply (align_set_eq _ _ _ Ht1). now rewrite <- Hds. }
    pose proof (Hr c0 Hin0 Hkt) as Hres. rewrite El in Hres.
    injection Hres as Hres. now rewrite <- Hn0.
  - exact Hn.
Qed.

(** C1 (amended).  When [fit] has returned on a target that has no
    coordinate of the name of the neuroid axis on that axis, and a later
    [predict] returns, the prediction's coordinates on the neuroid axis
    are, name by name, the coordinates on the neuroid axis of the target as
    [fit] aligned and sorted it by the stimulus coordinate, whatever the
    sources hold; the capture made by [fit] is exactly that set, whatever
    was captured before; and these are the target's own labels whenever the
    stimulus coordinate lies on an axis other than the neuroid axis. *)
Theorem fit_predict_neuroid_labels {M : Type} (self self' : XarrayRegression M)
    (source target source' prediction : DataArray)
    (Hu : unique_names target) (Hr : axis_names_reserved target)
    (Hn : axis_labels (_neuroid_dim self) target (_neuroid_dim self) = None)
    (Hs : coords_on_axes source')
    (Hfit : fit self source target = inr self')
    (Hpred : predict self' source' = inr prediction) :
  exists (aligned : DataArray) (c : coord) (d : dim)
         (captured : list (string * ndarray)),
    _align (_expected_dims self) target = inr aligned
    /\ getitem (_stimulus_coord self) aligned = inr c
    /\ cdims c = [d]
    /\ sortby [_stimulus_coord self] aligned
       = inr (take_along d (argsort (to_list (cvalues c))) aligned)
    /\ _target_neuroid_values self' = Some captured
    /\ (forall k, dict_get k captured
                  = axis_labels (_neuroid_dim self)
                      (take_along d (argsort (to_list (cvalues c))) aligned) k)
    /\ (forall k, axis_labels (_neuroid_dim self) prediction k
                  = axis_labels (_neuroid_dim self)
                      (take_along d (argsort (to_list (cvalues c))) aligned) k)
    /\ (d <> _neuroid_dim self ->
        forall k, axis_labels (_neuroid_dim self) prediction k
                  = axis_labels (_neuroid_dim self) target k).
Proof.
  apply fit_inv in Hfit.
  destruct Hfit as (s1 & t1 & s2 & t2 & model & captured
                    & Hs1 & Ht1 & Hs2 & Ht2 & Hm & Hc & ->).
  pose proof (sortby1_axis _ _ _ Ht2) as (c & d & Hget & Hcd & Ht2e).
  set (nd := _neuroid_dim self) in *.
  pose proof (align_inv _ _ _ Ht1) as (Hd1 & Hco1 & _).
  assert (Hu2 : unique_names t2).
  { unfold unique_names. rewrite Ht2e. simpl. rewrite map_map.
    rewrite (map_ext _ cname) by (intros x; apply take_coord_cdims).
    rewrite Hco1. exact Hu. }
  pose proof (capture_axis_labels nd t2 captured Hu2 Hc) as Hcap.
  apply predict_inv in Hpred. simpl in Hpred.
  destruct Hpred as (s & pv & Hsa & _ & Hpk).
  pose proof (align_inv _ _ _ Hsa) as (Hds & Hcos & _).
  assert (Hcn : dict_get nd captured = None).
  { rewrite Hcap, Ht2e. apply take_along_axis_labels_none.
    rewrite (align_axis_labels _ nd _ _ nd Ht1). exact Hn. }
  assert (Hlab : forall k, axis_labels nd prediction k = dict_get k captured).
  { refine (package_labels _ captured pv s prediction _ _ _ _ _ Hpk).
    - reflexivity.
    - eapply capture_nodup; [|exact Hc]. constructor.
    - intros x Hx. rewrite Hcos in Hx. rewrite Hds.
      intros y Hy. apply (align_set_eq _ _ _ Hsa). now apply (Hs x).
    - intros k v Hkv Hin. simpl.
      assert (Hk : dict_get k captured = Some v)
        by (rewrite Hkv; simpl; now rewrite String.eqb_refl).
      rewrite Hcap in Hk. unfold axis_labels in Hk.
      rewrite Ht2e in Hk. simpl in Hk.
      rewrite coords_get_map in Hk by (intros x; apply take_coord_cdims).
      rewrite Hco1 in Hk.
      destruct (coords_get k (coords target)) as [c0|] eqn:E0; simpl in Hk;
        [|discriminate].
      destruct (take_coord_cdims d (argsort (to_list (cvalues c))) c0) as [Hcd0 _].
      rewrite Hcd0 in Hk.
      destruct (list_eqb (cdims c0) [nd]) eqn:El; [|discriminate].
      apply list_eqb_eq in El.
      apply coords_get_In in E0. destruct E0 as [Hin0 Hn0].
      assert (Hkt : In (cname c0) (dims target)).
      { rewrite Hn0. apply (align_set_eq _ _ _ Ht1). now rewrite <- Hds. }
      pose proof (Hr c0 Hin0 Hkt) as Hres. rewrite El in Hres.
      injection Hres as Hres. now rewrite <- Hn0.
    - intros _. exact Hcn. }
  exists t1, c, d, captured.
  rewrite <- Ht2e.
  repeat split; try assumption.
  - intros k. now rewrite Hlab.
  - intros Hne k. rewrite Hlab, Hcap, Ht2e.
    rewrite take_along_axis_labels by assumption.
    eapply align_axis_labels. exact Ht1.
Qed.

Lemma fit_predict_neuroid_labels_witness :
  axis_labels "neuroid" prediction_two "neuroid_id"
  = axis_labels "neuroid" target_two "neuroid_id"
  /\ axis_labels "neuroid" prediction_two "area"
     = axis_labels "neuroid" target_two "area".
Proof.
  assert (Hu : unique_names target_two)
    by (unfold unique_names; simpl; apply nodup_b_spec; reflexivity).
  assert (Hr : axis_names_reserved target_two).
  { intros c Hc Hn. simpl in Hc.
    destruct Hc as [<-|[<-|[<-|[]]]]; simpl in Hn;
      destruct Hn as [Hn|[Hn|[]]]; discriminate. }
  assert (Hs : coords_on_axes source_plain).
  { intros c Hc. simpl in Hc.
    destruct Hc as [<-|[<-|[]]]; intros x Hx; simpl in Hx;
      destruct Hx as [<-|[]]; simpl; auto. }
  assert (Hfit : fit toy_adapter source_plain target_two = inr fitted_two)
    by reflexivity.
  assert (Hpred : predict fitted_two source_plain = inr prediction_two)
    by reflexivity.
  destruct (fit_predict_neuroid_labels toy_adapter fitted_two source_plain
              target_two source_plain prediction_two Hu Hr eq_refl Hs Hfit Hpred)
    as (aligned & c & d & captured & Ha & Hg & Hcd & _ & _ & _ & _ & Hsame).
  assert (Hd : d <> "neuroid"); [|split; apply (Hsame Hd)].
  vm_compute in Ha. injection Ha as <-.
  vm_compute in Hg. injection Hg as <-.
  simpl in Hcd. injection Hcd as <-. discriminate.
Defined.

(** C1, as stated, fails: with the stimulus coordinate attached to the
    neuroid axis, [fit] sorts the neuroid axis before it captures, and the
    prediction carries the labels [20, 10] where the target has [10, 20].
    And with a target whose neuroid axis has its own coordinate beside
    [neuroid_id], two coordinates are captured, so nothing is stacked, and
    the constructor of the prediction makes the axis coordinate a level
    named [neuroid_level_0]: going through the coordinates of the
    prediction, as [walk_coords] does, the labels [10, 20] are found under
    that name and no longer under [neuroid], where the target has them. *)
Lemma fit_predict_labels_counterexample :
  (exists prediction,
     fit_then_predict toy_adapter source_plain target_stimulus_on_neuroid
                      source_plain = inr prediction
     /\ set_equal (dims target_stimulus_on_neuroid) presentation_neuroid
     /\ set_equal (dims source_plain) presentation_neuroid
     /\ labels_list "neuroid" prediction "neuroid_id" = Some [20; 10]%Z
     /\ labels_list "neuroid" target_stimulus_on_neuroid "neuroid_id"
        = Some [10; 20]%Z)
  /\ (exists prediction,
        fit_then_predict toy_adapter source_plain target_index_and_id
                         source_plain = inr prediction
        /\ set_equal (dims target_index_and_id) presentation_neuroid
        /\ labels_list "neuroid" target_index_and_id "neuroid"
           = Some [10; 20]%Z
        /\ labels_list "neuroid" prediction "neuroid" = None
        /\ labels_list "neuroid" prediction "neuroid_level_0"
           = Some [10; 20]%Z
        /\ labels_list "neuroid" prediction "neuroid_id" = Some [7; 8]%Z).
Proof.
  split.
  - eexists. split; [reflexivity|].
    split; [apply set_eq_spec; reflexivity|].
    split; [apply set_eq_spec; reflexivity|].
    split; reflexivity.
  - eexists. split; [reflexivity|].
    split; [apply set_eq_spec; reflexivity|].
    repeat split; reflexivity.
Qed.

Lemma package_single_dims {M : Type} (self : XarrayRegression M) (k0 : string)
    (v0 pv : ndarray) (s p : DataArray) :
  _target_neuroid_values self = Some [(k0, v0)] -> truthy k0 = true ->
  _package_prediction self pv s = inr p ->
  exists front, dims p = front ++ [_neuroid_dim self].
Proof.
  intros Htv Ht Hp. unfold _package_prediction in Hp. rewrite Htv in Hp.
  simpl in Hp. rewrite Ht in Hp.
  match type of Hp with
  | and_then ?n _ = _ => destruct n as [e|q]; simpl in Hp; [discriminate|]
  end.
  apply stack_inv in Hp. destruct Hp as (_ & _ & Hd & _). eauto.
Qed.

(** C3.  After a [fit] on a target with exactly one coordinate on the
    neuroid axis, a [predict] that returns gives an array whose last axis
    has the generic neuroid name and whose coordinates on that axis are
    exactly that one coordinate, provided its name is non-empty.  At the
    failing inputs, a target whose one coordinate on the neuroid axis has
    the empty name, or the name of the neuroid axis itself, [fit] returns
    and [predict] raises. *)
Theorem predict_single_coordinate :
  (forall (M : Type) (self self' : XarrayRegression M)
          (source target source' prediction : DataArray) (k0 : string)
          (v0 : ndarray),
      unique_names target -> axis_names_reserved target ->
      coords_on_axes source' ->
      fit self source target = inr self' ->
      _target_neuroid_values self' = Some [(k0, v0)] ->
      truthy k0 = true ->
      predict self' source' = inr prediction ->
      (exists front, dims prediction = front ++ [_neuroid_dim self])
      /\ axis_labels (_neuroid_dim self) prediction k0 = Some v0
      /\ forall k, k <> k0 -> axis_labels (_neuroid_dim self) prediction k = None)
  /\ (exists fitted,
        fit toy_adapter source_plain target_unnamed = inr fitted
        /\ option_map (map fst) (_target_neuroid_values fitted) = Some [""]
        /\ predict fitted source_plain = inl ValueError)
  /\ (exists fitted,
        fit toy_adapter source_plain target_indexed = inr fitted
        /\ option_map (map fst) (_target_neuroid_values fitted) = Some ["neuroid"]
        /\ predict fitted source_plain = inl ValueError).
Proof.
  split; [|split].
  - intros M self self' source target source' prediction k0 v0
           Hu Hr Hs Hfit Htv Ht Hpred.
    destruct (fit_predict_labels_general self self' source target source'
                prediction Hu Hr Hs Hfit Hpred) as (captured & Hc & Hlab).
    rewrite Htv in Hc. injection Hc as <-.
    specialize (Hlab ltac:(simpl; intros Hlen; lia)).
    pose proof Hfit as Hfit'. apply fit_inv in Hfit'.
    destruct Hfit' as (s1 & t1 & s2 & t2 & model & captured' & _ & _ & _ & _
                       & _ & _ & Hself).
    apply predict_inv in Hpred. destruct Hpred as (s & pv & _ & _ & Hpk).
    assert (Hnd : _neuroid_dim self' = _neuroid_dim self)
      by (rewrite Hself; reflexivity).
    split; [|split].
    + rewrite <- Hnd. eapply package_single_dims; eassumption.
    + rewrite Hlab. simpl. now rewrite String.eqb_refl.
    + intros k Hk. rewrite Hlab. simpl.
      destruct (String.eqb_spec k k0); [contradiction | reflexivity].
  - eexists. split; [reflexivity|]. split; reflexivity.
  - eexists. split; [reflexivity|]. split; reflexivity.
Qed.

Lemma predict_single_coordinate_witness :
  exists prediction,
    fit_then_predict toy_adapter source_plain target_one source_plain
    = inr prediction
    /\ (exists front, dims prediction = front ++ ["neuroid"])
    /\ labels_list "neuroid" prediction "neuroid_id" = Some [10; 20]%Z.
Proof.
  destruct predict_single_coordinate as [H _].
  assert (Hu : unique_names target_one)
    by (unfold unique_names; simpl; apply nodup_b_spec; reflexivity).
  assert (Hr : axis_names_reserved target_one).
  { intros c Hc Hn. simpl in Hc.
    destruct Hc as [<-|[<-|[]]]; simpl in Hn;
      destruct Hn as [Hn|[Hn|[]]]; discriminate. }
  assert (Hs : coords_on_axes source_plain).
  { intros c Hc. simpl in Hc.
    destruct Hc as [<-|[<-|[]]]; intros x Hx; simpl in Hx;
      destruct Hx as [<-|[]]; simpl; auto. }
  destruct (fit toy_adapter source_plain target_one) as [e|fitted] eqn:Ef;
    [vm_compute in Ef; discriminate|].
  destruct (predict fitted source_plain) as [e|prediction] eqn:Ep.
  { exfalso. vm_compute in Ef. injection Ef as <-. vm_compute in Ep.
    discriminate. }
  assert (Htv : _target_neuroid_values fitted
                = Some [("neuroid_id", of_list [10; 20]%Z)]).
  { vm_compute in Ef. injection Ef as <-. reflexivity. }
  destruct (H nat toy_adapter fitted source_plain target_one source_plain
              prediction "neuroid_id" (of_list [10; 20]%Z)
              Hu Hr Hs Ef Htv eq_refl Ep) as (Hd & Hl & _).
  exists prediction. split.
  - unfold fit_then_predict. rewrite Ef. exact Ep.
  - split; [exact Hd|]. unfold labels_list.
    change "neuroid" with (_neuroid_dim toy_adapter). rewrite Hl. reflexivity.
Defined.

(** ** Sorting keeps shapes *)

Lemma set_nth_same (p : nat) (l : list nat) : set_nth p (nth p l 0) l = l.
Proof.
  revert p. induction l as [|x r IH]; intros [|p]; simpl; try reflexivity.
  now rewrite IH.
Qed.

Lemma insert_key_length (x : Z * nat) (l : list (Z * nat)) :
  List.length (insert_key x l) = S (List.length l).
Proof.
  induction l as [|y r IH]; simpl; [reflexivity|].
  destruct (fst x <=? fst y)%Z; simpl; [reflexivity | now rewrite IH].
Qed.

Lemma argsort_length (l : list Z) : List.length (argsort l) = List.length l.
Proof.
  unfold argsort. rewrite length_map.
  assert (H : forall m : list (Z * nat),
             List.length (fold_right insert_key [] m) = List.length m).
  { induction m as [|x r IH]; simpl; [reflexivity|].
    now rewrite insert_key_length, IH. }
  rewrite H, length_combine, length_seq. apply Nat.min_id.
Qed.

Lemma to_list_length (a : ndarray) : List.length (to_list a) = hd 0 (shape a).
Proof. unfold to_list. now rewrite length_map, length_seq. Qed.

Lemma coord_fits_single (ds : list dim) (sh : list nat) (c : coord) (d : dim) :
  coord_fits ds sh c = true -> cdims c = [d] ->
  In d ds /\ shape (cvalues c) = [nth (index_of d ds) sh 0].
Proof.
  unfold coord_fits. intros H Hd. rewrite Hd in H. simpl in H.
  rewrite String.eqb_refl in H.
  apply andb_true_iff in H. destruct H as [H H3].
  apply andb_true_iff in H. destruct H as [H1 H2].
  rewrite andb_true_r in H1, H3. apply mem_In in H1.
  apply Nat.eqb_eq in H2, H3.
  split; [exact H1|].
  destruct (shape (cvalues c)) as [|n [|m r]]; simpl in *; try discriminate.
  now rewrite H3.
Qed.

Lemma getitem_fits (key : string) (a : DataArray) (c : coord) (d : dim) :
  labels_fit a = true -> getitem key a = inr c -> cdims c = [d] ->
  In d (dims a) /\ shape (cvalues c) = [size_of d a].
Proof.
  unfold getitem, labels_fit. intros Hfit Hg Hd.
  destruct (coords_get key (coords a)) as [c0|] eqn:E.
  - injection Hg as <-. apply coords_get_In in E. destruct E as [Hin _].
    rewrite forallb_forall in Hfit.
    apply (coord_fits_single _ _ _ _ (Hfit _ Hin) Hd).
  - destruct (mem key (dims a)) eqn:Em; [|discriminate].
    injection Hg as <-. simpl in Hd. injection Hd as <-.
    split; [now apply mem_In|].
    simpl. now rewrite length_map, length_seq.
Qed.

Lemma coord_fits_ext (ds : list dim) (sh : list nat) (c c' : coord) :
  cdims c' = cdims c -> shape (cvalues c') = shape (cvalues c) ->
  coord_fits ds sh c' = coord_fits ds sh c.
Proof. intros H1 H2. unfold coord_fits. now rewrite H1, H2. Qed.

Lemma take_coord_shape (ds : list dim) (sh : list nat) (d : dim)
    (order : list nat) (c : coord) :
  coord_fits ds sh c = true ->
  List.length order = nth (index_of d ds) sh 0 ->
  shape (cvalues (take_coord d order c)) = shape (cvalues c).
Proof.
  intros Hfit Hlen. unfold take_coord.
  destruct (mem d (cdims c)) eqn:Em; [|reflexivity].
  simpl. unfold coord_fits in Hfit.
  apply andb_true_iff in Hfit. destruct Hfit as [_ H3].
  rewrite forallb_forall in H3. apply mem_In in Em.
  specialize (H3 d Em). apply Nat.eqb_eq in H3.
  rewrite Hlen, <- H3. apply set_nth_same.
Qed.

Lemma sortby1_fits (key : string) (a a' : DataArray) :
  labels_fit a = true -> sortby1 key a = inr a' ->
  dims a' = dims a /\ shape (values a') = shape (values a)
  /\ layout a' = layout a /\ attrs a' = attrs a.
Proof.
  intros Hfit H.
  destruct (sortby1_axis _ _ _ H) as (c & d & Hg & Hd & ->).
  destruct (getitem_fits _ _ _ _ Hfit Hg Hd) as [Hin Hsh].
  assert (Hlen : List.length (argsort (to_list (cvalues c)))
                 = nth (index_of d (dims a)) (shape (values a)) 0).
  { rewrite argsort_length, to_list_length, Hsh. reflexivity. }
  unfold take_along, layout. simpl. split; [reflexivity|].
  split; [rewrite Hlen; apply set_nth_same|].
  split; [|reflexivity].
  rewrite map_map. apply map_ext_in. intros x Hx.
  destruct (take_coord_cdims d (argsort (to_list (cvalues c))) x) as [H1 H2].
  rewrite H1, H2. f_equal.
  eapply take_coord_shape; [|exact Hlen].
  unfold labels_fit in Hfit. rewrite forallb_forall in Hfit. now apply Hfit.
Qed.

Lemma labels_fit_layout (a a' : DataArray) :
  dims a' = dims a -> shape (values a') = shape (values a) ->
  layout a' = layout a -> labels_fit a' = labels_fit a.
Proof.
  unfold labels_fit, layout. intros -> ->.
  generalize (coords a) as l. generalize (coords a') as l'.
  induction l' as [|x r IH]; intros [|y s] H; simpl in *; try discriminate.
  - reflexivity.
  - injection H as H1 H2 H3 H4.
    rewrite (coord_fits_ext _ _ y x H2 H3), (IH _ H4). reflexivity.
Qed.

Lemma sortby_fits (keys : list string) :
  forall a a', labels_fit a = true -> sortby keys a = inr a' ->
  dims a' = dims a /\ shape (values a') = shape (values a)
  /\ layout a' = layout a /\ attrs a' = attrs a /\ labels_fit a' = true.
Proof.
  induction keys as [|k r IH]; simpl; intros a a' Hfit H.
  - injection H as <-. auto.
  - destruct (sortby r a) as [e|a1] eqn:E; simpl in H; [discriminate|].
    destruct (IH _ _ Hfit E) as (H1 & H2 & H3 & H4 & H5).
    destruct (sortby1_fits _ _ _ H5 H) as (G1 & G2 & G3 & G4).
    repeat split; try congruence.
    rewrite <- Hfit. apply labels_fit_layout; congruence.
Qed.

(** ** Loops that may raise *)

Lemma traverse_Forall2 {A B : Type} (f : A -> result B) (l : list A) (ys : list B) :
  traverse f l = inr ys <-> Forall2 (fun x y => f x = inr y) l ys.
Proof.
  revert ys. induction l as [|x r IH]; simpl; intros ys.
  - split.
    + intros H. injection H as <-. constructor.
    + intros H. inversion H. reflexivity.
  - split.
    + destruct (f x) as [e|y] eqn:Ex; simpl; [discriminate|].
      destruct (traverse f r) as [e|ys'] eqn:Er; simpl; [discriminate|].
      intros H. injection H as <-. constructor; [exact Ex|]. now apply IH.
    + intros H. inversion H as [|? y ? ys' Hy Hr]; subst.
      rewrite Hy. simpl. apply IH in Hr. rewrite Hr. reflexivity.
Qed.

Lemma traverse_total {A B : Type} (f : A -> result B) (l : list A) :
  (forall x, In x l -> exists y, f x = inr y) ->
  exists ys, traverse f l = inr ys.
Proof.
  induction l as [|x r IH]; simpl; intros H.
  - now exists [].
  - destruct (H x (or_introl eq_refl)) as [y Hy].
    destruct IH as [ys Hys]; [intros z Hz; apply H; now right|].
    exists (y :: ys). rewrite Hy. simpl. rewrite Hys. reflexivity.
Qed.

Lemma traverse_seq_from {B : Type} (f : nat -> result B) (dflt : B) (n : nat) :
  forall s ys, traverse f (seq s n) = inr ys ->
  List.length ys = n /\ forall i, i < n -> f (s + i) = inr (nth i ys dflt).
Proof.
  induction n as [|n IH]; simpl; intros s ys H.
  - injection H as <-. split; [reflexivity | intros i Hi; lia].
  - destruct (f s) as [e|y] eqn:Es; simpl in H; [discriminate|].
    destruct (traverse f (seq (S s) n)) as [e|ys'] eqn:Er; simpl in H;
      [discriminate|].
    injection H as <-. destruct (IH _ _ Er) as [Hlen Hnth].
    split; [simpl; now rewrite Hlen|].
    intros [|i] Hi; simpl.
    + now rewrite Nat.add_0_r.
    + rewrite <- (Hnth i) by lia. f_equal. lia.
Qed.

Lemma traverse_seq_nth {B : Type} (f : nat -> result B) (n : nat) (ys : list B)
    (dflt : B) :
  traverse f (seq 0 n) = inr ys ->
  List.length ys = n /\ forall i, i < n -> f i = inr (nth i ys dflt).
Proof. intros H. apply (traverse_seq_from f dflt n 0 ys H). Qed.

Lemma all_equal_refl (l : list Z) : all_equal l l = true.
Proof.
  unfold all_equal. rewrite Nat.eqb_refl.
  induction l as [|x r IH]; simpl; [reflexivity|].
  now rewrite Z.eqb_refl, IH.
Qed.

Lemma coords_set_fresh (c : coord) (cs : list coord) :
  ~ In (cname c) (map cname cs) -> coords_set c cs = cs ++ [c].
Proof.
  induction cs as [|c0 r IH]; simpl; intros H; [reflexivity|].
  destruct (String.eqb_spec (cname c) (cname c0)) as [He|Hne].
  - exfalso. apply H. now left.
  - f_equal. apply IH. intros Hin. apply H. now right.
Qed.

Lemma fold_coords_set_app (l : list coord) :
  forall acc, NoDup (map cname (acc ++ l)) ->
  fold_left (fun cs c => coords_set c cs) l acc = acc ++ l.
Proof.
  induction l as [|c r IH]; simpl; intros acc H.
  - now rewrite app_nil_r.
  - rewrite coords_set_fresh.
    + rewrite IH; rewrite <- app_assoc; simpl; [reflexivity | exact H].
    + rewrite map_app in H. simpl in H.
      apply NoDup_remove_2 in H. intros Hin. apply H.
      apply in_or_app. now left.
Qed.

Lemma NoDup_map_filter (f : coord -> bool) (l : list coord) :
  NoDup (map cname l) -> NoDup (map cname (filter f l)).
Proof.
  induction l as [|c r IH]; simpl; intros H; [constructor|].
  inversion H as [|? ? Hnin Hnd]; subst.
  destruct (f c); simpl; [|now apply IH].
  constructor; [|now apply IH].
  intros Hin. apply Hnin. apply in_map_iff in Hin.
  destruct Hin as [x [Hx Hin]]. apply filter_In in Hin.
  apply in_map_iff. exists x. tauto.
Qed.

Lemma isel_ok (d : dim) (i : nat) (a : DataArray) :
  In d (dims a) -> i < size_of d a -> exists s, isel d i a = inr s.
Proof.
  intros Hin Hi. unfold isel.
  apply mem_In in Hin. rewrite Hin. simpl.
  apply Nat.ltb_lt in Hi. rewrite Hi. simpl. eauto.
Qed.

Lemma and_then_ok {A B : Type} (a : A) (k : A -> result B) :
  and_then (inr a) k = k a.
Proof. reflexivity. Qed.

Lemma layout_names (a a' : DataArray) :
  layout a' = layout a -> map cname (coords a') = map cname (coords a).
Proof.
  unfold layout. intros H.
  apply (f_equal (map (fun x : string * list dim * list nat => fst (fst x)))) in H.
  rewrite !map_map in H. exact H.
Qed.

Lemma layout_filter_names (d : dim) (a a' : DataArray) :
  layout a' = layout a ->
  map cname (filter (fun c => list_eqb (cdims c) [d]) (coords a'))
  = map cname (filter (fun c => list_eqb (cdims c) [d]) (coords a)).
Proof.
  unfold layout.
  generalize (coords a) as l. generalize (coords a') as l'.
  induction l' as [|x r IH]; intros [|y s] H; simpl in *; try discriminate.
  - reflexivity.
  - injection H as H1 H2 H3 H4. rewrite H2.
    destruct (list_eqb (cdims y) [d]); simpl; rewrite (IH _ H4); congruence.
Qed.

Lemma filtered_coords_fit (d : dim) (t : DataArray) (n : nat) :
  labels_fit t = true -> size_of d t = n ->
  forallb (coord_fits [d] [n])
          (filter (fun c => list_eqb (cdims c) [d]) (coords t)) = true.
Proof.
  intros Hfit Hn. apply forallb_forall. intros c Hc.
  apply filter_In in Hc. destruct Hc as [Hin Hd]. apply list_eqb_eq in Hd.
  unfold labels_fit in Hfit. rewrite forallb_forall in Hfit.
  destruct (coord_fits_single _ _ _ _ (Hfit _ Hin) Hd) as [_ Hsh].
  unfold coord_fits. rewrite Hd, Hsh. simpl.
  rewrite String.eqb_refl. simpl. fold (size_of d t). rewrite Hn.
  now rewrite Nat.eqb_refl.
Qed.

Lemma layout_labels_none (x : dim) (a a' : DataArray) (k : string) :
  layout a' = layout a ->
  labels_in x (coords a') k = None <-> labels_in x (coords a) k = None.
Proof.
  unfold layout, labels_in.
  generalize (coords a) as l. generalize (coords a') as l'.
  induction l' as [|c' r' IH]; intros [|c r] H; simpl in *; try discriminate.
  - tauto.
  - injection H as H1 H2 H3 H4. rewrite H1.
    destruct (String.eqb k (cname c)); [|now apply IH].
    rewrite H2. destruct (list_eqb (cdims c) [x]); split; congruence.
Qed.

Lemma score_coords_settled (d : dim) (target t : DataArray) :
  unique_names target -> layout t = layout target ->
  settled d (coords target) ->
  gather_dim d (filter (fun c => list_eqb (cdims c) [d]) (coords t))
  = inr (filter (fun c => list_eqb (cdims c) [d]) (coords t)).
Proof.
  intros Hu Hlay Hs.
  assert (Hut : NoDup (map cname (coords t)))
    by (rewrite (layout_names _ _ Hlay); exact Hu).
  apply gather_dim_settled; [now apply NoDup_map_filter|].
  apply (settled_ext d (coords target)); [|exact Hs].
  intros k. rewrite (labels_in_filter d (coords t) k Hut).
  now apply layout_labels_none.
Qed.

(** ** XarrayCorrelation.__call__ *)

(** C5.  When, after sorting by the comparison and the collapse coordinate,
    the label sequences of prediction and target agree and the collapse
    coordinate lies on the one axis [d] in both, the call returns a score
    whose only axis is [d], with one entry per index of that axis: the
    first component of what the strategy returns on the two slices at that
    index, the second being dropped.  When the target has several
    coordinates on [d] and no index of [d], or none but that index, the
    coordinates of the score are those of the (sorted) target that lie on
    exactly [d], which are the coordinates of the target with that axis
    set.  At the failing input, a target with the one coordinate
    [neuroid_id] on the neuroid axis, the call returns a score that
    carries the labels under the name of the axis, and no coordinate
    [neuroid_id]: the constructor of the score makes a lone coordinate the
    index of its axis, which [_package_prediction] avoids by stacking and
    the call does not. *)
Theorem correlation_call_spec :
  (forall (corr : Correlation) (cc nc : string)
          (prediction target p t : DataArray) (pc tc pn tn : coord) (d : dim),
      labels_fit prediction = true -> labels_fit target = true ->
      unique_names target ->
      settled d (coords target) ->
      sortby [cc; nc] prediction = inr p ->
      sortby [cc; nc] target = inr t ->
      getitem cc p = inr pc -> getitem cc t = inr tc ->
      to_list (cvalues pc) = to_list (cvalues tc) ->
      getitem nc p = inr pn -> getitem nc t = inr tn ->
      to_list (cvalues pn) = to_list (cvalues tn) ->
      cdims tn = [d] -> cdims pn = [d] ->
      (forall i ti pi, isel d i t = inr ti -> isel d i p = inr pi ->
                       exists rp, corr ti pi = inr rp) ->
      exists score,
        correlation_call corr cc nc prediction target = inr score
        /\ dims score = [d]
        /\ shape (values score) = [size_of d target]
        /\ (forall i, i < size_of d target ->
              exists ti pi pvalue,
                isel d i t = inr ti /\ isel d i p = inr pi
                /\ corr ti pi = inr (item (values score) [i], pvalue))
        /\ coords score = filter (fun c => list_eqb (cdims c) [d]) (coords t)
        /\ map cname (coords score)
           = map cname (filter (fun c => list_eqb (cdims c) [d]) (coords target))
        /\ attrs score = attrs_nil)
  /\ (exists score,
        correlation_call toy_correlation "stimulus_id" "neuroid_id"
                         prediction_shuffled target_one = inr score
        /\ map cname (filter (fun c => list_eqb (cdims c) ["neuroid"])
                             (coords target_one)) = ["neuroid_id"]
        /\ map cname (coords score) = ["neuroid"]
        /\ labels_list "neuroid" score "neuroid" = Some [10; 20]%Z
        /\ labels_list "neuroid" score "neuroid_id" = None).
Proof.
  split; [|eexists; split; [reflexivity|]; repeat split; reflexivity].
  intros corr cc nc prediction target p t pc tc pn tn d
         Hfp Hft Hu Hset Hp Ht Hpc Htc Hceq Hpn Htn Hneq Hdt Hdp Hcorr.
  destruct (sortby_fits _ _ _ Hfp Hp) as (Pd & Psh & Play & _ & Pfit).
  destruct (sortby_fits _ _ _ Hft Ht) as (Td & Tsh & Tlay & _ & Tfit).
  destruct (getitem_fits _ _ _ _ Tfit Htn Hdt) as [Tin Tshape].
  destruct (getitem_fits _ _ _ _ Pfit Hpn Hdp) as [Pin Pshape].
  assert (Hsize : size_of d t = size_of d target)
    by (unfold size_of; now rewrite Td, Tsh).
  assert (Hn : List.length (to_list (cvalues tn)) = size_of d target)
    by (rewrite to_list_length, Tshape; exact Hsize).
  assert (Hnp : size_of d p = size_of d target).
  { rewrite <- Hn, <- Hneq, to_list_length, Pshape. reflexivity. }
  set (n := size_of d target) in *.
  set (body := fun i : nat =>
         let! target_neuroids := isel d i t in
         let! prediction_neuroids := isel d i p in
         let! rp := corr target_neuroids prediction_neuroids in
         ok (fst rp)).
  destruct (traverse_total body (seq 0 n)) as [rs Hrs].
  { intros i Hi. apply in_seq in Hi.
    destruct (isel_ok d i t Tin) as [ti Hti]; [lia|].
    destruct (isel_ok d i p Pin) as [pi Hpi]; [lia|].
    destruct (Hcorr i ti pi Hti Hpi) as [rp Hrp].
    exists (fst rp). unfold body. rewrite Hti, and_then_ok, Hpi, and_then_ok, Hrp.
    reflexivity. }
  destruct (traverse_seq_nth body n rs 0%Z Hrs) as [Hlen Hnth].
  assert (Hut : NoDup (map cname (coords t)))
    by (rewrite (layout_names _ _ Tlay); exact Hu).
  exists (mk_DataArray [d] (of_list rs)
            (filter (fun c => list_eqb (cdims c) [d]) (coords t)) attrs_nil).
  split.
  - unfold correlation_call.
    rewrite Hp, and_then_ok, Ht, and_then_ok, Hpc, and_then_ok, Htc, and_then_ok.
    rewrite Hceq, all_equal_refl. unfold assert_ at 1. rewrite and_then_ok.
    rewrite Hpn, and_then_ok, Htn, and_then_ok.
    rewrite Hneq, all_equal_refl. unfold assert_ at 1. rewrite and_then_ok.
    rewrite Hdt. simpl List.length. simpl hd. rewrite Nat.eqb_refl.
    unfold assert_ at 1. rewrite and_then_ok.
    rewrite Hn. fold body. rewrite Hrs, and_then_ok.
    unfold walk_coords. rewrite fold_coords_set_app.
    + simpl app. unfold new_Assembly, new_DataArray. simpl shape. rewrite Hlen.
      rewrite (filtered_coords_fit d t n Tfit Hsize). simpl.
      unfold gather_indexes. simpl.
      rewrite (score_coords_settled d target t Hu Tlay Hset). reflexivity.
    + simpl app. now apply NoDup_map_filter.
  - simpl. split; [reflexivity|]. split; [now rewrite Hlen|].
    split; [|split; [reflexivity|split; [|reflexivity]]].
    + intros i Hi.
      destruct (isel_ok d i t Tin) as [ti Hti]; [lia|].
      destruct (isel_ok d i p Pin) as [pi Hpi]; [lia|].
      destruct (Hcorr i ti pi Hti Hpi) as [[r pvalue] Hrp].
      exists ti, pi, pvalue. split; [exact Hti|]. split; [exact Hpi|].
      specialize (Hnth i Hi). unfold body in Hnth.
      rewrite Hti, and_then_ok, Hpi, and_then_ok, Hrp in Hnth.
      simpl in Hnth. injection Hnth as Hr. rewrite Hrp. now rewrite <- Hr.
    + now apply layout_filter_names.
Qed.

Lemma correlation_call_spec_witness :
  exists score,
    correlation_call toy_correlation "stimulus_id" "neuroid_id"
                     prediction_shuffled target_two = inr score
    /\ dims score = ["neuroid"]
    /\ shape (values score) = [2]
    /\ map cname (coords score) = ["neuroid_id"; "area"].
Proof.
  assert (Hu : unique_names target_two)
    by (unfold unique_names; simpl; apply nodup_b_spec; reflexivity).
  assert (Hs : settled "neuroid" (coords target_two)).
  { right. split; [reflexivity|]. exists "neuroid_id"%string, "area"%string.
    repeat split; discriminate. }
  edestruct (proj1 correlation_call_spec toy_correlation "stimulus_id"
               "neuroid_id" prediction_shuffled target_two)
    with (d := "neuroid"%string)
    as (score & H1 & H2 & H3 & _ & _ & H4 & _).
  - reflexivity.
  - reflexivity.
  - exact Hu.
  - exact Hs.
  - reflexivity.
  - reflexivity.
  - reflexivity.
  - reflexivity.
  - reflexivity.
  - reflexivity.
  - reflexivity.
  - reflexivity.
  - reflexivity.
  - reflexivity.
  - intros i ti pi _ _. unfold toy_correlation. eexists. reflexivity.
  - exists score. repeat split; assumption.
Defined.

(** ** recursive_op *)

Lemma attrs_get_set (k k' : string) (v : attr_value) (t : attr_dict) :
  attrs_get k (attrs_set k' v t)
  = if String.eqb k k' then Some v else attrs_get k t.
Proof.
  induction t as [|k0 v0 rest IH]; simpl.
  - reflexivity.
  - destruct (String.eqb_spec k' k0) as [->|Hne]; simpl.
    + destruct (String.eqb k k0); reflexivity.
    + rewrite IH. destruct (String.eqb_spec k k0) as [->|Hne'].
      * destruct (String.eqb_spec k0 k'); [congruence | reflexivity].
      * reflexivity.
Qed.

Lemma attrs_get_None (k : string) (t : attr_dict) :
  ~ In k (attrs_keys t) -> attrs_get k t = None.
Proof.
  induction t as [|k0 v0 rest IH]; simpl; [reflexivity|].
  intros H. destruct (String.eqb_spec k k0) as [->|Hne].
  - exfalso. apply H. now left.
  - apply IH. intros Hin. apply H. now right.
Qed.

Lemma attrs_get_keys (k : string) (t : attr_dict) (v : attr_value) :
  attrs_get k t = Some v -> In k (attrs_keys t).
Proof.
  induction t as [|k0 v0 rest IH]; simpl; [discriminate|].
  destruct (String.eqb_spec k k0) as [->|Hne]; [now left|].
  intros H. right. now apply IH.
Qed.

Lemma attrs_loop_spec (op : Op) (others : list attr_value) (t : attr_dict) :
  NoDup (attrs_keys t) ->
  forall acc t', attrs_loop op t others acc = inr t' ->
  (forall k v, attrs_get k t = Some v ->
               combined_under op others k v (attrs_get k t'))
  /\ (forall k, attrs_get k t = None -> attrs_get k t' = attrs_get k acc).
Proof.
  induction t as [|k0 v0 rest IH]; simpl; intros Hnd acc t' H.
  - injection H as <-. split; [discriminate | reflexivity].
  - inversion Hnd as [|? ? Hnin Hnd']; subst.
    match type of H with
    | and_then ?n _ = _ => destruct n as [e|val0] eqn:E0; simpl in H; [discriminate|]
    end.
    destruct (IH Hnd' _ _ H) as [IHa IHb].
    split.
    + intros k v Hk. destruct (String.eqb_spec k k0) as [->|Hne].
      * injection Hk as <-.
        rewrite (IHb k0 (attrs_get_None _ _ Hnin)), attrs_get_set, String.eqb_refl.
        destruct v0 as [a|z]; simpl.
        -- destruct (traverse (operand_attr k0) others) as [e|attr_arrs] eqn:Et;
             simpl in E0; [discriminate|].
           destruct (recursive_op op a attr_arrs) as [e|r] eqn:Er; simpl in E0;
             [discriminate|].
           injection E0 as <-. exists attr_arrs, r. auto.
        -- now injection E0 as <-.
      * now apply IHa.
    + intros k Hk. destruct (String.eqb k k0) eqn:Ek; [discriminate|].
      rewrite (IHb k Hk), attrs_get_set. now rewrite Ek.
Qed.

Lemma recursive_op_unfold (op : Op) (arr0 : DataArray) (others : list attr_value) :
  recursive_op op arr0 others
  = (let! val := op (AttrArray arr0 :: others) in
     let! t := attrs_loop op (attrs arr0) others (attrs val) in
     ok (with_attrs t val)).
Proof. destruct arr0. reflexivity. Qed.

Lemma traverse_raises {A B : Type} (f : A -> result B) (l : list A) (e : exn) :
  traverse f l = inl e -> exists x, In x l /\ f x = inl e.
Proof.
  induction l as [|x r IH]; simpl; intros H; [discriminate|].
  destruct (f x) as [e'|y] eqn:Ex; simpl in H.
  - inversion H; subst. exists x. split; [now left | exact Ex].
  - destruct (traverse f r) as [e'|ys]; simpl in H; [|discriminate].
    inversion H; subst. destruct (IH eq_refl) as (x' & Hin & Hx').
    exists x'. split; [now right | exact Hx'].
Qed.

Lemma traverse_fails {A B : Type} (f : A -> result B) (l : list A) (x : A) :
  In x l -> failed (f x) -> failed (traverse f l).
Proof.
  induction l as [|y r IH]; simpl; intros Hin Hf; [tauto|].
  destruct (f y) as [e|b] eqn:Ey; simpl; [now exists e|].
  destruct Hin as [->|Hin].
  - destruct Hf as [e He]. congruence.
  - destruct (IH Hin Hf) as [e He]. rewrite He. now exists e.
Qed.

Lemma attrs_loop_missing (op : Op) (others : list attr_value) (k : string)
    (a : DataArray) (o : attr_value) (t : attr_dict) :
  In (k, AttrArray a) (attrs_items t) -> In o others ->
  failed (operand_attr k o) ->
  forall acc, failed (attrs_loop op t others acc).
Proof.
  intros Hin Ho Hf.
  induction t as [|k0 v0 rest IH]; simpl in *; intros acc; [tauto|].
  match goal with
  | |- failed (and_then ?n _) => destruct n as [e|val0] eqn:E0; simpl
  end; [now exists e|].
  destruct Hin as [He|Hin].
  - injection He as -> ->. simpl in E0.
    destruct (traverse_fails _ _ _ Ho Hf) as [e He]. rewrite He in E0.
    discriminate.
  - now apply IH.
Qed.

Scheme DataArray_mut := Induction for DataArray Sort Prop
  with attr_dict_mut := Induction for attr_dict Sort Prop
  with attr_value_mut := Induction for attr_value Sort Prop.

Lemma same_tree_traverse (k : string) (a : DataArray) (others : list attr_value) :
  Forall (fun o => exists b', o = AttrArray b'
                   /\ exists vb, attrs_get k (attrs b') = Some vb /\ same_tree a vb)
         others ->
  exists attr_arrs,
    traverse (operand_attr k) others = inr attr_arrs
    /\ Forall (same_tree a) attr_arrs.
Proof.
  induction 1 as [|o r Ho _ IH]; simpl.
  - exists []. split; [reflexivity | constructor].
  - destruct Ho as (b' & -> & vb & Hvb & Hs).
    destruct IH as (attr_arrs & Ht & Hall).
    exists (vb :: attr_arrs). simpl. rewrite Hvb. simpl. rewrite Ht. simpl.
    split; [reflexivity | now constructor].
Qed.

Lemma recursive_op_returns (op : Op) :
  returns_always op ->
  forall arr0 others, Forall (same_tree arr0) others ->
  exists r, recursive_op op arr0 others = inr r.
Proof.
  intros Hop.
  apply (DataArray_mut
    (fun a => forall others, Forall (same_tree a) others ->
                             exists r, recursive_op op a others = inr r)
    (fun t => forall others acc,
                Forall (fun o => exists b', o = AttrArray b' /\ same_attrs t b')
                       others ->
                exists t', attrs_loop op t others acc = inr t')
    (fun v => match v with
              | AttrArray a =>
                  forall others, Forall (same_tree a) others ->
                                 exists r, recursive_op op a others = inr r
              | AttrPlain _ => True
              end)).
  - intros ds v cs t IHt others Hall.
    rewrite recursive_op_unfold. simpl attrs.
    destruct (Hop (AttrArray (mk_DataArray ds v cs t) :: others)) as [val Hval].
    rewrite Hval, and_then_ok.
    destruct (IHt others (attrs val)) as [t' Ht'].
    + eapply Forall_impl; [|exact Hall].
      intros o Ho. simpl in Ho. destruct o as [b'|z]; [|contradiction].
      exists b'. split; [reflexivity | apply Ho].
    + rewrite Ht'. simpl. eauto.
  - intros others acc _. simpl. eauto.
  - intros k v IHv rest IHrest others acc Hall. simpl.
    assert (Hrest : Forall (fun o => exists b', o = AttrArray b'
                                     /\ same_attrs rest b') others).
    { eapply Forall_impl; [|exact Hall].
      intros o (b' & -> & Hs). simpl in Hs. exists b'. tauto. }
    destruct v as [a|z].
    + destruct (same_tree_traverse k a others) as (attr_arrs & Htr & Hsame).
      { eapply Forall_impl; [|exact Hall].
        intros o (b' & -> & Hs). simpl in Hs. exists b'. tauto. }
      rewrite Htr, and_then_ok.
      destruct (IHv attr_arrs Hsame) as [r Hr].
      rewrite Hr. simpl. now apply IHrest.
    + simpl. now apply IHrest.
  - intros a IHa. exact IHa.
  - intros z. exact I.
Qed.

Lemma supplies_traverse (k : string) (a : DataArray) (others : list attr_value) :
  Forall (fun o => exists vb, operand_attr k o = inr vb /\ supplies a vb) others ->
  exists attr_arrs,
    traverse (operand_attr k) others = inr attr_arrs
    /\ Forall (supplies a) attr_arrs.
Proof.
  induction 1 as [|o r (vb & Hvb & Hs) _ IH]; simpl.
  - exists []. split; [reflexivity | constructor].
  - destruct IH as (attr_arrs & Ht & Hall).
    exists (vb :: attr_arrs). rewrite Hvb. simpl. rewrite Ht. simpl.
    split; [reflexivity | now constructor].
Qed.

Lemma traverse_supplies (k : string) (a : DataArray) (others attr_arrs : list attr_value) :
  traverse (operand_attr k) others = inr attr_arrs ->
  Forall (supplies a) attr_arrs ->
  Forall (fun o => exists vb, operand_attr k o = inr vb /\ supplies a vb) others.
Proof.
  revert attr_arrs. induction others as [|o r IH]; intros attr_arrs Ht Hall;
    [constructor|].
  simpl in Ht. destruct (operand_attr k o) as [e|vb] eqn:Eo; simpl in Ht;
    [discriminate|].
  destruct (traverse (operand_attr k) r) as [e|vs] eqn:Er; simpl in Ht;
    [discriminate|].
  inversion Ht; subst attr_arrs. inversion Hall as [|? ? Hvb Hvs]; subst.
  constructor; [now exists vb | now apply (IH vs)].
Qed.

Lemma operand_attr_raises (k : string) (o : attr_value) (e : exn) :
  operand_attr k o = inl e -> e = KeyError \/ e = AttributeError.
Proof.
  unfold operand_attr. destruct o as [a|z].
  - destruct (attrs_get k (attrs a)); [discriminate|]. inversion 1. now left.
  - inversion 1. now right.
Qed.

(** with an operation that returns, the operands that supply what is asked
    of them are those on which [recursive_op] returns *)
Lemma recursive_op_supplied (op : Op) :
  returns_always op ->
  forall arr0 others, Forall (supplies arr0) others ->
  exists r, recursive_op op arr0 others = inr r.
Proof.
  intros Hop.
  apply (DataArray_mut
    (fun a => forall others, Forall (supplies a) others ->
                             exists r, recursive_op op a others = inr r)
    (fun t => forall others acc, Forall (supplies_attrs t) others ->
                exists t', attrs_loop op t others acc = inr t')
    (fun v => match v with
              | AttrArray a =>
                  forall others, Forall (supplies a) others ->
                                 exists r, recursive_op op a others = inr r
              | AttrPlain _ => True
              end)).
  - intros ds v cs t IHt others Hall.
    rewrite recursive_op_unfold. simpl attrs.
    destruct (Hop (AttrArray (mk_DataArray ds v cs t) :: others)) as [val Hval].
    rewrite Hval, and_then_ok.
    destruct (IHt others (attrs val) Hall) as [t' Ht'].
    rewrite Ht'. simpl. eauto.
  - intros others acc _. simpl. eauto.
  - intros k v IHv rest IHrest others acc Hall. simpl.
    assert (Hrest : Forall (supplies_attrs rest) others).
    { eapply Forall_impl; [|exact Hall]. intros o Ho. simpl in Ho. tauto. }
    destruct v as [a|z].
    + destruct (supplies_traverse k a others) as (attr_arrs & Htr & Hsup).
      { eapply Forall_impl; [|exact Hall]. intros o Ho. simpl in Ho. tauto. }
      rewrite Htr, and_then_ok.
      destruct (IHv attr_arrs Hsup) as [r Hr].
      rewrite Hr. simpl. now apply IHrest.
    + simpl. now apply IHrest.
  - intros a IHa. exact IHa.
  - intros z. exact I.
Qed.

Lemma recursive_op_supplies (op : Op) :
  forall arr0 others r, recursive_op op arr0 others = inr r ->
                        Forall (supplies arr0) others.
Proof.
  apply (DataArray_mut
    (fun a => forall others r, recursive_op op a others = inr r ->
                               Forall (supplies a) others)
    (fun t => forall others acc t', attrs_loop op t others acc = inr t' ->
                                    Forall (supplies_attrs t) others)
    (fun v => match v with
              | AttrArray a =>
                  forall others r, recursive_op op a others = inr r ->
                                   Forall (supplies a) others
              | AttrPlain _ => True
              end)).
  - intros ds v cs t IHt others r Hr.
    rewrite recursive_op_unfold in Hr. simpl attrs in Hr.
    destruct (op _) as [e|val]; simpl in Hr; [discriminate|].
    destruct (attrs_loop op t others (attrs val)) as [e|t'] eqn:El;
      simpl in Hr; [discriminate|].
    simpl. exact (IHt others (attrs val) t' El).
  - intros others acc t' _. apply Forall_forall. intros o _. exact I.
  - intros k v IHv rest IHrest others acc t' H. simpl in H.
    destruct v as [a|z].
    + destruct (traverse (operand_attr k) others) as [e|attr_arrs] eqn:Et;
        simpl in H; [discriminate|].
      destruct (recursive_op op a attr_arrs) as [e|r] eqn:Er; simpl in H;
        [discriminate|].
      pose proof (traverse_supplies k a others attr_arrs Et (IHv _ _ Er)) as H1.
      pose proof (IHrest _ _ _ H) as H2.
      rewrite Forall_forall in *. intros o Ho. simpl.
      split; [now apply H1 | now apply H2].
    + simpl in H. pose proof (IHrest _ _ _ H) as H2.
      rewrite Forall_forall in *. intros o Ho. simpl.
      split; [exact I | now apply H2].
  - intros a IHa. exact IHa.
  - intros z. exact I.
Qed.

Lemma recursive_op_raises (op : Op) :
  returns_always op ->
  forall arr0 others e, recursive_op op arr0 others = inl e ->
                        e = KeyError \/ e = AttributeError.
Proof.
  intros Hop.
  apply (DataArray_mut
    (fun a => forall others e, recursive_op op a others = inl e ->
                               e = KeyError \/ e = AttributeError)
    (fun t => forall others acc e, attrs_loop op t others acc = inl e ->
                                   e = KeyError \/ e = AttributeError)
    (fun v => match v with
              | AttrArray a =>
                  forall others e, recursive_op op a others = inl e ->
                                   e = KeyError \/ e = AttributeError
              | AttrPlain _ => True
              end)).
  - intros ds v cs t IHt others e Hr.
    rewrite recursive_op_unfold in Hr. simpl attrs in Hr.
    destruct (Hop (AttrArray (mk_DataArray ds v cs t) :: others)) as [val Hval].
    rewrite Hval in Hr. simpl in Hr.
    destruct (attrs_loop op t others (attrs val)) as [e'|t'] eqn:El;
      simpl in Hr; [|discriminate].
    inversion Hr; subst. exact (IHt _ _ _ El).
  - intros others acc e H. discriminate.
  - intros k v IHv rest IHrest others acc e H. simpl in H.
    destruct v as [a|z].
    + destruct (traverse (operand_attr k) others) as [e'|attr_arrs] eqn:Et;
        simpl in H.
      { inversion H; subst. apply traverse_raises in Et.
        destruct Et as (o & _ & Ho). now apply (operand_attr_raises k o). }
      destruct (recursive_op op a attr_arrs) as [e'|r] eqn:Er; simpl in H.
      { inversion H; subst. exact (IHv _ _ Er). }
      exact (IHrest _ _ _ H).
    + simpl in H. exact (IHrest _ _ _ H).
  - intros a IHa. exact IHa.
  - intros z. exact I.
Qed.

(** C7 (amended).  [recursive_op] compares no key sets and has no error of
    its own.  [op] runs first, on the operands, and what it raises is
    raised.  With an [op] that always returns, the call returns exactly
    when every other operand supplies, at every depth the recursion
    reaches, a value under each name where the first operand holds a nested
    array, and it raises [KeyError] (a missing name) or [AttributeError]
    (an operand that is not an array) otherwise; names held only by other
    operands and names where the first operand holds a plain value are not
    looked up.  In particular it raises when an operand lacks such a name
    of the first operand itself, and returns when every operand has the
    attribute tree of the first.  Whenever it returns, the result is the
    array returned by [op] on the operands, carrying under every attribute
    name of the first operand the combination of the operands' nested
    arrays under that name (or the first operand's own value when that is
    not an array), and elsewhere the attributes [op] returned. *)
Theorem recursive_op_spec (op : Op) (arr0 : DataArray) (others : list attr_value)
    (Hnd : NoDup (attrs_keys (attrs arr0))) :
  (forall e, op (AttrArray arr0 :: others) = inl e ->
             recursive_op op arr0 others = inl e)
  /\ (returns_always op ->
      ((exists r, recursive_op op arr0 others = inr r)
       <-> Forall (supplies arr0) others)
      /\ (forall e, recursive_op op arr0 others = inl e ->
                    e = KeyError \/ e = AttributeError))
  /\ (forall k a o,
        In (k, AttrArray a) (attrs_items (attrs arr0)) -> In o others ->
        failed (operand_attr k o) ->
        failed (recursive_op op arr0 others))
  /\ (returns_always op -> Forall (same_tree arr0) others ->
      exists r, recursive_op op arr0 others = inr r)
  /\ (forall r, recursive_op op arr0 others = inr r ->
      exists val,
        op (AttrArray arr0 :: others) = inr val
        /\ dims r = dims val /\ values r = values val /\ coords r = coords val
        /\ (forall k v, attrs_get k (attrs arr0) = Some v ->
                        combined_under op others k v (attrs_get k (attrs r)))
        /\ (forall k, attrs_get k (attrs arr0) = None ->
                      attrs_get k (attrs r) = attrs_get k (attrs val))).
Proof.
  split; [|split; [|split; [|split]]].
  - intros e He. rewrite recursive_op_unfold, He. reflexivity.
  - intros Hop. split.
    + split.
      * intros [r Hr]. exact (recursive_op_supplies op arr0 others r Hr).
      * apply (recursive_op_supplied op Hop).
    + intros e. apply (recursive_op_raises op Hop).
  - intros k a o Hin Ho Hf. rewrite recursive_op_unfold.
    destruct (op (AttrArray arr0 :: others)) as [e|val]; simpl; [now exists e|].
    destruct (attrs_loop_missing op others k a o _ Hin Ho Hf (attrs val)) as [e He].
    rewrite He. now exists e.
  - intros Hop Hall. now apply recursive_op_returns.
  - intros r Hr. rewrite recursive_op_unfold in Hr.
    destruct (op (AttrArray arr0 :: others)) as [e|val]; simpl in Hr;
      [discriminate|].
    destruct (attrs_loop op (attrs arr0) others (attrs val)) as [e|t'] eqn:El;
      simpl in Hr; [discriminate|].
    injection Hr as <-. exists val. simpl.
    destruct (attrs_loop_spec op others _ Hnd _ _ El) as [Ha Hb].
    repeat split; assumption.
Qed.

Lemma recursive_op_spec_witness :
  recursive_op toy_op annotated [AttrArray bare] = inl KeyError
  /\ exists r, recursive_op toy_op annotated [AttrArray annotated] = inr r.
Proof.
  assert (Hnd : NoDup (attrs_keys (attrs annotated)))
    by (apply nodup_b_spec; reflexivity).
  assert (Hop : returns_always toy_op).
  { intros arrs. unfold toy_op. destruct arrs as [|[a|z] r]; eauto. }
  split.
  - destruct (recursive_op_spec toy_op annotated [AttrArray bare] Hnd)
      as (_ & H & _).
    destruct (H Hop) as [[Hiff _] Hkind].
    destruct (recursive_op toy_op annotated [AttrArray bare]) as [e|r] eqn:E.
    + destruct (Hkind e eq_refl) as [->| ->]; [reflexivity|].
      vm_compute in E. discriminate.
    + exfalso. assert (Hs : Forall (supplies annotated) [AttrArray bare])
        by (apply Hiff; now exists r).
      inversion Hs as [|? ? H1 _]; subst. simpl in H1.
      destruct H1 as [(vb & Hvb & _) _]. discriminate.
  - destruct (recursive_op_spec toy_op annotated [AttrArray annotated] Hnd)
      as (_ & H & _).
    destruct (H Hop) as [[_ Hiff] _]. apply Hiff.
    constructor; [|constructor]. simpl. split; [|exact I].
    exists (AttrArray bare). split; [reflexivity|]. simpl. exact I.
Defined.

(** C7, as stated, fails: the second operand has an attribute the first one
    lacks, so the key sets differ, and the call returns. *)
Lemma recursive_op_counterexample :
  ~ set_equal (attrs_keys (attrs bare)) (attrs_keys (attrs annotated))
  /\ exists r, recursive_op toy_op bare [AttrArray annotated] = inr r
               /\ attrs r = attrs_nil.
Proof.
  split.
  - intros H. destruct (H "m") as [_ H2]. apply H2. simpl. now left.
  - eexists. split; reflexivity.
Qed.

(** ** apply_over_dims: the reassembly *)

Lemma held_under_append (k k' : string) (v : DataArray)
    (m : list (string * list DataArray)) :
  held_under k (append_at k' v m)
  = held_under k m + (if String.eqb k k' then 1 else 0).
Proof.
  induction m as [|[k0 vs] rest IH]; simpl.
  - destruct (String.eqb k k'); reflexivity.
  - destruct (String.eqb_spec k' k0) as [->|Hne]; simpl.
    + destruct (String.eqb k k0); [|lia]. rewrite length_app. simpl. lia.
    + destruct (String.eqb_spec k k0) as [->|Hne'].
      * destruct (String.eqb_spec k0 k'); [congruence | lia].
      * exact IH.
Qed.

Lemma append_at_entries (k' : string) (v : DataArray)
    (m : list (string * list DataArray)) (P : DataArray -> Prop) :
  P v -> Forall (fun kv => Forall P (snd kv)) m ->
  Forall (fun kv => Forall P (snd kv)) (append_at k' v m).
Proof.
  intros Hv. induction 1 as [|[k0 vs] rest H0 Hrest IH]; simpl.
  - repeat constructor. exact Hv.
  - destruct (String.eqb k' k0).
    + constructor; [|assumption]. simpl in *. apply Forall_app. split; auto.
    + constructor; assumption.
Qed.

Lemma expand_dims_unit (d : dim) (a e : DataArray) :
  expand_dims d a = inr e -> unit_along d e.
Proof.
  unfold expand_dims. destruct (mem d (dims a)); [discriminate|].
  destruct (has_labels_named d a); [discriminate|].
  intros H. injection H as <-. split; reflexivity.
Qed.

Lemma collect_attrs_spec (d : dim) (t : attr_dict) :
  NoDup (attrs_keys t) ->
  forall acc acc', collect_attrs d t acc = inr acc' ->
  (forall k, held_under k acc'
             = held_under k acc + (if mem k (attrs_keys t) then 1 else 0))
  /\ (Forall (fun kv => Forall (unit_along d) (snd kv)) acc ->
      Forall (fun kv => Forall (unit_along d) (snd kv)) acc').
Proof.
  induction t as [|k0 v0 rest IH]; simpl; intros Hnd acc acc' H.
  - injection H as <-. split; [intros k; lia | auto].
  - inversion Hnd as [|? ? Hnin Hnd']; subst.
    destruct v0 as [a|z]; [|discriminate].
    destruct (expand_dims d a) as [e|ex] eqn:Ee; simpl in H; [discriminate|].
    destruct (IH Hnd' _ _ H) as [IHa IHb]. split.
    + intros k. rewrite IHa, held_under_append.
      destruct (String.eqb_spec k k0) as [->|Hne]; simpl.
      * apply mem_false in Hnin. rewrite Hnin. lia.
      * lia.
    + intros Hall. apply IHb. apply append_at_entries; [|exact Hall].
      eapply expand_dims_unit. exact Ee.
Qed.

Lemma collect_spec (d : dim) (results : list (option DataArray)) :
  Forall (fun r => NoDup (attrs_keys (attrs r))) (survivors results) ->
  forall xarr0 acc0 xarr acc,
    collect d results xarr0 acc0 = inr (xarr, acc) ->
    xarr = xarr0 ++ survivors results
    /\ (forall k, held_under k acc
                  = held_under k acc0
                    + List.length (filter (has_attr k) (survivors results)))
    /\ (Forall (fun kv => Forall (unit_along d) (snd kv)) acc0 ->
        Forall (fun kv => Forall (unit_along d) (snd kv)) acc).
Proof.
  induction results as [|[arr|] rest IH]; simpl; intros Hnd xarr0 acc0 xarr acc H.
  - injection H as <- <-. rewrite app_nil_r. repeat split; auto.
  - inversion Hnd as [|? ? Hn Hnd']; subst.
    destruct (collect_attrs d (attrs arr) acc0) as [e|acc1] eqn:E1; simpl in H;
      [discriminate|].
    destruct (collect_attrs_spec d _ Hn _ _ E1) as [Ha Hb].
    destruct (IH Hnd' _ _ _ _ H) as (I1 & I2 & I3).
    split; [rewrite I1, <- app_assoc; reflexivity|]. split.
    + intros k. rewrite I2, Ha. simpl filter.
      destruct (has_attr k arr) eqn:Eh; unfold has_attr in Eh; rewrite Eh;
        simpl; lia.
    + auto.
  - now apply IH.
Qed.

Lemma nth_set_nth_0 (x : nat) (l : list nat) :
  l <> [] -> nth 0 (set_nth 0 x l) 0 = x.
Proof. destruct l; [congruence | reflexivity]. Qed.

Lemma unit_along_index (d : dim) (v : DataArray) :
  unit_along d v ->
  index_of d (dims v) = 0 /\ mem d (dims v) = true
  /\ nth 0 (shape (values v)) 0 = 1 /\ shape (values v) <> [].
Proof.
  intros [H1 H2].
  destruct (dims v) as [|x r]; simpl in H1; [discriminate|]. injection H1 as ->.
  destruct (shape (values v)) as [|n s]; simpl in H2; [discriminate|].
  injection H2 as ->.
  simpl. rewrite String.eqb_refl. repeat split. discriminate.
Qed.

(** concatenating [n] arrays that each have one entry along [d] gives [n]
    entries along [d] *)
Lemma concat_units (d : dim) (vs : list DataArray) (v : DataArray) :
  Forall (unit_along d) vs -> concat d vs = inr v ->
  index_of d (dims v) = 0 /\ mem d (dims v) = true
  /\ nth 0 (shape (values v)) 0 = List.length vs.
Proof.
  intros Hall H. unfold concat in H.
  destruct vs as [|a0 rest]; [discriminate|].
  destruct (negb (forallb (fun a => list_eqb (dims a) (dims a0)) (a0 :: rest)));
    [discriminate|].
  inversion Hall as [|? ? Ha0 Hrest]; subst.
  destruct (unit_along_index d a0 Ha0) as (Hi & Hm & Hn & Hne).
  rewrite Hm in H.
  destruct (traverse (concat_coord_old d (a0 :: rest)) (coords a0)) as [e|cs];
    simpl in H; [discriminate|].
  injection H as <-. simpl dims. simpl values. rewrite Hi.
  split; [reflexivity|]. split; [exact Hm|].
  assert (Hsum : forall l, Forall (unit_along d) l ->
            list_sum (map (fun x => nth 0 (shape x) 0) (map values l))
            = List.length l).
  { induction 1 as [|x l Hx _ IHl]; simpl; [reflexivity|].
    destruct (unit_along_index d x Hx) as (_ & _ & Hx1 & _).
    rewrite Hx1, IHl. reflexivity. }
  unfold concat_nd. simpl shape.
  destruct (shape (values a0)) as [|n r]; [congruence|].
  simpl in Hn. subst n. simpl. now rewrite (Hsum rest Hrest).
Qed.

Lemma assign_coords_size (d : dim) (c : coord) (cs : list coord) (n : nat)
    (v v' : DataArray) :
  cdims c = [d] -> shape (cvalues c) = [n] ->
  assign_coords (c :: cs) v = inr v' ->
  nth (index_of d (dims v)) (shape (values v)) 0 = n.
Proof.
  intros Hd Hs H. unfold assign_coords in H.
  destruct (forallb (coord_fits (dims v) (shape (values v))) (c :: cs)) eqn:E;
    [|discriminate].
  simpl in E. apply andb_true_iff in E. destruct E as [E _].
  destruct (coord_fits_single _ _ _ _ E Hd) as [_ Hsh].
  rewrite Hs in Hsh. now injection Hsh as ->.
Qed.

Lemma attach_inv (cs : list coord) (items : list (string * DataArray)) :
  forall xarr out, attach cs items xarr = inr out ->
  Forall (fun kv => exists v', assign_coords cs (snd kv) = inr v') items.
Proof.
  induction items as [|[k v] rest IH]; simpl; intros xarr out H; [constructor|].
  destruct (assign_coords cs v) as [e|v'] eqn:Ea; simpl in H; [discriminate|].
  constructor; [simpl; eauto | eapply IH; exact H].
Qed.

Lemma held_under_uniform (n : nat) (m : list (string * list DataArray)) (k : string) :
  Forall (fun kv => List.length (snd kv) = n) m ->
  held_under k m = n \/ held_under k m = 0.
Proof.
  induction 1 as [|[k0 vs] rest H0 _ IH]; simpl; [now right|].
  destruct (String.eqb k k0); [now left | exact IH].
Qed.

Lemma survivors_In (results : list (option DataArray)) (r : DataArray) :
  In (Some r) results <-> In r (survivors results).
Proof.
  induction results as [|[arr|] rest IH]; simpl.
  - tauto.
  - rewrite <- IH. split; intros [H|H]; auto; left; congruence.
  - rewrite <- IH. split; [intros [H|H]; [discriminate | assumption] | auto].
Qed.

Lemma survivors_length (results : list (option DataArray)) :
  List.length (survivors results) <= List.length results.
Proof.
  induction results as [|[arr|] rest IH]; simpl; lia.
Qed.

Lemma filter_length_full {A : Type} (f : A -> bool) (l : list A) :
  List.length l <= List.length (filter f l) -> forall x, In x l -> f x = true.
Proof.
  induction l as [|y r IH]; simpl; intros H x Hin; [tauto|].
  pose proof (filter_length_le f r) as Hle.
  destruct (f y) eqn:Ey; simpl in H.
  - destruct Hin as [->|Hin]; [exact Ey | apply IH; [lia | exact Hin]].
  - lia.
Qed.

Lemma axis_coordinate_inv (d : dim) (a : DataArray) (cs : list coord) :
  labels_fit a = true -> axis_names_reserved a -> In d (dims a) ->
  axis_coordinate d a = inr cs ->
  exists c rest, cs = c :: rest /\ cdims c = [d]
                 /\ shape (cvalues c) = [size_of d a].
Proof.
  intros Hfit Hres Hin H. unfold axis_coordinate in H.
  destruct (getitem d a) as [e|c] eqn:Eg; simpl in H; [discriminate|].
  injection H as <-. exists c. eexists. split; [reflexivity|].
  assert (Hd : cdims c = [d]).
  { unfold getitem in Eg. destruct (coords_get d (coords a)) as [c0|] eqn:E.
    - injection Eg as <-. apply coords_get_In in E. destruct E as [Hc Hn].
      rewrite <- Hn. apply Hres; [exact Hc | now rewrite Hn].
    - destruct (mem d (dims a)); [|discriminate]. now injection Eg as <-. }
  split; [exact Hd|].
  now destruct (getitem_fits _ _ _ _ Hfit Eg Hd).
Qed.

Lemma reassemble_uniform (d : dim) (asm0 : DataArray)
    (results : list (option DataArray)) (out : DataArray) :
  labels_fit asm0 = true -> axis_names_reserved asm0 -> In d (dims asm0) ->
  Forall (fun r => NoDup (attrs_keys (attrs r))) (survivors results) ->
  reassemble d asm0 results = inr (Some out) ->
  forall k, List.length (filter (has_attr k) (survivors results)) = size_of d asm0
            \/ List.length (filter (has_attr k) (survivors results)) = 0.
Proof.
  intros Hfit Hres Hin Hnd H k. unfold reassemble in H.
  destruct (collect d results [] []) as [e|[xarr acc]] eqn:Ec; simpl in H;
    [discriminate|].
  destruct (collect_spec d results Hnd _ _ _ _ Ec) as (_ & Hcount & Hunits).
  specialize (Hunits (Forall_nil _)).
  destruct xarr as [|x0 xrest]; [discriminate|].
  destruct (concat d (x0 :: xrest)) as [e|x1]; simpl in H; [discriminate|].
  match type of H with
  | and_then ?n _ = _ => destruct n as [e|items] eqn:Ei; simpl in H; [discriminate|]
  end.
  destruct (axis_coordinate d asm0) as [e|cs] eqn:Ea; simpl in H; [discriminate|].
  destruct (axis_coordinate_inv _ _ _ Hfit Hres Hin Ea) as (c & crest & -> & Hcd & Hcs).
  destruct (assign_coords (c :: crest) x1) as [e|x2]; simpl in H; [discriminate|].
  destruct (attach (c :: crest) items x2) as [e|x3] eqn:Et; simpl in H;
    [discriminate|].
  apply attach_inv in Et. apply traverse_Forall2 in Ei.
  assert (Hlen : Forall (fun kv => List.length (snd kv) = size_of d asm0) acc).
  { clear Hcount Ec. revert Hunits Et.
    induction Ei as [|[k0 vs] [k1 v] acc' items' Hhd _ IH]; intros Hunits Et;
      [constructor|].
    inversion Hunits as [|? ? Hu Hunits']; subst.
    inversion Et as [|? ? [v' Hv'] Et']; subst.
    constructor; [|now apply IH].
    simpl in *.
    destruct (concat d vs) as [e|v0] eqn:Ecv; simpl in Hhd; [discriminate|].
    injection Hhd as _ <-.
    destruct (concat_units d vs v0 Hu Ecv) as (Hi & _ & Hn).
    pose proof (assign_coords_size d c crest _ v0 v' Hcd Hcs Hv') as Hsz.
    rewrite Hi in Hsz. congruence. }
  specialize (Hcount k). simpl in Hcount. rewrite <- Hcount.
  now apply held_under_uniform.
Qed.

Lemma reassemble_same_names (d : dim) (asm0 : DataArray)
    (results : list (option DataArray)) (out : option DataArray) :
  labels_fit asm0 = true -> axis_names_reserved asm0 -> In d (dims asm0) ->
  List.length results = size_of d asm0 ->
  Forall (fun r => NoDup (attrs_keys (attrs r))) (survivors results) ->
  reassemble d asm0 results = inr out ->
  forall r1 r2, In (Some r1) results -> In (Some r2) results ->
  forall k, In k (attrs_keys (attrs r1)) -> In k (attrs_keys (attrs r2)).
Proof.
  intros Hfit Hres Hin Hlen Hnd H r1 r2 H1 H2 k Hk.
  apply survivors_In in H1, H2.
  destruct out as [out|].
  - pose proof (reassemble_uniform d asm0 results out Hfit Hres Hin Hnd H k)
      as Hu.
    assert (Hpos : In r1 (filter (has_attr k) (survivors results))).
    { apply filter_In. split; [exact H1 | now apply mem_In]. }
    destruct Hu as [Hu|Hu].
    + apply mem_In. fold (has_attr k r2).
      apply (filter_length_full (has_attr k) (survivors results)); [|exact H2].
      rewrite Hu, <- Hlen. apply survivors_length.
    + apply length_zero_iff_nil in Hu. rewrite Hu in Hpos. contradiction.
  - unfold reassemble in H.
    destruct (collect d results [] []) as [e|[xarr acc]] eqn:Ec; simpl in H;
      [discriminate|].
    destruct (collect_spec d results Hnd _ _ _ _ Ec) as (Hx & _ & _).
    simpl in Hx. subst xarr.
    destruct (survivors results) as [|x0 xrest]; [contradiction|].
    repeat match type of H with
           | and_then ?n _ = _ => destruct n; simpl in H; [discriminate|]
           end.
    discriminate.
Qed.

Lemma apply_helper_unfold (callable : Callable) (size : nat) (rsizes : list nat)
    (d : dim) (rdims : list dim) (asms : list DataArray) :
  apply_helper callable (size :: rsizes) (d :: rdims) asms
  = (let! results :=
       traverse (level_result callable rsizes rdims d asms) (seq 0 size) in
     match asms with
     | [] => reassemble_unlabelled d results
     | asm0 :: _ => reassemble d asm0 results
     end).
Proof.
  simpl. unfold level_result. destruct rsizes; reflexivity.
Qed.

(** *** the exceptions of the reassembly *)

Lemma expand_dims_raises (d : dim) (v : DataArray) (e : exn) :
  expand_dims d v = inl e -> e = ValueError.
Proof.
  unfold expand_dims. destruct (mem d (dims v)); [now inversion 1|].
  destruct (has_labels_named d v); [now inversion 1 | discriminate].
Qed.

Lemma collect_attrs_raises (d : dim) (t : attr_dict) (e : exn) :
  (forall k v, In (k, v) (attrs_items t) -> exists a, v = AttrArray a) ->
  forall acc, collect_attrs d t acc = inl e -> e = ValueError.
Proof.
  induction t as [|k v rest IH]; simpl; intros Harr acc H; [discriminate|].
  destruct (Harr k v (or_introl eq_refl)) as [a ->].
  destruct (expand_dims d a) as [e'|x] eqn:Ee; simpl in H.
  - inversion H; subst. now apply (expand_dims_raises d a).
  - apply (IH (fun k' v' Hin => Harr k' v' (or_intror Hin)) _ H).
Qed.

Lemma collect_raises (d : dim) (results : list (option DataArray)) (e : exn) :
  (forall r k v, In r (survivors results) ->
                 In (k, v) (attrs_items (attrs r)) -> exists a, v = AttrArray a) ->
  forall xarr acc, collect d results xarr acc = inl e -> e = ValueError.
Proof.
  induction results as [|[r|] rest IH]; simpl; intros Harr xarr acc H.
  - discriminate.
  - destruct (collect_attrs d (attrs r) acc) as [e'|acc'] eqn:Ec; simpl in H.
    + inversion H; subst.
      apply (collect_attrs_raises d (attrs r) e
               (fun k v => Harr r k v (or_introl eq_refl)) acc Ec).
    + apply (IH (fun r' k v Hin => Harr r' k v (or_intror Hin)) _ _ H).
  - apply (IH Harr _ _ H).
Qed.

Lemma concat_coord_raises (d : dim) (arrs : list DataArray) (c : coord) (e : exn) :
  (concat_coord_new d arrs c = inl e -> e = ValueError)
  /\ (concat_coord_old d arrs c = inl e -> e = ValueError).
Proof.
  unfold concat_coord_new, concat_coord_old. split.
  - destruct (same_named c arrs) as [cs|]; [|now inversion 1].
    destruct (forallb (coord_eqb c) cs); discriminate.
  - destruct (mem d (cdims c)); [|discriminate].
    destruct (same_named c arrs); [discriminate | now inversion 1].
Qed.

Lemma concat_raises (d : dim) (arrs : list DataArray) (e : exn) :
  concat d arrs = inl e -> e = ValueError.
Proof.
  unfold concat. destruct arrs as [|a0 rest]; [now inversion 1|].
  destruct (negb _); [now inversion 1|].
  destruct (mem d (dims a0)).
  - destruct (traverse _ (coords a0)) as [e'|cs] eqn:Et; simpl; [|discriminate].
    intros H. inversion H; subst. apply traverse_raises in Et.
    destruct Et as (c & _ & Hc).
    exact (proj2 (concat_coord_raises d (a0 :: rest) c e) Hc).
  - destruct (forallb _ (a0 :: rest)); [|now inversion 1].
    destruct (traverse _ (coords a0)) as [e'|cs] eqn:Et; simpl; [|discriminate].
    intros H. inversion H; subst. apply traverse_raises in Et.
    destruct Et as (c & _ & Hc).
    exact (proj1 (concat_coord_raises d (a0 :: rest) c e) Hc).
Qed.

Lemma assign_coords_raises (cs : list coord) (x : DataArray) (e : exn) :
  assign_coords cs x = inl e -> e = ValueError.
Proof.
  unfold assign_coords. destruct (forallb _ cs); [discriminate | now inversion 1].
Qed.

Lemma attach_raises (cs : list coord) (items : list (string * DataArray)) (e : exn) :
  forall x, attach cs items x = inl e -> e = ValueError.
Proof.
  induction items as [|[k v] rest IH]; simpl; intros x H; [discriminate|].
  destruct (assign_coords cs v) as [e'|v'] eqn:Ea; simpl in H.
  - inversion H; subst. now apply (assign_coords_raises cs v).
  - now apply (IH _ H).
Qed.

(** once the results are there and their attributes are arrays, whatever
    the reassembly raises is a [ValueError] *)
Lemma reassemble_raises (d : dim) (asm0 : DataArray)
    (results : list (option DataArray)) (e : exn) :
  In d (dims asm0) ->
  (forall r k v, In r (survivors results) ->
                 In (k, v) (attrs_items (attrs r)) -> exists a, v = AttrArray a) ->
  reassemble d asm0 results = inl e -> e = ValueError.
Proof.
  intros Hin Harr H. unfold reassemble in H.
  destruct (collect d results [] []) as [e'|[xarr acc]] eqn:Ec; simpl in H.
  { inversion H; subst. now apply (collect_raises d results e Harr [] []). }
  destruct xarr as [|x0 xrest]; [discriminate|].
  destruct (concat d (x0 :: xrest)) as [e'|x1] eqn:Ex; simpl in H.
  { inversion H; subst. now apply (concat_raises d (x0 :: xrest)). }
  match type of H with
  | and_then ?n _ = _ => destruct n as [e'|items] eqn:Ei; simpl in H
  end.
  { inversion H; subst. apply traverse_raises in Ei.
    destruct Ei as ([k vs] & _ & Hc). simpl in Hc.
    destruct (concat d vs) as [e'|v] eqn:Ev; simpl in Hc; [|discriminate].
    inversion Hc; subst. now apply (concat_raises d vs). }
  destruct (axis_coordinate d asm0) as [e'|cs] eqn:Ea; simpl in H.
  { exfalso. unfold axis_coordinate, getitem in Ea.
    destruct (coords_get d (coords asm0)); simpl in Ea; [discriminate|].
    apply mem_In in Hin. rewrite Hin in Ea. discriminate. }
  destruct (assign_coords cs x1) as [e'|x2] eqn:Es; simpl in H.
  { inversion H; subst. now apply (assign_coords_raises cs x1). }
  destruct (attach cs items x2) as [e'|x3] eqn:Et; simpl in H; [|discriminate].
  inversion H; subst. now apply (attach_raises cs items e x2).
Qed.

(** results with different attribute names cannot be reassembled *)
Lemma reassemble_mismatch_fails (d : dim) (asm0 : DataArray)
    (results : list (option DataArray)) (r1 r2 : DataArray) :
  labels_fit asm0 = true -> axis_names_reserved asm0 -> In d (dims asm0) ->
  List.length results = size_of d asm0 ->
  Forall (fun r => NoDup (attrs_keys (attrs r))) (survivors results) ->
  In (Some r1) results -> In (Some r2) results ->
  ~ set_equal (attrs_keys (attrs r1)) (attrs_keys (attrs r2)) ->
  failed (reassemble d asm0 results).
Proof.
  intros Hfit Hres Hin Hlen Hnd H1 H2 Hne.
  destruct (reassemble d asm0 results) as [e|out] eqn:Er; [now exists e|].
  exfalso. apply Hne. intros k. split; intros Hk.
  - apply (reassemble_same_names d asm0 results out Hfit Hres Hin Hlen Hnd Er
             r1 r2 H1 H2 k Hk).
  - apply (reassemble_same_names d asm0 results out Hfit Hres Hin Hlen Hnd Er
             r2 r1 H2 H1 k Hk).
Qed.

(** C6 (amended).  At a level of [apply_helper] that walks the axis [d] of
    its first array: when the results for two indices are arrays with
    different sets of attribute names, the call raises and returns nothing.
    No attribute names are compared and there is no error of its own for
    this: when every index of the level gave a result and the attributes of
    the results are arrays, what is raised is the [ValueError] of the
    library for labels that do not fit.  A level that raises for one index
    makes the level above raise, and [apply_over_dims] is [apply_helper] on
    the transposed arrays. *)
Theorem reassembly_rejects_mismatch (callable : Callable) (rsizes : list nat)
    (d : dim) (rdims : list dim) (asm0 : DataArray) (rest : list DataArray)
    (Hfit : labels_fit asm0 = true) (Hres : axis_names_reserved asm0)
    (Hin : In d (dims asm0))
    (Hdict : forall s r,
        level_result callable rsizes rdims d (asm0 :: rest) s = inr (Some r) ->
        NoDup (attrs_keys (attrs r))) :
  (forall i j r1 r2,
      i < size_of d asm0 -> j < size_of d asm0 ->
      level_result callable rsizes rdims d (asm0 :: rest) i = inr (Some r1) ->
      level_result callable rsizes rdims d (asm0 :: rest) j = inr (Some r2) ->
      ~ set_equal (attrs_keys (attrs r1)) (attrs_keys (attrs r2)) ->
      failed (apply_helper callable (size_of d asm0 :: rsizes) (d :: rdims)
                (asm0 :: rest)))
  /\ (forall results i j r1 r2,
        traverse (level_result callable rsizes rdims d (asm0 :: rest))
                 (seq 0 (size_of d asm0)) = inr results ->
        (forall r k v, In (Some r) results ->
                       In (k, v) (attrs_items (attrs r)) ->
                       exists a, v = AttrArray a) ->
        i < size_of d asm0 -> j < size_of d asm0 ->
        nth i results None = Some r1 -> nth j results None = Some r2 ->
        ~ set_equal (attrs_keys (attrs r1)) (attrs_keys (attrs r2)) ->
        apply_helper callable (size_of d asm0 :: rsizes) (d :: rdims)
          (asm0 :: rest) = inl ValueError)
  /\ (forall i size asms,
        i < size ->
        failed (level_result callable rsizes rdims d asms i) ->
        failed (apply_helper callable (size :: rsizes) (d :: rdims) asms))
  /\ (forall asms ds a tr,
        traverse (transpose_front ds) asms = inr (a :: tr) -> ds <> [] ->
        apply_over_dims callable asms ds
        = apply_helper callable (map (fun x => size_of x a) ds) ds (a :: tr)).
Proof.
  assert (Hlevel : forall results,
             traverse (level_result callable rsizes rdims d (asm0 :: rest))
                      (seq 0 (size_of d asm0)) = inr results ->
             List.length results = size_of d asm0
             /\ (forall s, s < size_of d asm0 ->
                   level_result callable rsizes rdims d (asm0 :: rest) s
                   = inr (nth s results None))
             /\ Forall (fun r => NoDup (attrs_keys (attrs r)))
                       (survivors results)).
  { intros results Et.
    destruct (traverse_seq_nth _ _ _ None Et) as [Hlen Hnth].
    split; [exact Hlen|]. split; [exact Hnth|].
    apply Forall_forall. intros r Hr. apply survivors_In in Hr.
    destruct (In_nth _ _ None Hr) as (s & Hs & Hsr).
    rewrite Hlen in Hs. apply (Hdict s). now rewrite (Hnth s Hs), Hsr. }
  split; [|split; [|split]].
  - intros i j r1 r2 Hi Hj H1 H2 Hne.
    rewrite apply_helper_unfold.
    destruct (traverse (level_result callable rsizes rdims d (asm0 :: rest))
                       (seq 0 (size_of d asm0))) as [e|results] eqn:Et; simpl;
      [now exists e|].
    destruct (Hlevel results eq_refl) as (Hlen & Hnth & Hnd).
    apply (reassemble_mismatch_fails d asm0 results r1 r2); try assumption.
    + rewrite (Hnth i Hi) in H1. injection H1 as H1. rewrite <- H1.
      apply nth_In. now rewrite Hlen.
    + rewrite (Hnth j Hj) in H2. injection H2 as H2. rewrite <- H2.
      apply nth_In. now rewrite Hlen.
  - intros results i j r1 r2 Et Harr Hi Hj H1 H2 Hne.
    destruct (Hlevel results Et) as (Hlen & Hnth & Hnd).
    rewrite apply_helper_unfold, Et. cbn [and_then].
    destruct (reassemble_mismatch_fails d asm0 results r1 r2) as [e He];
      try assumption.
    + rewrite <- H1. apply nth_In. now rewrite Hlen.
    + rewrite <- H2. apply nth_In. now rewrite Hlen.
    + rewrite He. f_equal.
      apply (reassemble_raises d asm0 results e Hin); [|exact He].
      intros r k v Hr. apply Harr. now apply survivors_In.
  - intros i size asms Hi [e He].
    rewrite apply_helper_unfold.
    destruct (traverse_fails (level_result callable rsizes rdims d asms)
                (seq 0 size) i) as [e' He'].
    + apply in_seq. lia.
    + now exists e.
    + rewrite He'. now exists e'.
  - intros asms ds a tr Ht Hds. unfold apply_over_dims.
    rewrite Ht, and_then_ok. destruct ds as [|d0 ds']; [congruence|].
    reflexivity.
Qed.

Lemma reassembly_rejects_mismatch_witness :
  apply_helper picky [size_of "a" asm_pair] ["a"] [asm_pair] = inl ValueError.
Proof.
  assert (Hres : axis_names_reserved asm_pair).
  { intros c Hc Hn. simpl in Hc. destruct Hc as [<-|[]]. reflexivity. }
  assert (Hdict : forall s r,
             level_result picky [] [] "a" [asm_pair] s = inr (Some r) ->
             NoDup (attrs_keys (attrs r))).
  { intros [|[|s]] r H.
    - vm_compute in H. injection H as <-. apply nodup_b_spec. reflexivity.
    - vm_compute in H. injection H as <-. apply nodup_b_spec. reflexivity.
    - exfalso. unfold level_result in H. simpl in H. discriminate. }
  destruct (reassembly_rejects_mismatch picky [] "a" [] asm_pair []
              eq_refl Hres (or_introl eq_refl) Hdict) as (_ & H & _).
  destruct (traverse (level_result picky [] [] "a" [asm_pair])
              (seq 0 (size_of "a" asm_pair))) as [e|results] eqn:Et;
    [vm_compute in Et; discriminate|].
  assert (Hr : exists r1 r2,
             results = [Some r1; Some r2]
             /\ attrs r1 = attrs_cons "m" (AttrArray bare) attrs_nil
             /\ attrs r2 = attrs_nil).
  { vm_compute in Et. inversion Et. do 2 eexists.
    split; [reflexivity|]. split; reflexivity. }
  destruct Hr as (r1 & r2 & -> & A1 & A2).
  apply (H [Some r1; Some r2] 0 1 r1 r2 eq_refl).
  - intros r k v [Hr|[Hr|[]]] Hkv; inversion Hr; subst r.
    + rewrite A1 in Hkv. destruct Hkv as [E|[]]. inversion E. eauto.
    + rewrite A2 in Hkv. destruct Hkv.
  - vm_compute. lia.
  - vm_compute. lia.
  - reflexivity.
  - reflexivity.
  - rewrite A1, A2. simpl. intros Heq. destruct (Heq "m") as [Hm _].
    apply Hm. now left.
Defined.

(** C6, as stated, fails: results with different attribute names make the
    call raise [ValueError], the exception of the library for labels that
    do not fit an axis, and the same exception is raised, with no attribute
    anywhere, when the callable returns [None] for one of two rows. *)
Lemma reassembly_mismatch_counterexample :
  apply_helper picky [2] ["a"] [asm_pair] = inl ValueError
  /\ apply_over_dims picky [asm_pair] ["a"] = inl ValueError
  /\ apply_over_dims dropping [asm_pair] ["a"] = inl ValueError
  /\ attrs asm_pair = attrs_nil.
Proof. repeat split; reflexivity. Qed.

(** ** recursive_op on a store: which objects change *)

Lemma update_length (h : Store.store) (r : Store.ref)
    (f : Store.object -> Store.object) :
  List.length (Store.update h r f) = List.length h.
Proof.
  revert r. induction h as [|o rest IH]; intros [|r]; simpl; auto.
Qed.

Lemma update_other (h : Store.store) (r i : Store.ref)
    (f : Store.object -> Store.object) :
  i <> r -> nth_error (Store.update h r f) i = nth_error h i.
Proof.
  revert r i. induction h as [|o rest IH]; intros [|r] [|i] H; simpl; auto.
  congruence.
Qed.

Lemma update_same (h : Store.store) (r : Store.ref)
    (f : Store.object -> Store.object) (o : Store.object) :
  nth_error h r = Some o -> f o = o -> Store.update h r f = h.
Proof.
  revert r. induction h as [|o0 rest IH]; intros [|r] H Hf; simpl in *;
    try discriminate.
  - injection H as ->. now rewrite Hf.
  - f_equal. now apply IH.
Qed.

Lemma store_dict_set_same (k : string) (v : Store.value)
    (m : list (string * Store.value)) :
  Store.dict_get k m = Some v -> Store.dict_set k v m = m.
Proof.
  induction m as [|[k0 v0] rest IH]; simpl; [discriminate|].
  destruct (String.eqb k k0).
  - intros H. now injection H as ->.
  - intros H. now rewrite IH.
Qed.

Lemma lookup_inv (h : Store.store) (r : Store.ref) (o : Store.object) :
  Store.lookup h r = inr o -> nth_error h r = Some o.
Proof.
  unfold Store.lookup. destruct (nth_error h r); [|discriminate].
  intros H. now injection H as ->.
Qed.

(** the loop writes only into [val] *)
Lemma store_loop_frame
    (recur : Store.store -> Store.ref -> list Store.value
             -> result (Store.store * Store.ref))
    (h0 : Store.store) (base : nat) (val arr0 : Store.ref)
    (others : list Store.value) :
  (forall h a args h' r, recur h a args = inr (h', r) ->
     List.length h <= List.length h'
     /\ forall i, i < List.length h -> nth_error h' i = nth_error h i) ->
  base <= val ->
  forall keys hc h' r,
    base <= List.length hc ->
    (forall i, i < base -> nth_error hc i = nth_error h0 i) ->
    Store.attrs_loop recur val arr0 others keys hc = inr (h', r) ->
    r = val /\ List.length hc <= List.length h'
    /\ forall i, i < base -> nth_error h' i = nth_error h0 i.
Proof.
  intros Hrec Hval. induction keys as [|k rest IH]; simpl; intros hc h' r Hb Hpre H.
  - injection H as <- <-. auto.
  - destruct (Store.lookup hc arr0) as [e|o]; simpl in H; [discriminate|].
    destruct (Store.dict_get k (Store.o_attrs o)) as [[a|z]|]; [| |discriminate].
    + destruct (traverse (Store.operand_attr hc k) others) as [e|attr_arrs];
        simpl in H; [discriminate|].
      destruct (recur hc a attr_arrs) as [e|[h1 r1]] eqn:Er; simpl in H;
        [discriminate|].
      destruct (Hrec _ _ _ _ _ Er) as [Hl Hp].
      apply IH in H.
      * destruct H as (-> & Hlen & Hfin). unfold Store.set_attr in Hlen.
        rewrite update_length in Hlen. repeat split; [lia | exact Hfin].
      * unfold Store.set_attr. rewrite update_length. lia.
      * intros i Hi. unfold Store.set_attr. rewrite update_other by lia.
        rewrite Hp by lia. now apply Hpre.
    + apply IH in H.
      * destruct H as (-> & Hlen & Hfin). unfold Store.set_attr in Hlen.
        rewrite update_length in Hlen. repeat split; [lia | exact Hfin].
      * unfold Store.set_attr. now rewrite update_length.
      * intros i Hi. unfold Store.set_attr. rewrite update_other by lia.
        now apply Hpre.
Qed.

Lemma store_recursive_op_frame (op : Store.Op) :
  Store.allocates op ->
  forall depth h arr0 others h' r,
    Store.recursive_op depth op h arr0 others = inr (h', r) ->
    List.length h <= List.length h'
    /\ (forall i, i < List.length h -> nth_error h' i = nth_error h i)
    /\ List.length h <= r.
Proof.
  intros Hop. induction depth as [|depth IH]; simpl; intros h arr0 others h' r H;
    [discriminate|].
  destruct (op h (Store.Ref arr0 :: others)) as [e|[h1 val]] eqn:Eo; simpl in H;
    [discriminate|].
  destruct (Hop _ _ _ _ Eo) as (Hv1 & Hv2 & Hpre).
  destruct (Store.lookup h1 arr0) as [e|o0]; simpl in H; [discriminate|].
  assert (Hrec : forall hx a args hy ry,
             Store.recursive_op depth op hx a args = inr (hy, ry) ->
             List.length hx <= List.length hy
             /\ forall i, i < List.length hx -> nth_error hy i = nth_error hx i).
  { intros hx a args hy ry Hr. destruct (IH _ _ _ _ _ Hr) as (G1 & G2 & _). auto. }
  assert (Hb : List.length h <= List.length h1) by lia.
  destruct (store_loop_frame _ h (List.length h) val arr0 others Hrec Hv1
              _ h1 h' r Hb Hpre H) as (-> & Hlen & Hfin).
  repeat split; [lia | exact Hfin | exact Hv1].
Qed.

Lemma set_attr_same (h : Store.store) (r : Store.ref) (o : Store.object)
    (k : string) (v : Store.value) :
  nth_error h r = Some o -> Store.dict_get k (Store.o_attrs o) = Some v ->
  Store.set_attr h r k v = h.
Proof.
  intros Ho Hk. unfold Store.set_attr. apply (update_same h r _ o Ho).
  rewrite (store_dict_set_same _ _ _ Hk). now destruct o.
Qed.

Lemma store_identity_unchanged :
  forall depth h arr0 others h' r,
    Store.recursive_op depth Store.identity_op h arr0 others = inr (h', r) ->
    h' = h /\ r = arr0.
Proof.
  induction depth as [|depth IH]; simpl; intros h arr0 others h' r H;
    [discriminate|].
  destruct others as [|o1 others1]; simpl in H; [|discriminate].
  destruct (Store.lookup h arr0) as [e|o0]; simpl in H; [discriminate|].
  revert H. generalize (map fst (Store.o_attrs o0)) as keys.
  induction keys as [|k rest IHk]; simpl; intros H.
  - now injection H as <- <-.
  - destruct (Store.lookup h arr0) as [e|o] eqn:El; simpl in H; [discriminate|].
    apply lookup_inv in El.
    destruct (Store.dict_get k (Store.o_attrs o)) as [[a|z]|] eqn:Ek;
      [| |discriminate].
    + destruct (Store.recursive_op depth Store.identity_op h a [])
        as [e|[h1 r1]] eqn:Er; simpl in H; [discriminate|].
      destruct (IH _ _ _ _ _ Er) as [-> ->].
      rewrite (set_attr_same _ _ _ _ _ El Ek) in H. now apply IHk.
    + rewrite (set_attr_same _ _ _ _ _ El Ek) in H. now apply IHk.
Qed.

(** *** the store only grows *)

Lemma extends_refl (h : Store.store) : Store.extends h h.
Proof. split; auto. Qed.

Lemma extends_trans (h1 h2 h3 : Store.store) :
  Store.extends h1 h2 -> Store.extends h2 h3 -> Store.extends h1 h3.
Proof.
  intros [L1 P1] [L2 P2]. split; [lia|].
  intros i Hi. rewrite P2 by lia. now apply P1.
Qed.

Lemma alloc_extends (h : Store.store) (o : Store.object) :
  Store.extends h (fst (Store.alloc h o)).
Proof.
  unfold Store.alloc. simpl. split.
  - rewrite length_app. simpl. lia.
  - intros i Hi. now apply nth_error_app1.
Qed.

Lemma store_method_frame (f : DataArray -> result DataArray)
    (h h' : Store.store) (r r' : Store.ref) :
  Store.method f h r = inr (h', r') ->
  Store.extends h h' /\ r' = List.length h.
Proof.
  unfold Store.method.
  destruct (Store.lookup h r) as [e|o]; simpl; [discriminate|].
  destruct (f (Store.view o)) as [e|a]; simpl; [discriminate|].
  intros H. injection H as <- <-. split; [|reflexivity].
  apply (alloc_extends h).
Qed.

Lemma store_traverse_frame {A B : Type}
    (f : Store.store -> A -> result (Store.store * B)) (l : list A) :
  (forall h x h' y, In x l -> f h x = inr (h', y) -> Store.extends h h') ->
  forall h h' ys,
    Store.traverse_st f l h = inr (h', ys) -> Store.extends h h'.
Proof.
  induction l as [|x rest IH]; simpl; intros Hf h h' ys H.
  - injection H as <- _. apply extends_refl.
  - destruct (f h x) as [e|[h1 y]] eqn:E1; simpl in H; [discriminate|].
    destruct (Store.traverse_st f rest h1) as [e|[h2 ys2]] eqn:E2; simpl in H;
      [discriminate|].
    injection H as <- _.
    apply (extends_trans h h1 h2).
    + eapply Hf; [now left | exact E1].
    + eapply IH; [|exact E2]. intros h0 x0 h0' y0 Hin. apply Hf. now right.
Qed.

(** the addresses a loop returns are new when those of its body are *)
Lemma store_traverse_fresh {A B : Type} (key : B -> Store.ref)
    (f : Store.store -> A -> result (Store.store * B)) (l : list A) :
  (forall h x h' y, f h x = inr (h', y) ->
     Store.extends h h' /\ List.length h <= key y) ->
  forall h h' ys,
    Store.traverse_st f l h = inr (h', ys) ->
    Forall (fun y => List.length h <= key y) ys.
Proof.
  intros Hf. induction l as [|x rest IH]; simpl; intros h h' ys H.
  - injection H as _ <-. constructor.
  - destruct (f h x) as [e|[h1 y]] eqn:E1; simpl in H; [discriminate|].
    destruct (Store.traverse_st f rest h1) as [e|[h2 ys2]] eqn:E2; simpl in H;
      [discriminate|].
    injection H as _ <-.
    destruct (Hf _ _ _ _ E1) as [[Hl _] Hk].
    constructor; [exact Hk|].
    apply IH in E2. eapply Forall_impl; [|exact E2].
    simpl. intros b Hb. lia.
Qed.

Lemma update_extends (h0 h : Store.store) (r : Store.ref)
    (f : Store.object -> Store.object) :
  List.length h0 <= r -> Store.extends h0 h ->
  Store.extends h0 (Store.update h r f).
Proof.
  intros Hr [Hl Hp]. split.
  - now rewrite update_length.
  - intros i Hi. rewrite update_other by lia. now apply Hp.
Qed.

Lemma set_coords_frame (h0 h h' : Store.store) (x : Store.ref)
    (cs : list coord) :
  List.length h0 <= x -> Store.extends h0 h ->
  Store.set_coords h x cs = inr h' -> Store.extends h0 h'.
Proof.
  intros Hx He. unfold Store.set_coords.
  destruct (Store.lookup h x) as [e|o]; simpl; [discriminate|].
  destruct (assign_coords cs (Store.view o)) as [e|a]; simpl; [discriminate|].
  intros H. injection H as <-. now apply update_extends.
Qed.

Lemma store_concat_frame (d : dim) (h h' : Store.store)
    (arrs : list Store.ref) (r : Store.ref) :
  Store.concat d h arrs = inr (h', r) ->
  Store.extends h h' /\ List.length h <= r.
Proof.
  unfold Store.concat.
  destruct (traverse (Store.lookup h) arrs) as [e|os]; simpl; [discriminate|].
  destruct (concat d (map Store.view os)) as [e|a]; simpl; [discriminate|].
  intros H. injection H as <- <-. split; [apply (alloc_extends h) | lia].
Qed.

Lemma store_collect_attrs_frame (d : dim) (items : list (string * Store.value)) :
  forall acc h h' acc',
    Store.collect_attrs d items acc h = inr (h', acc') -> Store.extends h h'.
Proof.
  induction items as [|[k [v|z]] rest IH]; simpl; intros acc h h' acc' H.
  - injection H as <- _. apply extends_refl.
  - destruct (Store.method (expand_dims d) h v) as [e|[h1 r1]] eqn:E; simpl in H;
      [discriminate|].
    apply store_method_frame in E. destruct E as [E _].
    apply IH in H. now apply (extends_trans h h1 h').
  - discriminate.
Qed.

Lemma store_collect_frame (d : dim) (results : list (option Store.ref)) :
  forall xarr acc h h' out,
    Store.collect d results xarr acc h = inr (h', out) -> Store.extends h h'.
Proof.
  induction results as [|[arr|] rest IH]; simpl; intros xarr acc h h' out H.
  - injection H as <- _. apply extends_refl.
  - destruct (Store.lookup h arr) as [e|o]; simpl in H; [discriminate|].
    destruct (Store.collect_attrs d (Store.o_attrs o) acc h) as [e|[h1 acc1]]
      eqn:E; simpl in H; [discriminate|].
    apply store_collect_attrs_frame in E. apply IH in H.
    now apply (extends_trans h h1 h').
  - now apply IH in H.
Qed.

(** the last loop assigns into the new arrays only *)
Lemma store_attach_frame (h0 : Store.store) (cs : list coord) (xarr : Store.ref)
    (items : list (string * Store.ref)) :
  List.length h0 <= xarr ->
  Forall (fun kv => List.length h0 <= snd kv) items ->
  forall h h',
    Store.extends h0 h ->
    Store.attach cs items xarr h = inr h' -> Store.extends h0 h'.
Proof.
  intros Hx. induction items as [|[k v] rest IH]; simpl; intros Hit h h' He H.
  - now injection H as <-.
  - inversion Hit as [|? ? Hv Hrest]; subst. simpl in Hv.
    destruct (Store.set_coords h v cs) as [e|h1] eqn:E; simpl in H;
      [discriminate|].
    apply (set_coords_frame h0) in E; [|exact Hv | exact He].
    apply (IH Hrest _ _ (update_extends h0 h1 xarr _ Hx E) H).
Qed.

Lemma store_reassemble_frame (d : dim) (asm0 : option Store.ref)
    (results : list (option Store.ref)) (h h' : Store.store)
    (out : option Store.ref) :
  Store.reassemble d asm0 results h = inr (h', out) -> Store.extends h h'.
Proof.
  unfold Store.reassemble.
  destruct (Store.collect d results [] [] h) as [e|[h1 [xarr acc]]] eqn:Ec;
    simpl; [discriminate|].
  apply store_collect_frame in Ec.
  destruct xarr as [|x0 xrest].
  { intros H. now injection H as <- _. }
  destruct (Store.concat d h1 (x0 :: xrest)) as [e|[h2 x]] eqn:Ex; simpl;
    [discriminate|].
  apply store_concat_frame in Ex. destruct Ex as [E12 Hx].
  match goal with
  | |- and_then (Store.traverse_st ?f ?l ?s) _ = _ -> _ =>
      destruct (Store.traverse_st f l s) as [e|[h3 items]] eqn:Ei; simpl;
        [discriminate|];
      pose proof (store_traverse_frame f l) as Hfr;
      pose proof (store_traverse_fresh snd f l) as Hfe
  end.
  assert (E23 : Store.extends h2 h3).
  { eapply Hfr; [|exact Ei]. intros hx kv hy y _ Hc.
    destruct (Store.concat d hx (snd kv)) as [e|[hz z]] eqn:Ez; simpl in Hc;
      [discriminate|].
    injection Hc as <- _. now apply store_concat_frame in Ez. }
  assert (Hitems : Forall (fun kv => List.length h2 <= snd kv) items).
  { eapply Hfe; [|exact Ei]. intros hx kv hy y Hc.
    destruct (Store.concat d hx (snd kv)) as [e|[hz z]] eqn:Ez; simpl in Hc;
      [discriminate|].
    injection Hc as <- <-. simpl. now apply store_concat_frame in Ez. }
  destruct asm0 as [asm0|]; [|discriminate].
  destruct (Store.lookup h3 asm0) as [e|o0]; simpl; [discriminate|].
  destruct (axis_coordinate d (Store.view o0)) as [e|cs]; simpl; [discriminate|].
  destruct (Store.set_coords h3 x cs) as [e|h4] eqn:E4; simpl; [discriminate|].
  destruct (Store.attach cs items x h4) as [e|h5] eqn:E5; simpl; [discriminate|].
  intros H. injection H as <- _.
  assert (E13 : Store.extends h1 h3) by now apply (extends_trans h1 h2 h3).
  assert (Hx1 : List.length h1 <= x) by lia.
  apply (extends_trans h h1 h5 Ec).
  apply (set_coords_frame h1) in E4; [|exact Hx1 | exact E13].
  apply (store_attach_frame h1 cs x items Hx1) with (h := h4); auto.
  eapply Forall_impl; [|exact Hitems]. destruct E12 as [Hl _].
  simpl. intros kv Hkv. lia.
Qed.

Lemma store_slices_frame (f : DataArray -> result DataArray)
    (asms : list Store.ref) (h h' : Store.store) (slices : list Store.ref) :
  Store.traverse_st (Store.method f) asms h = inr (h', slices) ->
  Store.extends h h'.
Proof.
  apply store_traverse_frame. intros hx x hy y _ Hm.
  now apply store_method_frame in Hm.
Qed.

Lemma store_apply_helper_frame (callable : Store.Callable) :
  Store.callable_preserves callable ->
  forall ds sizes h asms h' out,
    Store.apply_helper callable sizes ds h asms = inr (h', out) ->
    Store.extends h h'.
Proof.
  intros Hc. induction ds as [|d rdims IH]; intros sizes h asms h' out H;
    [discriminate|].
  destruct sizes as [|size rsizes]; [discriminate|].
  cbn [Store.apply_helper] in H.
  match type of H with
  | and_then ?res _ = _ => destruct res as [e|[h1 results]] eqn:Er;
                           cbn [and_then] in H; [discriminate|]
  end.
  cbn [fst snd] in H. apply store_reassemble_frame in H.
  apply (extends_trans h h1 h'); [|exact H].
  destruct rsizes as [|s2 rs2].
  - eapply store_traverse_frame; [|exact Er].
    intros hx s hy y _ Hb. cbv beta in Hb.
    destruct (Store.traverse_st (Store.method (isel d s)) asms hx)
      as [e|[hz slices]] eqn:Es; simpl in Hb; [discriminate|].
    apply store_slices_frame in Es. apply Hc in Hb.
    now apply (extends_trans hx hz hy).
  - eapply store_traverse_frame; [|exact Er].
    intros hx s hy y _ Hb. cbv beta in Hb.
    destruct (Store.traverse_st (Store.method (isel d s)) asms hx)
      as [e|[hz slices]] eqn:Es; simpl in Hb; [discriminate|].
    apply store_slices_frame in Es. apply IH in Hb.
    now apply (extends_trans hx hz hy).
Qed.

Lemma store_apply_over_dims_frame (callable : Store.Callable)
    (h h' : Store.store) (asms : list Store.ref) (ds : list dim)
    (out : option Store.ref) :
  Store.callable_preserves callable ->
  Store.apply_over_dims callable h asms ds = inr (h', out) ->
  Store.extends h h'.
Proof.
  intros Hc. unfold Store.apply_over_dims.
  destruct (Store.traverse_st (Store.method (transpose_front ds)) asms h)
    as [e|[h1 asms1]] eqn:Et; simpl; [discriminate|].
  apply store_slices_frame in Et.
  match goal with
  | |- and_then ?s _ = _ -> _ => destruct s as [e|sizes]; simpl; [discriminate|]
  end.
  intros H. apply (store_apply_helper_frame callable Hc) in H.
  now apply (extends_trans h h1 h').
Qed.

Lemma store_fit_frame {M : Type} (regression : Store.Regression M)
    (self self' : XarrayRegression M) (h h' : Store.store)
    (source target : Store.ref) :
  Store.regression_preserves regression ->
  Store.fit regression self h source target = inr (h', self') ->
  Store.extends h h'.
Proof.
  intros [Hfit _]. unfold Store.fit, Store._align.
  destruct (Store.method (_align (_expected_dims self)) h source)
    as [e|[h1 s1]] eqn:E1; cbn [and_then fst snd]; [discriminate|].
  destruct (Store.method (_align (_expected_dims self)) h1 target)
    as [e|[h2 t1]] eqn:E2; cbn [and_then fst snd]; [discriminate|].
  destruct (Store.method (sortby [_stimulus_coord self]) h2 s1)
    as [e|[h3 s2]] eqn:E3; cbn [and_then fst snd]; [discriminate|].
  destruct (Store.method (sortby [_stimulus_coord self]) h3 t1)
    as [e|[h4 t2]] eqn:E4; cbn [and_then fst snd]; [discriminate|].
  destruct (Store.reg_fit regression h4 s2 t2) as [e|[h5 m]] eqn:E5; cbn [and_then fst snd];
    [discriminate|].
  destruct (Store.lookup h5 t2) as [e|t]; cbn [and_then fst snd]; [discriminate|].
  destruct (capture (_neuroid_dim self) (walk_coords (Store.view t)) [])
    as [e|captured]; cbn [and_then fst snd]; [discriminate|].
  intros H. injection H as <- _.
  apply store_method_frame in E1, E2, E3, E4.
  apply Hfit in E5.
  apply (extends_trans h h1 h5); [tauto|].
  apply (extends_trans h1 h2 h5); [tauto|].
  apply (extends_trans h2 h3 h5); [tauto|].
  apply (extends_trans h3 h4 h5); tauto.
Qed.

Lemma store_predict_frame {M : Type} (regression : Store.Regression M)
    (self : XarrayRegression M) (h h' : Store.store)
    (source p : Store.ref) :
  Store.regression_preserves regression ->
  Store.predict regression self h source = inr (h', p) ->
  Store.extends h h' /\ List.length h <= p.
Proof.
  intros [_ Hpred]. unfold Store.predict, Store._align, Store._package_prediction.
  destruct (Store.method (_align (_expected_dims self)) h source)
    as [e|[h1 s1]] eqn:E1; cbn [and_then fst snd]; [discriminate|].
  destruct (Store.reg_predict regression h1 (_model self) s1) as [e|[h2 pv]]
    eqn:E2; cbn [and_then fst snd]; [discriminate|].
  destruct (Store.lookup h2 s1) as [e|s]; cbn [and_then fst snd]; [discriminate|].
  destruct (_package_prediction self pv (Store.view s)) as [e|prediction];
    cbn [and_then fst snd]; [discriminate|].
  intros H. injection H as <- <-.
  apply store_method_frame in E1. destruct E1 as [E1 _].
  apply Hpred in E2.
  pose proof (extends_trans h h1 h2 E1 E2) as E02. split.
  - apply (extends_trans h h2 _ E02). apply (alloc_extends h2).
  - destruct E02. lia.
Qed.

Lemma store_correlation_frame (corr : Store.Correlation) (cc nc : string)
    (h h' : Store.store) (prediction target score : Store.ref) :
  Store.correlation_preserves corr ->
  Store.correlation_call corr cc nc h prediction target = inr (h', score) ->
  Store.extends h h' /\ List.length h <= score.
Proof.
  intros Hc. unfold Store.correlation_call.
  destruct (Store.method (sortby [cc; nc]) h prediction) as [e|[h1 p1]] eqn:E1;
    cbn [and_then fst snd]; [discriminate|].
  destruct (Store.method (sortby [cc; nc]) h1 target) as [e|[h2 t1]] eqn:E2;
    cbn [and_then fst snd]; [discriminate|].
  destruct (Store.lookup h2 p1) as [e|p]; cbn [and_then fst snd]; [discriminate|].
  destruct (Store.lookup h2 t1) as [e|t]; cbn [and_then fst snd]; [discriminate|].
  destruct (getitem cc (Store.view p)) as [e|pc]; cbn [and_then fst snd]; [discriminate|].
  destruct (getitem cc (Store.view t)) as [e|tc]; cbn [and_then fst snd]; [discriminate|].
  destruct (assert_ (all_equal (to_list (cvalues pc)) (to_list (cvalues tc))));
    cbn [and_then fst snd]; [discriminate|].
  destruct (getitem nc (Store.view p)) as [e|pn]; cbn [and_then fst snd]; [discriminate|].
  destruct (getitem nc (Store.view t)) as [e|tn]; cbn [and_then fst snd]; [discriminate|].
  destruct (assert_ (all_equal (to_list (cvalues pn)) (to_list (cvalues tn))));
    cbn [and_then fst snd]; [discriminate|].
  destruct (assert_ (Nat.eqb (List.length (cdims tn)) 1)); cbn [and_then fst snd]; [discriminate|].
  match goal with
  | |- and_then (Store.traverse_st ?f ?l ?s) _ = _ -> _ =>
      destruct (Store.traverse_st f l s) as [e|[h3 rs]] eqn:E3; simpl;
        [discriminate|];
      pose proof (store_traverse_frame f l) as Hfr
  end.
  match goal with
  | |- and_then ?s _ = _ -> _ => destruct s as [e|sc]; cbn [and_then fst snd]; [discriminate|]
  end.
  intros H. injection H as <- <-.
  apply store_method_frame in E1, E2. destruct E1 as [E1 _], E2 as [E2 _].
  assert (E23 : Store.extends h2 h3).
  { eapply Hfr; [|exact E3]. intros hx i hy y _ Hb.
    destruct (Store.method (isel (hd ""%string (cdims tn)) i) hx t1)
      as [e|[ha ti]] eqn:Ea; cbn [and_then fst snd] in Hb; [discriminate|].
    destruct (Store.method (isel (hd ""%string (cdims tn)) i) ha p1)
      as [e|[hb pi]] eqn:Eb; cbn [and_then fst snd] in Hb; [discriminate|].
    destruct (corr hb ti pi) as [e|[hc rp]] eqn:Ecr; cbn [and_then fst snd] in Hb; [discriminate|].
    injection Hb as <- _.
    apply store_method_frame in Ea, Eb. apply Hc in Ecr.
    apply (extends_trans hx ha hc); [tauto|].
    apply (extends_trans ha hb hc); tauto. }
  pose proof (extends_trans h h2 h3 (extends_trans h h1 h2 E1 E2) E23) as E03.
  split.
  - apply (extends_trans h h3 _ E03). apply (alloc_extends h3).
  - destruct E03. lia.
Qed.

(** C9 (amended).  [fit], [predict], the call of the comparison adapter
    and [apply_over_dims] assign only into arrays they have made
    themselves: when the call returns, and the strategy it calls (the
    regression, the comparison strategy, the callable) has left the arrays
    that exist as they are, every array that existed before the call, in
    particular every input and every nested attribute array, is the same
    after it, whatever the callable returns; what [predict] and the
    comparison return is a new array.  [recursive_op] assigns into the
    attributes of the object that [op] returns: the same holds when [op]
    returns a new object, and with the default [op], which returns its
    argument, the assignments write back what was there and the store is
    unchanged. *)
Theorem core_leaves_inputs :
  (forall (M : Type) (regression : Store.Regression M)
          (self self' : XarrayRegression M) (h h' : Store.store)
          (source target : Store.ref),
      Store.regression_preserves regression ->
      Store.fit regression self h source target = inr (h', self') ->
      Store.extends h h')
  /\ (forall (M : Type) (regression : Store.Regression M)
             (self : XarrayRegression M) (h h' : Store.store)
             (source p : Store.ref),
        Store.regression_preserves regression ->
        Store.predict regression self h source = inr (h', p) ->
        Store.extends h h' /\ List.length h <= p)
  /\ (forall (corr : Store.Correlation) (cc nc : string) (h h' : Store.store)
             (prediction target score : Store.ref),
        Store.correlation_preserves corr ->
        Store.correlation_call corr cc nc h prediction target = inr (h', score) ->
        Store.extends h h' /\ List.length h <= score)
  /\ (forall (callable : Store.Callable) (h h' : Store.store)
             (asms : list Store.ref) (ds : list dim) (out : option Store.ref),
        Store.callable_preserves callable ->
        Store.apply_over_dims callable h asms ds = inr (h', out) ->
        Store.extends h h')
  /\ (forall (depth : nat) (op : Store.Op) (h h' : Store.store)
             (arr0 r : Store.ref) (others : list Store.value),
        Store.allocates op ->
        Store.recursive_op depth op h arr0 others = inr (h', r) ->
        Store.extends h h' /\ List.length h <= r)
  /\ (forall (depth : nat) (h h' : Store.store) (arr0 r : Store.ref)
             (others : list Store.value),
        Store.recursive_op depth Store.identity_op h arr0 others = inr (h', r) ->
        h' = h /\ r = arr0).
Proof.
  split; [|split; [|split; [|split; [|split]]]].
  - intros M regression self self' h h' source target.
    apply store_fit_frame.
  - intros M regression self h h' source p. apply store_predict_frame.
  - intros corr cc nc h h' prediction target score.
    apply store_correlation_frame.
  - intros callable h h' asms ds out. apply store_apply_over_dims_frame.
  - intros depth op h h' arr0 r others Hop H.
    destruct (store_recursive_op_frame op Hop _ _ _ _ _ _ H) as (Hl & Hpre & Hr).
    repeat split; assumption.
  - intros depth h h' arr0 r others H. eapply store_identity_unchanged. exact H.
Qed.

Lemma core_leaves_inputs_witness :
  (exists h' r,
     Store.recursive_op 2 fresh_op store_two 0 [] = inr (h', r)
     /\ 2 <= r
     /\ nth_error h' 0 = nth_error store_two 0
     /\ nth_error h' 1 = nth_error store_two 1)
  /\ (exists h' out,
        Store.apply_over_dims echo store_walk [0] ["a"] = inr (h', Some out)
        /\ 2 <= out
        /\ nth_error h' 0 = nth_error store_walk 0
        /\ nth_error h' 1 = nth_error store_walk 1)
  /\ (exists h1 fitted h2 p,
        Store.fit store_regression toy_adapter store_data 0 1 = inr (h1, fitted)
        /\ Store.predict store_regression fitted h1 0 = inr (h2, p)
        /\ 3 <= p
        /\ nth_error h2 0 = nth_error store_data 0
        /\ nth_error h2 1 = nth_error store_data 1)
  /\ (exists h' score,
        Store.correlation_call store_correlation "stimulus_id" "neuroid_id"
          store_data 2 1 = inr (h', score)
        /\ 3 <= score
        /\ nth_error h' 1 = nth_error store_data 1
        /\ nth_error h' 2 = nth_error store_data 2).
Proof.
  destruct core_leaves_inputs as (Hfit & Hpred & Hcorr & Hwalk & Hrec & _).
  split; [|split; [|split]]; cycle 2.
  - assert (Hreg : Store.regression_preserves store_regression).
    { split.
      - intros h s t h' m H. simpl in H.
        destruct (Store.lookup h s); simpl in H; [discriminate|].
        destruct (Store.lookup h t); simpl in H; [discriminate|].
        injection H as <- _. apply extends_refl.
      - intros h m s h' pv H. simpl in H.
        destruct (Store.lookup h s); simpl in H; [discriminate|].
        destruct m; injection H as <- _; apply extends_refl. }
    destruct (Store.fit store_regression toy_adapter store_data 0 1)
      as [e|[h1 fitted]] eqn:E1; [vm_compute in E1; discriminate|].
    destruct (Store.predict store_regression fitted h1 0) as [e|[h2 p]] eqn:E2.
    { exfalso. vm_compute in E1. injection E1 as <- <-. vm_compute in E2.
      discriminate. }
    pose proof (Hfit nat store_regression toy_adapter fitted store_data h1 0 1
                  Hreg E1) as F1.
    destruct (Hpred nat store_regression fitted h1 h2 0 p Hreg E2) as [F2 Hp].
    destruct (extends_trans _ _ _ F1 F2) as [_ Hpre].
    exists h1, fitted, h2, p. split; [reflexivity|]. split; [exact E2|].
    destruct F1 as [Hl _]. simpl in Hl.
    split; [lia|]. split; apply Hpre; simpl; lia.
  - assert (Hc : Store.correlation_preserves store_correlation).
    { intros h a b h' rp H. unfold store_correlation in H.
      destruct (Store.lookup h a); simpl in H; [discriminate|].
      destruct (Store.lookup h b); simpl in H; [discriminate|].
      injection H as <- _. apply extends_refl. }
    destruct (Store.correlation_call store_correlation "stimulus_id" "neuroid_id"
                store_data 2 1) as [e|[h' score]] eqn:E;
      [vm_compute in E; discriminate|].
    destruct (Hcorr store_correlation _ _ store_data h' 2 1 score Hc E)
      as [[_ Hpre] Hs].
    exists h', score. split; [reflexivity|]. split; [exact Hs|].
    split; apply Hpre; simpl; lia.
  - assert (Hop : Store.allocates fresh_op).
    { intros h arrs h' r H. unfold fresh_op in H.
      destruct arrs as [|[x|z] rest]; try discriminate.
      destruct (nth_error h x) as [o|]; [|discriminate].
      injection H as <- <-. rewrite length_app. simpl.
      split; [lia|]. split; [lia|].
      intros i Hi. now apply nth_error_app1. }
    destruct (Store.recursive_op 2 fresh_op store_two 0 []) as [e|[h' r]] eqn:E;
      [vm_compute in E; discriminate|].
    destruct (Hrec 2 fresh_op store_two h' 0 r [] Hop E) as [[_ Hpre] Hr].
    exists h', r. split; [reflexivity|]. split; [exact Hr|].
    split; apply Hpre; simpl; lia.
  - assert (Hc : Store.callable_preserves echo).
    { intros h slices h' r H. unfold echo in H.
      destruct slices as [|x [|y rest]]; try discriminate.
      injection H as <- _. split; auto. }
    destruct (Store.apply_over_dims echo store_walk [0] ["a"])
      as [e|[h' [out|]]] eqn:E;
      [vm_compute in E; discriminate | | vm_compute in E; discriminate].
    destruct (Hwalk echo store_walk h' [0] ["a"] (Some out) Hc E) as [_ Hpre].
    exists h', out. split; [reflexivity|]. split.
    + vm_compute in E. injection E as _ <-. lia.
    + split; apply Hpre; simpl; lia.
Defined.

(** C9, as stated, fails: with an operation that returns its second
    operand, [recursive_op] assigns the first operand's attribute ["name"]
    into the second operand, whose own value 2 is replaced by 1. *)
Lemma recursive_op_mutates_operand :
  exists h' r,
    Store.recursive_op 1 second_op store_named 0 [Store.Ref 1] = inr (h', r)
    /\ r = 1
    /\ option_map Store.o_attrs (nth_error store_named 1)
       = Some [("name", Store.Plain 2)]
    /\ option_map Store.o_attrs (nth_error h' 1)
       = Some [("name", Store.Plain 1)].
Proof.
  eexists. eexists. split; [reflexivity|]. repeat split.
Qed.

(** ** apply_over_dims with the identity callable *)


Lemma survivors_map_Some (xarr : list DataArray) :
  survivors (map Some xarr) = xarr.
Proof. induction xarr as [|x r IH]; simpl; [reflexivity | now rewrite IH]. Qed.

Lemma assign_coords_inv (cs : list coord) (x x' : DataArray) :
  assign_coords cs x = inr x' ->
  dims x' = dims x /\ values x' = values x /\ attrs x' = attrs x
  /\ coords x' = fold_left (fun acc c => coords_set c acc) cs (coords x).
Proof.
  unfold assign_coords.
  destruct (forallb (coord_fits (dims x) (shape (values x))) cs); [|discriminate].
  intros H. injection H as <-. simpl. auto.
Qed.

Lemma attach_frame (cs : list coord) (items : list (string * DataArray)) :
  forall x out, attach cs items x = inr out ->
  dims out = dims x /\ values out = values x /\ coords out = coords x.
Proof.
  induction items as [|[k v] rest IH]; simpl; intros x out H.
  - injection H as <-. auto.
  - destruct (assign_coords cs v) as [e|v']; simpl in H; [discriminate|].
    apply IH in H. simpl in H. exact H.
Qed.

Lemma reassemble_inv (d : dim) (a : DataArray) (xarr : list DataArray)
    (out : DataArray) :
  Forall (fun r => NoDup (attrs_keys (attrs r))) xarr ->
  reassemble d a (map Some xarr) = inr (Some out) ->
  exists acc x1 items cs x2,
    collect d (map Some xarr) [] [] = inr (xarr, acc)
    /\ concat d xarr = inr x1
    /\ traverse (fun kv => let! v := concat d (snd kv) in ok (fst kv, v)) acc
       = inr items
    /\ axis_coordinate d a = inr cs
    /\ assign_coords cs x1 = inr x2
    /\ attach cs items x2 = inr out.
Proof.
  intros Hnd H. unfold reassemble in H.
  destruct (collect d (map Some xarr) [] []) as [e|[xs acc]] eqn:Ec; simpl in H;
    [discriminate|].
  assert (Hxs : xs = xarr).
  { rewrite <- (survivors_map_Some xarr) in Hnd.
    destruct (collect_spec d _ Hnd _ _ _ _ Ec) as (Hx & _ & _).
    simpl in Hx. now rewrite survivors_map_Some in Hx. }
  subst xs.
  destruct xarr as [|x0 xrest]; [discriminate|].
  destruct (concat d (x0 :: xrest)) as [e|x1] eqn:E1; simpl in H; [discriminate|].
  match type of H with
  | and_then ?n _ = _ => destruct n as [e|items] eqn:Ei; simpl in H; [discriminate|]
  end.
  destruct (axis_coordinate d a) as [e|cs] eqn:Ea; simpl in H; [discriminate|].
  destruct (assign_coords cs x1) as [e|x2] eqn:E2; simpl in H; [discriminate|].
  destruct (attach cs items x2) as [e|x3] eqn:E3; simpl in H; [discriminate|].
  injection H as <-.
  exists acc, x1, items, cs, x2. repeat split; assumption.
Qed.

Lemma concat_new_inv (d : dim) (xarr : list DataArray) (x0 x1 : DataArray) :
  hd_error xarr = Some x0 -> mem d (dims x0) = false ->
  concat d xarr = inr x1 ->
  dims x1 = d :: dims x0
  /\ values x1 = stack_nd (map values xarr)
  /\ attrs x1 = attrs x0
  /\ traverse (concat_coord_new d xarr) (coords x0) = inr (coords x1).
Proof.
  intros Hhd Hm H. destruct xarr as [|y rest]; [discriminate|].
  injection Hhd as ->. unfold concat in H.
  destruct (negb (forallb (fun a => list_eqb (dims a) (dims x0)) (x0 :: rest)));
    [discriminate|].
  rewrite Hm in H.
  destruct (forallb (fun a => shape_eqb (shape (values a)) (shape (values x0)))
                    (x0 :: rest)); [|discriminate].
  destruct (traverse (concat_coord_new d (x0 :: rest)) (coords x0)) as [e|cs];
    simpl in H; [discriminate|].
  injection H as <-. simpl. auto.
Qed.










Lemma held_list_absent (k : string) (m : list (string * list DataArray)) :
  ~ In k (map fst m) -> held_list k m = [].
Proof.
  induction m as [|[k0 vs] rest IH]; simpl; [reflexivity|].
  intros H. destruct (String.eqb_spec k k0) as [->|Hne].
  - exfalso. apply H. now left.
  - apply IH. intros Hin. apply H. now right.
Qed.










(** ** Equal coordinates *)











Lemma fold_set_notin (cs : list coord) (k : string) :
  ~ In k (map cname cs) ->
  forall base,
    coords_get k (fold_left (fun acc x => coords_set x acc) cs base)
    = coords_get k base.
Proof.
  induction cs as [|y l' IHl]; simpl; intros Hn b; [reflexivity|].
  rewrite IHl by tauto. rewrite coords_get_set.
  destruct (String.eqb_spec k (cname y)) as [He|Hne];
    [exfalso; apply Hn; left; congruence | reflexivity].
Qed.











Lemma reassemble_empty (d : dim) (a : DataArray)
    (results : list (option DataArray)) :
  survivors results = [] -> reassemble d a results = inr None.
Proof.
  intros Hs. unfold reassemble.
  assert (H : forall xs acc, collect d results xs acc = inr (xs, acc)).
  { induction results as [|[r|] rest IH]; simpl in *; intros xs acc;
      [reflexivity | discriminate | now apply IH]. }
  now rewrite H.
Qed.


Lemma all_none_survivors (results : list (option DataArray)) :
  (forall r, In r results -> r = None) -> survivors results = [].
Proof.
  induction results as [|[r|] rest IH]; simpl; intros H.
  - reflexivity.
  - specialize (H (Some r) (or_introl eq_refl)). discriminate.
  - apply IH. intros r' Hr'. apply H. now right.
Qed.






Lemma transpose_inv (order : list dim) (a a' : DataArray) :
  transpose order a = inr a' ->
  set_equal order (dims a) /\ NoDup order
  /\ List.length order = List.length (dims a)
  /\ a' = mk_DataArray order
            (transpose_nd (map (fun d => index_of d (dims a)) order) (values a))
            (coords a) (attrs a).
Proof.
  unfold transpose.
  destruct (set_eq order (dims a)) eqn:E1; simpl; [|discriminate].
  destruct (nodup_b order) eqn:E2; simpl; [|discriminate].
  destruct (Nat.eqb (List.length order) (List.length (dims a))) eqn:E3;
    [|discriminate].
  intros H. injection H as <-.
  apply set_eq_spec in E1. apply nodup_b_spec in E2. apply Nat.eqb_eq in E3.
  auto.
Qed.

Lemma size_of_transposed (order : list dim) (a : DataArray) (d : dim) :
  In d order ->
  size_of d (mk_DataArray order
               (transpose_nd (map (fun x => index_of x (dims a)) order) (values a))
               (coords a) (attrs a))
  = size_of d a.
Proof.
  intros Hin. unfold size_of at 1. simpl. rewrite map_map.
  apply (nth_index_of_map (fun x => size_of x a) order d Hin).
Qed.


Lemma within_ext (s1 s2 : list nat) (idx : list nat) :
  s1 = s2 -> within s1 idx -> within s2 idx.
Proof. now intros ->. Qed.

Lemma getitem_cname (k : string) (a : DataArray) (c : coord) :
  getitem k a = inr c -> cname c = k.
Proof.
  unfold getitem. destruct (coords_get k (coords a)) as [c0|] eqn:E.
  - intros H. inversion H; subst. now destruct (coords_get_In _ _ _ E).
  - destruct (mem k (dims a)); [|discriminate]. intros H. now inversion H.
Qed.






Lemma apply_over_dims_single (callable : Callable) (a : DataArray)
    (ds : list dim) (a' : DataArray) :
  ds <> [] -> transpose_front ds a = inr a' ->
  apply_over_dims callable [a] ds
  = apply_helper callable (map (fun d => size_of d a') ds) ds [a'].
Proof.
  intros Hds Et. unfold apply_over_dims. simpl. rewrite Et. simpl.
  destruct ds; [congruence | reflexivity].
Qed.


(** ** apply_over_dims with the identity callable: one axis *)

Lemma traverse_map_ok {A B : Type} (f : A -> result B) (g : A -> B) (l : list A) :
  (forall x, In x l -> f x = inr (g x)) -> traverse f l = inr (map g l).
Proof.
  induction l as [|x r IH]; simpl; intros H; [reflexivity|].
  rewrite (H x (or_introl eq_refl)). simpl.
  rewrite IH by (intros y Hy; apply H; now right). reflexivity.
Qed.

Lemma isel_first (d : dim) (tl : list dim) (a : DataArray) (s : nat) :
  dims a = d :: tl -> s < size_of d a -> isel d s a = inr (slice_at d a s).
Proof.
  intros Hd Hs. unfold isel, slice_at. rewrite Hd. simpl.
  rewrite String.eqb_refl. simpl.
  apply Nat.ltb_lt in Hs. rewrite Hs. reflexivity.
Qed.

Lemma base_results (d : dim) (tl : list dim) (a : DataArray) :
  dims a = d :: tl ->
  traverse (level_result identity_callable [] [] d [a]) (seq 0 (size_of d a))
  = inr (map Some (map (slice_at d a) (seq 0 (size_of d a)))).
Proof.
  intros Hd. rewrite map_map. apply traverse_map_ok.
  intros s Hs. apply in_seq in Hs. unfold level_result. simpl.
  rewrite (isel_first d tl a s Hd) by lia. reflexivity.
Qed.

















Lemma attrs_get_of_key (k : string) (t : attr_dict) :
  In k (attrs_keys t) ->
  exists v, attrs_get k t = Some v /\ In (k, v) (attrs_items t).
Proof.
  induction t as [|k0 v0 r IH]; simpl; [tauto|].
  intros Hin. destruct (String.eqb_spec k k0) as [->|Hne].
  - exists v0. auto.
  - destruct IH as (v & Hv & Hi); [destruct Hin; [congruence | assumption]|].
    exists v. auto.
Qed.











(** * Further properties *)

(** ** apply_over_dims: arguments it cannot walk *)

Lemma transpose_front_missing (ds : list dim) (a : DataArray) (d : dim) :
  In d ds -> ~ In d (dims a) -> transpose_front ds a = inl ValueError.
Proof.
  intros Hd Hn. unfold transpose_front.
  destruct (subset ds (dims a)) eqn:Es; [|reflexivity].
  apply subset_incl in Es. elim Hn. now apply Es.
Qed.

(** X1.  [apply_over_dims] raises [IndexError] when it is given no array,
    whatever the axes, and when it is given no axis: [sizes[0]] and
    [asms[0]] do not exist.  The callable is not consulted. *)
Theorem apply_over_dims_nothing_to_walk (callable : Callable) :
  (forall ds, apply_over_dims callable [] ds = inl IndexError)
  /\ (forall asms, failed (apply_over_dims callable asms []))
  /\ (forall asms, Forall (fun a => NoDup (dims a)) asms ->
        apply_over_dims callable asms [] = inl IndexError).
Proof.
  split; [|split].
  - intros [|d ds]; reflexivity.
  - intros asms. unfold apply_over_dims.
    destruct (traverse (transpose_front []) asms) as [e|l].
    + exists e. reflexivity.
    + exists IndexError. reflexivity.
  - intros asms Hall. unfold apply_over_dims.
    assert (H : traverse (transpose_front []) asms
                = inr (map (fun a => mk_DataArray (dims a)
                              (transpose_nd (map (fun d => index_of d (dims a)) (dims a))
                                 (values a))
                              (coords a) (attrs a)) asms)).
    { apply traverse_map_ok. intros a Ha.
      rewrite Forall_forall in Hall. specialize (Hall a Ha).
      unfold transpose_front. change (subset [] (dims a)) with true. cbv iota.
      assert (Hf : filter (fun x => negb (mem x [])) (dims a) = dims a).
      { clear. induction (dims a) as [|x l IH]; [reflexivity|].
        simpl. f_equal. exact IH. }
      change ([] ++ filter (fun x => negb (mem x [])) (dims a))
        with (filter (fun x => negb (mem x [])) (dims a)).
      rewrite Hf.
      apply transpose_ok; [exact Hall | exact Hall | intros x; reflexivity]. }
    rewrite H. reflexivity.
Qed.

Lemma apply_over_dims_nothing_to_walk_witness :
  apply_over_dims identity_callable [asm_attr] [] = inl IndexError.
Proof.
  destruct (apply_over_dims_nothing_to_walk identity_callable) as (_ & _ & H).
  apply H. constructor; [|constructor]. apply nodup_b_spec. reflexivity.
Defined.

(** X2.  [apply_over_dims] raises [ValueError] when one of the walked axes
    is not an axis of the first array: [transpose] rejects the name before
    the callable sees a slice. *)
Theorem apply_over_dims_unknown_axis (callable : Callable) (a : DataArray)
    (rest : list DataArray) (ds : list dim) (d : dim)
    (Hd : In d ds) (Hn : ~ In d (dims a)) :
  apply_over_dims callable (a :: rest) ds = inl ValueError.
Proof.
  unfold apply_over_dims. simpl.
  rewrite (transpose_front_missing ds a d Hd Hn). reflexivity.
Qed.

Lemma apply_over_dims_unknown_axis_witness :
  apply_over_dims identity_callable [asm_attr] ["a"; "z"] = inl ValueError.
Proof.
  apply (apply_over_dims_unknown_axis identity_callable asm_attr [] ["a"; "z"] "z").
  - simpl. right. now left.
  - simpl. intros [H|[H|[]]]; discriminate.
Defined.

(** ** apply_over_dims: when nothing comes back *)

Lemma size_of_slice (d d' : dim) (tl : list dim) (a : DataArray) (s : nat) :
  dims a = d :: tl -> d' <> d ->
  size_of d' (slice_at d a s) = size_of d' a.
Proof.
  intros Hd Hne. unfold size_of, slice_at. simpl. rewrite Hd. simpl.
  destruct (String.eqb d' d) eqn:E; [apply String.eqb_eq in E; congruence|].
  destruct (shape (values a)) as [|n sh]; simpl; [|reflexivity].
  now destruct (index_of d' tl).
Qed.

Lemma transpose_front_ok (ds : list dim) (a : DataArray) :
  NoDup (dims a) -> NoDup ds -> incl ds (dims a) ->
  transpose_front ds a
  = inr (mk_DataArray (ds ++ filter (fun x => negb (mem x ds)) (dims a))
           (transpose_nd
              (map (fun x => index_of x (dims a))
                   (ds ++ filter (fun x => negb (mem x ds)) (dims a)))
              (values a))
           (coords a) (attrs a)).
Proof.
  intros Hnd Hds Hin. unfold transpose_front.
  assert (Hsub : subset ds (dims a) = true) by now apply subset_incl.
  rewrite Hsub.
  assert (Hfil : forall x, In x (filter (fun x => negb (mem x ds)) (dims a))
                           <-> In x (dims a) /\ ~ In x ds).
  { intros x. rewrite filter_In, negb_true_iff, mem_false. reflexivity. }
  apply transpose_ok.
  - apply NoDup_app; [exact Hds | now apply NoDup_filter |].
    intros x Hx Hx'. apply Hfil in Hx'. tauto.
  - exact Hnd.
  - intros x. rewrite in_app_iff, Hfil. split.
    + intros [H|[H _]]; [now apply Hin | exact H].
    + intros Hx. destruct (in_dec string_dec x ds); [now left | now right].
Qed.

(** one array, its walked axes in front: no slice is ever out of range, and
    the walk yields nothing when an axis is empty or the callable returns
    [None] throughout *)
Lemma apply_helper_nothing (callable : Callable) (ds : list dim) :
  forall (a : DataArray) (tl : list dim),
    ds <> [] -> dims a = ds ++ tl -> NoDup ds ->
    (existsb (fun d => Nat.eqb (size_of d a) 0) ds = true
     \/ forall slices, callable slices = inr None) ->
    apply_helper callable (map (fun d => size_of d a) ds) ds [a] = inr None.
Proof.
  induction ds as [|d rds IH]; intros a tl Hne Hd Hnd Hcase; [congruence|].
  simpl map. rewrite apply_helper_unfold.
  inversion Hnd as [|? ? Hnotin Hnd']; subst.
  assert (Hres : traverse (level_result callable (map (fun d0 => size_of d0 a) rds)
                             rds d [a]) (seq 0 (size_of d a))
                 = inr (map (fun _ => None) (seq 0 (size_of d a)))).
  { apply traverse_map_ok. intros s Hs. apply in_seq in Hs.
    unfold level_result. simpl traverse.
    rewrite (isel_first d (rds ++ tl) a s Hd) by lia. simpl.
    destruct rds as [|d1 rds1].
    - simpl. destruct Hcase as [Hz|Hc]; [|apply Hc].
      simpl in Hz. rewrite orb_false_r in Hz. apply Nat.eqb_eq in Hz. lia.
    - assert (Hsz : map (fun d0 => size_of d0 a) (d1 :: rds1)
                    = map (fun d0 => size_of d0 (slice_at d a s)) (d1 :: rds1)).
      { apply map_ext_in. intros x Hx. symmetry.
        apply (size_of_slice d x (d1 :: rds1 ++ tl)); [exact Hd|].
        intros ->. now apply Hnotin. }
      remember (d1 :: rds1) as rds eqn:Er.
      assert (Hrn : rds <> []) by (subst; discriminate).
      destruct (map (fun d0 => size_of d0 a) rds) eqn:Em.
      { subst rds. discriminate. }
      rewrite Hsz.
      apply (IH (slice_at d a s) tl Hrn).
      + unfold slice_at. simpl. now rewrite Hd.
      + exact Hnd'.
      + destruct Hcase as [Hz|Hc]; [|now right]. left.
        simpl in Hz. apply orb_true_iff in Hz. destruct Hz as [Hz|Hz].
        * apply Nat.eqb_eq in Hz. lia.
        * rewrite existsb_exists in *. destruct Hz as (x & Hx & Hx0).
          exists x. split; [exact Hx|].
          rewrite (size_of_slice d x (rds ++ tl)); [exact Hx0 | exact Hd |].
          intros ->. now apply Hnotin. }
  rewrite Hres. simpl. apply reassemble_empty. apply all_none_survivors.
  intros r Hr. apply in_map_iff in Hr. now destruct Hr as (_ & <- & _).
Qed.

Lemma apply_over_dims_nothing (callable : Callable) (a : DataArray)
    (ds : list dim) :
  NoDup (dims a) -> NoDup ds -> ds <> [] -> incl ds (dims a) ->
  (existsb (fun d => Nat.eqb (size_of d a) 0) ds = true
   \/ forall slices, callable slices = inr None) ->
  apply_over_dims callable [a] ds = inr None.
Proof.
  intros Hnd Hds Hne Hin Hcase.
  pose proof (transpose_front_ok ds a Hnd Hds Hin) as Et.
  set (order := ds ++ filter (fun x => negb (mem x ds)) (dims a)) in *.
  set (a' := mk_DataArray order
               (transpose_nd (map (fun x => index_of x (dims a)) order) (values a))
               (coords a) (attrs a)) in *.
  assert (Hsz : forall d, In d ds -> size_of d a' = size_of d a).
  { intros d Hd. apply size_of_transposed. unfold order. apply in_or_app.
    now left. }
  rewrite (apply_over_dims_single callable a ds a' Hne Et).
  apply (apply_helper_nothing callable ds a'
           (filter (fun x => negb (mem x ds)) (dims a)) Hne eq_refl Hds).
  destruct Hcase as [Hz|Hc]; [left | now right].
  rewrite existsb_exists in *. destruct Hz as (x & Hx & Hx0).
  exists x. split; [exact Hx|]. now rewrite (Hsz x Hx).
Qed.

(** X3.  When one of the walked axes of the array has no entry,
    [apply_over_dims] returns [None], not an empty array, and this for every
    callable, also one that would raise: no slice reaches it. *)
Theorem apply_over_dims_empty_axis (callable : Callable) (a : DataArray)
    (ds : list dim) (d : dim)
    (Hnd : NoDup (dims a)) (Hds : NoDup ds) (Hin : incl ds (dims a))
    (Hd : In d ds) (Hz : size_of d a = 0) :
  apply_over_dims callable [a] ds = inr None.
Proof.
  apply apply_over_dims_nothing; try assumption.
  - intros ->. exact Hd.
  - left. apply existsb_exists. exists d. split; [exact Hd|].
    now apply Nat.eqb_eq.
Qed.

Lemma apply_over_dims_empty_axis_witness :
  apply_over_dims raising [asm_empty] ["b"; "a"] = inr None.
Proof.
  apply (apply_over_dims_empty_axis raising asm_empty ["b"; "a"] "a").
  - apply nodup_b_spec. reflexivity.
  - apply nodup_b_spec. reflexivity.
  - apply subset_incl. reflexivity.
  - simpl. right. now left.
  - reflexivity.
Defined.

(** X4.  When the callable returns [None] for every slice,
    [apply_over_dims] returns [None] for every array and every choice of
    distinct axes of it. *)
Theorem apply_over_dims_all_none (callable : Callable) (a : DataArray)
    (ds : list dim)
    (Hnone : forall slices, callable slices = inr None)
    (Hnd : NoDup (dims a)) (Hds : NoDup ds) (Hne : ds <> [])
    (Hin : incl ds (dims a)) :
  apply_over_dims callable [a] ds = inr None.
Proof.
  apply apply_over_dims_nothing; try assumption. now right.
Qed.

Lemma apply_over_dims_all_none_witness :
  apply_over_dims silent [asm_attr] ["b"; "a"] = inr None.
Proof.
  apply (apply_over_dims_all_none silent asm_attr ["b"; "a"]).
  - intros slices. reflexivity.
  - apply nodup_b_spec. reflexivity.
  - apply nodup_b_spec. reflexivity.
  - discriminate.
  - apply subset_incl. reflexivity.
Defined.

(** ** XarrayRegression: what fit and predict reject *)

(** X5.  [fit] and [predict] check the axes before anything else: an array
    whose set of axis names is not the expected one makes them raise
    [AssertionError], whatever the wrapped regression does and whether or
    not the adapter was fitted. *)
Theorem fit_predict_check_axes {M : Type} (self : XarrayRegression M) :
  (forall source target,
      ~ set_equal (dims source) (_expected_dims self) ->
      fit self source target = inl AssertionError)
  /\ (forall source target,
        NoDup (_expected_dims self) -> NoDup (dims source) ->
        set_equal (dims source) (_expected_dims self) ->
        ~ set_equal (dims target) (_expected_dims self) ->
        fit self source target = inl AssertionError)
  /\ (forall source,
        ~ set_equal (dims source) (_expected_dims self) ->
        predict self source = inl AssertionError).
Proof.
  split; [|split].
  - intros source target Hn. unfold fit.
    now rewrite (align_mismatch _ _ Hn).
  - intros source target He Hd Hs Hn. unfold fit.
    rewrite (align_ok _ _ He Hd Hs). simpl.
    now rewrite (align_mismatch _ _ Hn).
  - intros source Hn. unfold predict.
    now rewrite (align_mismatch _ _ Hn).
Qed.

Lemma fit_predict_check_axes_witness :
  fit toy_adapter asm_attr target_two = inl AssertionError
  /\ predict fitted_two asm_attr = inl AssertionError.
Proof.
  assert (Hn : ~ set_equal (dims asm_attr) presentation_neuroid).
  { intros H. assert (Hin : In "a" presentation_neuroid)
      by (apply H; simpl; tauto).
    simpl in Hin. destruct Hin as [H0|[H0|[]]]; discriminate. }
  split.
  - destruct (fit_predict_check_axes toy_adapter) as (H & _ & _).
    now apply H.
  - destruct (fit_predict_check_axes fitted_two) as (_ & _ & H).
    now apply H.
Defined.

Lemma getitem_missing (key : string) (a : DataArray) :
  coords_get key (coords a) = None -> ~ In key (dims a) ->
  getitem key a = inl KeyError.
Proof.
  intros Hc Hn. unfold getitem. rewrite Hc.
  destruct (mem key (dims a)) eqn:E; [|reflexivity].
  apply mem_In in E. contradiction.
Qed.

(** X6.  [fit] sorts by the stimulus coordinate and so needs it on both
    arrays: when the source has neither a coordinate nor an axis of that
    name [fit] raises [KeyError], when the coordinate of the source does not
    lie on exactly one axis it raises [ValueError], and when the source can
    be sorted but the target lacks the name it raises [KeyError]; the
    regression is not fitted in any of these cases. *)
Theorem fit_needs_stimulus_coordinate {M : Type} (self : XarrayRegression M)
    (source target : DataArray)
    (He : NoDup (_expected_dims self))
    (Hs : NoDup (dims source)) (Ht : NoDup (dims target))
    (Hss : set_equal (dims source) (_expected_dims self))
    (Hst : set_equal (dims target) (_expected_dims self)) :
  (coords_get (_stimulus_coord self) (coords source) = None ->
   ~ In (_stimulus_coord self) (_expected_dims self) ->
   fit self source target = inl KeyError)
  /\ (forall c, coords_get (_stimulus_coord self) (coords source) = Some c ->
                List.length (cdims c) <> 1 ->
                fit self source target = inl ValueError)
  /\ (forall c d, coords_get (_stimulus_coord self) (coords source) = Some c ->
                  cdims c = [d] ->
                  coords_get (_stimulus_coord self) (coords target) = None ->
                  ~ In (_stimulus_coord self) (_expected_dims self) ->
                  fit self source target = inl KeyError).
Proof.
  split; [|split].
  - intros Hc Hn. unfold fit.
    rewrite (align_ok _ _ He Hs Hss), (align_ok _ _ He Ht Hst). simpl.
    unfold sortby1. rewrite getitem_missing; [reflexivity | exact Hc | exact Hn].
  - intros c Hc Hl. unfold fit.
    rewrite (align_ok _ _ He Hs Hss), (align_ok _ _ He Ht Hst). simpl.
    unfold sortby1, getitem. simpl coords. rewrite Hc. simpl.
    destruct (cdims c) as [|x [|y r]]; try reflexivity. simpl in Hl. congruence.
  - intros c d Hc Hd Hct Hn. unfold fit.
    rewrite (align_ok _ _ He Hs Hss), (align_ok _ _ He Ht Hst). simpl.
    unfold sortby1 at 1. unfold getitem at 1. simpl coords. rewrite Hc. simpl.
    rewrite Hd. simpl.
    unfold sortby1. rewrite getitem_missing; [reflexivity | exact Hct | exact Hn].
Qed.

Lemma fit_needs_stimulus_coordinate_witness :
  fit toy_adapter source_plain target_unlabelled = inl KeyError.
Proof.
  assert (He : NoDup (_expected_dims toy_adapter))
    by (apply nodup_b_spec; reflexivity).
  assert (Hs : NoDup (dims source_plain)) by (apply nodup_b_spec; reflexivity).
  assert (Ht : NoDup (dims target_unlabelled))
    by (apply nodup_b_spec; reflexivity).
  assert (Hss : set_equal (dims source_plain) (_expected_dims toy_adapter))
    by (apply set_eq_spec; reflexivity).
  assert (Hst : set_equal (dims target_unlabelled) (_expected_dims toy_adapter))
    by (apply set_eq_spec; reflexivity).
  destruct (fit_needs_stimulus_coordinate toy_adapter source_plain
              target_unlabelled He Hs Ht Hss Hst) as (_ & _ & H).
  apply (H (mk_coord "stimulus_id" ["presentation"] (of_list [3; 1; 2]%Z))
           "presentation").
  - reflexivity.
  - reflexivity.
  - reflexivity.
  - simpl. intros [H0|[H0|[]]]; discriminate.
Defined.

(** ** Sorting *)

Lemma insert_key_perm (x : Z * nat) (l : list (Z * nat)) :
  Permutation (insert_key x l) (x :: l).
Proof.
  induction l as [|y r IH]; simpl; [apply Permutation_refl|].
  destruct (fst x <=? fst y)%Z; [apply Permutation_refl|].
  apply perm_trans with (y :: x :: r); [now apply perm_skip | apply perm_swap].
Qed.

Lemma insert_key_sorted (x : Z * nat) (l : list (Z * nat)) :
  StronglySorted (fun p q => (fst p <= fst q)%Z) l ->
  StronglySorted (fun p q => (fst p <= fst q)%Z) (insert_key x l).
Proof.
  induction 1 as [|y r Hs IH Hall]; simpl.
  - constructor; constructor.
  - destruct (fst x <=? fst y)%Z eqn:E.
    + apply Z.leb_le in E. constructor.
      * now constructor.
      * constructor; [exact E|].
        rewrite Forall_forall in *. intros z Hz. specialize (Hall z Hz). lia.
    + apply Z.leb_gt in E. constructor; [exact IH|].
      rewrite Forall_forall in *. intros z Hz.
      apply (Permutation_in _ (insert_key_perm x r)) in Hz.
      destruct Hz as [<-|Hz]; [lia | now apply Hall].
Qed.

Lemma sort_keys_spec (l : list (Z * nat)) :
  StronglySorted (fun p q => (fst p <= fst q)%Z) (fold_right insert_key [] l)
  /\ Permutation (fold_right insert_key [] l) l.
Proof.
  induction l as [|x r [IHs IHp]]; simpl.
  - split; [constructor | apply Permutation_refl].
  - split; [now apply insert_key_sorted|].
    apply perm_trans with (x :: fold_right insert_key [] r);
      [apply insert_key_perm | now apply perm_skip].
Qed.

Lemma sorted_map_fst (l : list (Z * nat)) :
  StronglySorted (fun p q => (fst p <= fst q)%Z) l ->
  StronglySorted Z.le (map fst l).
Proof.
  induction 1 as [|y r Hs IH Hall]; simpl; constructor; [exact IH|].
  rewrite Forall_forall in *. intros z Hz. apply in_map_iff in Hz.
  destruct Hz as (p & <- & Hp). now apply Hall.
Qed.

Lemma combine_seq_fst (l : list Z) :
  forall s, map fst (combine l (seq s (List.length l))) = l.
Proof.
  induction l as [|x r IH]; intros s; simpl; [reflexivity|]. now rewrite IH.
Qed.

Lemma combine_seq_snd (l : list Z) :
  forall s, map snd (combine l (seq s (List.length l))) = seq s (List.length l).
Proof.
  induction l as [|x r IH]; intros s; simpl; [reflexivity|]. now rewrite IH.
Qed.

Lemma combine_seq_In (l : list Z) :
  forall s z i, In (z, i) (combine l (seq s (List.length l))) ->
                s <= i /\ nth (i - s) l 0%Z = z.
Proof.
  induction l as [|x r IH]; intros s z i H; simpl in H; [contradiction|].
  destruct H as [H|H].
  - inversion H; subst. split; [lia|]. now rewrite Nat.sub_diag.
  - apply IH in H. destruct H as [Hs Hn]. split; [lia|].
    replace (i - s) with (S (i - S s)) by lia. exact Hn.
Qed.

(** [argsort] returns the positions [0 .. n-1] in an order that reads the
    list in ascending order *)
Lemma argsort_spec (l : list Z) :
  Permutation (argsort l) (seq 0 (List.length l))
  /\ StronglySorted Z.le (map (fun i => nth i l 0%Z) (argsort l))
  /\ Permutation (map (fun i => nth i l 0%Z) (argsort l)) l.
Proof.
  unfold argsort.
  destruct (sort_keys_spec (combine l (seq 0 (List.length l)))) as [Hs Hp].
  set (sorted := fold_right insert_key [] (combine l (seq 0 (List.length l)))) in *.
  assert (Hm : map (fun i => nth i l 0%Z) (map snd sorted) = map fst sorted).
  { rewrite map_map. apply map_ext_in. intros [z i] Hin.
    apply (Permutation_in _ Hp) in Hin. apply combine_seq_In in Hin.
    simpl. destruct Hin as [_ Hn]. now rewrite Nat.sub_0_r in Hn. }
  split; [|split].
  - rewrite <- (combine_seq_snd l 0). now apply Permutation_map.
  - rewrite Hm. now apply sorted_map_fst.
  - rewrite Hm. apply perm_trans with (map fst (combine l (seq 0 (List.length l)))).
    + now apply Permutation_map.
    + rewrite combine_seq_fst. apply Permutation_refl.
Qed.

Lemma to_list_nth (v : ndarray) (i : nat) :
  i < hd 0 (shape v) -> nth i (to_list v) 0%Z = item v [i].
Proof.
  intros Hi. unfold to_list.
  rewrite (nth_indep _ 0%Z (item v [0])) by now rewrite length_map, length_seq.
  rewrite (map_nth (fun i => item v [i])). now rewrite seq_nth.
Qed.

Lemma map_seq_shift {A : Type} (g : nat -> A) (order : list nat) :
  map (fun j => g (nth j order 0)) (seq 0 (List.length order)) = map g order.
Proof.
  induction order as [|x r IH]; [reflexivity|].
  simpl. f_equal. rewrite <- seq_shift, map_map. exact IH.
Qed.

Lemma to_list_take (order : list nat) (v : ndarray) :
  shape v <> [] \/ order = [] ->
  to_list (take_nd 0 order v) = map (fun i => item v [i]) order.
Proof.
  intros H. unfold to_list, take_nd. cbn [shape item].
  destruct (shape v) as [|n sh] eqn:Es.
  - destruct H as [H | ->]; [congruence | reflexivity].
  - cbn [set_nth hd]. apply (map_seq_shift (fun i => item v [i])).
Qed.

Lemma to_list_of_list (l : list Z) : to_list (of_list l) = l.
Proof.
  unfold to_list, of_list. cbn [shape item hd].
  apply nth_ext with (d := 0%Z) (d' := 0%Z).
  - now rewrite length_map, length_seq.
  - intros n Hn. rewrite length_map, length_seq in Hn.
    rewrite (nth_indep _ 0%Z (nth 0 l 0%Z)) by now rewrite length_map, length_seq.
    rewrite (map_nth (fun i => nth i l 0%Z)). now rewrite seq_nth.
Qed.

(** sorting the labels [v] by themselves *)
Lemma take_argsort (v : ndarray) :
  to_list (take_nd 0 (argsort (to_list v)) v)
  = map (fun i => nth i (to_list v) 0%Z) (argsort (to_list v)).
Proof.
  destruct (argsort_spec (to_list v)) as (Hp & _).
  rewrite to_list_take.
  - apply map_ext_in. intros i Hi. symmetry. apply to_list_nth.
    apply (Permutation_in _ Hp) in Hi. apply in_seq in Hi.
    rewrite to_list_length in Hi. lia.
  - destruct (shape v) as [|n sh] eqn:Es; [right | left; discriminate].
    unfold to_list. rewrite Es. reflexivity.
Qed.

Lemma range_sorted (n : nat) :
  forall s, StronglySorted Z.le (map Z.of_nat (seq s n)).
Proof.
  induction n as [|n IH]; intros s; simpl; constructor; [apply IH|].
  apply Forall_forall. intros z Hz. apply in_map_iff in Hz.
  destruct Hz as (i & <- & Hi). apply in_seq in Hi. lia.
Qed.

Lemma getitem_take_along (key : string) (d : dim) (order : list nat)
    (a : DataArray) (c : coord) :
  coords_get key (coords a) = Some c ->
  getitem key (take_along d order a) = inr (take_coord d order c).
Proof.
  intros Hc. unfold getitem, take_along. cbn [coords].
  rewrite coords_get_map by (intros c0; apply take_coord_cdims).
  now rewrite Hc.
Qed.

(** [a.sortby(key)] leaves the labels of [key] in ascending order, and they
    are the labels [a] had *)
Lemma sortby1_labels (key : string) (a a' : DataArray) :
  sortby1 key a = inr a' ->
  exists l l',
    labels_of key a = inr l /\ labels_of key a' = inr l'
    /\ StronglySorted Z.le l' /\ Permutation l' l.
Proof.
  intros Hs. destruct (sortby1_axis key a a' Hs) as (c & d & Hg & Hd & ->).
  destruct (argsort_spec (to_list (cvalues c))) as (Hp & Hsorted & Hperm).
  exists (to_list (cvalues c)). unfold labels_of. rewrite Hg. cbn [and_then].
  unfold getitem in Hg. destruct (coords_get key (coords a)) as [c0|] eqn:Ec.
  - inversion Hg; subst c0.
    rewrite (getitem_take_along key d _ a c Ec). cbn [and_then].
    unfold take_coord. rewrite Hd. cbn [mem existsb index_of].
    rewrite String.eqb_refl. cbn [orb cvalues].
    exists (to_list (take_nd 0 (argsort (to_list (cvalues c))) (cvalues c))).
    rewrite take_argsort. repeat split; assumption.
  - destruct (mem key (dims a)) eqn:Em; [|discriminate].
    inversion Hg; subst c. cbn [cdims] in Hd. inversion Hd; subst d.
    cbn [cvalues] in *. rewrite !to_list_of_list.
    clear Hp Hsorted Hperm.
    set (order := argsort (map Z.of_nat (seq 0 (size_of key a)))) in *.
    assert (Hlen : List.length order = size_of key a).
    { unfold order. now rewrite argsort_length, length_map, length_seq. }
    assert (Hsize : size_of key (take_along key order a) = size_of key a).
    { unfold size_of, take_along. cbn [dims values take_nd shape].
      rewrite Hlen. unfold size_of. now rewrite set_nth_same. }
    unfold getitem. cbn [take_along coords dims].
    rewrite coords_get_map by (intros c0; apply take_coord_cdims).
    rewrite Ec. cbn [option_map]. rewrite Em. unfold ok. cbn [and_then cvalues].
    fold (take_along key order a). rewrite Hsize, to_list_of_list.
    exists (map Z.of_nat (seq 0 (size_of key a))).
    repeat split; [apply range_sorted | apply Permutation_refl].
Qed.

(** ** XarrayRegression.fit: what the regression is fitted on *)

Lemma align_full_inv (expected : list dim) (a a' : DataArray) :
  _align expected a = inr a' ->
  set_equal expected (dims a)
  /\ a' = mk_DataArray expected
            (transpose_nd (map (fun d => index_of d (dims a)) expected) (values a))
            (coords a) (attrs a).
Proof.
  unfold _align. destruct (set_eq (dims a) expected); [|discriminate].
  simpl. intros H. apply transpose_inv in H. tauto.
Qed.

Lemma labels_of_aligned (expected : list dim) (key : string) (a a' : DataArray) :
  _align expected a = inr a' -> labels_of key a' = labels_of key a.
Proof.
  intros H. apply align_full_inv in H. destruct H as [Hset ->].
  unfold labels_of, getitem. cbn [coords dims].
  destruct (coords_get key (coords a)); [reflexivity|].
  destruct (mem key expected) eqn:E1; destruct (mem key (dims a)) eqn:E2.
  - apply mem_In in E1. now rewrite (size_of_transposed expected a key E1).
  - apply mem_In in E1. apply Hset in E1. apply mem_In in E1. congruence.
  - apply mem_In in E2. apply Hset in E2. apply mem_In in E2. congruence.
  - reflexivity.
Qed.

Lemma sortby1_dims (key : string) (a a' : DataArray) :
  sortby1 key a = inr a' -> dims a' = dims a.
Proof.
  intros H. apply sortby1_inv in H. destruct H as (d & order & ->).
  reflexivity.
Qed.

(** X7.  A successful [fit] hands the regression the source and the target
    with the expected axis order and with the labels of the stimulus
    coordinate in ascending order; on each of the two arrays these labels
    are a rearrangement of the labels the caller passed.  The model the
    regression returns on these two arrays is the one the adapter keeps. *)
Theorem fit_sorts_by_stimulus {M : Type} (self self' : XarrayRegression M)
    (source target : DataArray)
    (Hfit : fit self source target = inr self') :
  exists (s t : DataArray) (m : M) (ls lt ls0 lt0 : list Z),
    reg_fit (_regression self) s t = inr m
    /\ _model self' = Some m
    /\ dims s = _expected_dims self /\ dims t = _expected_dims self
    /\ labels_of (_stimulus_coord self) s = inr ls
    /\ labels_of (_stimulus_coord self) t = inr lt
    /\ StronglySorted Z.le ls /\ StronglySorted Z.le lt
    /\ labels_of (_stimulus_coord self) source = inr ls0
    /\ labels_of (_stimulus_coord self) target = inr lt0
    /\ Permutation ls ls0 /\ Permutation lt lt0.
Proof.
  destruct (fit_inv self self' source target Hfit)
    as (s1 & t1 & s2 & t2 & m & captured & Hs1 & Ht1 & Hs2 & Ht2 & Hm & _ & ->).
  destruct (sortby1_labels _ _ _ Hs2) as (ls0 & ls & Hls0 & Hls & Hss & Hps).
  destruct (sortby1_labels _ _ _ Ht2) as (lt0 & lt & Hlt0 & Hlt & Hst & Hpt).
  exists s2, t2, m, ls, lt, ls0, lt0.
  rewrite (labels_of_aligned _ _ _ _ Hs1) in Hls0.
  rewrite (labels_of_aligned _ _ _ _ Ht1) in Hlt0.
  repeat split; try assumption.
  - rewrite (sortby1_dims _ _ _ Hs2). now destruct (align_inv _ _ _ Hs1).
  - rewrite (sortby1_dims _ _ _ Ht2). now destruct (align_inv _ _ _ Ht1).
Qed.

Lemma fit_sorts_by_stimulus_witness :
  exists (s t : DataArray) (ls lt : list Z),
    dims s = presentation_neuroid /\ dims t = presentation_neuroid
    /\ labels_of "stimulus_id" s = inr ls /\ labels_of "stimulus_id" t = inr lt
    /\ StronglySorted Z.le ls /\ StronglySorted Z.le lt
    /\ Permutation ls [3; 1; 2]%Z /\ Permutation lt [3; 1; 2]%Z.
Proof.
  assert (Hfit : fit toy_adapter source_plain target_two = inr fitted_two)
    by reflexivity.
  destruct (fit_sorts_by_stimulus toy_adapter fitted_two source_plain
              target_two Hfit)
    as (s & t & m & ls & lt & ls0 & lt0 & _ & _ & Hds & Hdt & Hls & Hlt & Hss
        & Hst & Hls0 & Hlt0 & Hps & Hpt).
  exists s, t, ls, lt.
  assert (E0 : ls0 = [3; 1; 2]%Z) by (vm_compute in Hls0; congruence).
  assert (E1 : lt0 = [3; 1; 2]%Z) by (vm_compute in Hlt0; congruence).
  subst ls0 lt0. repeat split; assumption.
Defined.

(** ** XarrayRegression.predict: what the prediction is made of *)


Lemma level_dim_none (tv : list (string * ndarray)) :
  List.length tv <> 1 ->
  match tv with
  | [(k, _)] => Some k
  | _ => None
  end = None.
Proof.
  destruct tv as [|[k v] [|x r]]; simpl; intros H; congruence.
Qed.



Lemma rename_absent (nd k0 : dim) (r : list dim) :
  ~ In nd r ->
  map (fun d => if negb (String.eqb d nd) then d else k0) r = r.
Proof.
  induction r as [|y r IH]; intros Hn; [reflexivity|]. simpl.
  destruct (String.eqb_spec y nd) as [->|_].
  - exfalso. apply Hn. now left.
  - simpl. f_equal. apply IH. intros H. apply Hn. now right.
Qed.

Lemma rename_index (nd k0 : dim) (expected : list dim) :
  ~ In k0 expected -> NoDup expected -> In nd expected ->
  let dims1 := map (fun d => if negb (String.eqb d nd) then d else k0) expected in
  index_of k0 dims1 = index_of nd expected
  /\ remove_nth (index_of nd expected) dims1
     = remove_nth (index_of nd expected) expected.
Proof.
  induction expected as [|x r IH]; intros Hk Hnd Hin; [contradiction|].
  inversion Hnd as [|? ? Hx Hr]; subst. simpl.
  assert (Hkx : String.eqb k0 x = false).
  { apply String.eqb_neq. intros ->. apply Hk. now left. }
  destruct (String.eqb_spec x nd) as [->|Hne].
  - simpl. rewrite !String.eqb_refl. simpl. split; [reflexivity|].
    now apply rename_absent.
  - simpl. rewrite Hkx.
    destruct (String.eqb_spec nd x) as [->|_]; [congruence|].
    destruct Hin as [->|Hin]; [congruence|].
    destruct IH as [IH1 IH2]; try assumption.
    { intros H. apply Hk. now right. }
    simpl in IH1, IH2. rewrite IH1. split; [reflexivity|]. simpl.
    now rewrite IH2.
Qed.

Lemma rename_mem (nd k0 : dim) (expected : list dim) :
  ~ In k0 expected ->
  mem k0 (map (fun d => if negb (String.eqb d nd) then d else k0) expected) = true ->
  In nd expected.
Proof.
  intros Hk Hm. apply mem_In in Hm. apply in_map_iff in Hm.
  destruct Hm as (x & Hx & Hin).
  destruct (String.eqb_spec x nd) as [E|E]; simpl in Hx.
  - now rewrite <- E.
  - rewrite Hx in Hin. contradiction.
Qed.

Lemma nth_seq_map {A : Type} (d : A) (l : list A) :
  map (fun q => nth q l d) (seq 0 (List.length l)) = l.
Proof.
  induction l as [|x r IH]; [reflexivity|].
  simpl. f_equal. rewrite <- seq_shift, map_map. exact IH.
Qed.

Lemma index_nat_seq (n : nat) :
  forall s q, s <= q < s + n -> index_nat q (seq s n) = q - s.
Proof.
  induction n as [|n IH]; intros s q H; [lia|]. simpl.
  destruct (Nat.eqb_spec q s) as [->|Hne]; [lia|].
  rewrite IH by lia. lia.
Qed.

(** transposing with the axes in their own order changes nothing *)
Lemma transpose_nd_id (a : ndarray) :
  shape (transpose_nd (seq 0 (List.length (shape a))) a) = shape a
  /\ forall idx, List.length idx = List.length (shape a) ->
       item (transpose_nd (seq 0 (List.length (shape a))) a) idx = item a idx.
Proof.
  unfold transpose_nd. cbn [shape item]. split; [apply nth_seq_map|].
  intros idx Hl. f_equal. rewrite length_seq, <- Hl.
  transitivity (map (fun q => nth q idx 0) (seq 0 (List.length idx)));
    [|apply nth_seq_map].
  apply map_ext_in.
  intros q Hq. apply in_seq in Hq. rewrite index_nat_seq by lia.
  now rewrite Nat.sub_0_r.
Qed.

Lemma remove_nth_last {A : Type} (front : list A) (x : A) :
  remove_nth (List.length front) (front ++ [x]) = front.
Proof. induction front as [|y r IH]; simpl; [reflexivity | now rewrite IH]. Qed.

Lemma index_of_last (front : list dim) (x : dim) :
  ~ In x front -> index_of x (front ++ [x]) = List.length front.
Proof.
  induction front as [|y r IH]; intros Hn; simpl.
  - now rewrite String.eqb_refl.
  - destruct (String.eqb_spec x y) as [->|_]; [elim Hn; now left|].
    rewrite IH; [reflexivity|]. intros H. apply Hn. now right.
Qed.

Lemma move_last_last (a : ndarray) (i : nat) :
  List.length (shape a) = S i ->
  move_last i a = transpose_nd (seq 0 (List.length (shape a))) a.
Proof.
  intros Hl. unfold move_last. rewrite Hl, seq_S. simpl.
  rewrite <- (length_seq i 0) at 1. now rewrite remove_nth_last.
Qed.

(** X9.  When the adapter holds exactly one neuroid coordinate, under a
    non-empty name that is not an expected axis, a prediction that
    [predict] returns has the neuroid axis moved to the end: its axes are
    the other expected axes in their order, then the neuroid axis, and its
    values are those of the regression with that axis moved last.  When the
    neuroid axis is the last expected axis already, the prediction has the
    expected axes and the values of the regression at every index. *)
Theorem predict_single_moves_neuroid_last {M : Type} (self : XarrayRegression M)
    (source p : DataArray) (k0 : string) (v0 : ndarray)
    (Htv : _target_neuroid_values self = Some [(k0, v0)])
    (Ht : truthy k0 = true) (Hk : ~ In k0 (_expected_dims self))
    (Hp : predict self source = inr p) :
  exists (s : DataArray) (pv : ndarray),
    _align (_expected_dims self) source = inr s
    /\ reg_predict (_regression self) (_model self) s = inr pv
    /\ In (_neuroid_dim self) (_expected_dims self)
    /\ dims p
       = remove_nth (index_of (_neuroid_dim self) (_expected_dims self))
           (_expected_dims self) ++ [_neuroid_dim self]
    /\ values p
       = move_last (index_of (_neuroid_dim self) (_expected_dims self)) pv
    /\ (forall front, _expected_dims self = front ++ [_neuroid_dim self] ->
          dims p = _expected_dims self
          /\ shape (values p) = shape pv
          /\ forall idx, List.length idx = List.length (_expected_dims self) ->
               item (values p) idx = item pv idx).
Proof.
  destruct (predict_inv self source p Hp) as (s & pv & Hs & Hpv & Hpk).
  exists s, pv. split; [exact Hs|]. split; [exact Hpv|].
  destruct (align_inv _ _ _ Hs) as (Hds & _ & _).
  assert (Hnd : NoDup (_expected_dims self)).
  { unfold _align in Hs.
    destruct (set_eq (dims source) (_expected_dims self)); [|discriminate].
    simpl in Hs. apply transpose_inv in Hs. tauto. }
  unfold _package_prediction in Hpk. rewrite Htv in Hpk. cbv zeta in Hpk.
  cbv beta iota in Hpk. rewrite Ht in Hpk. rewrite Hds in Hpk.
  set (dims1 := map (fun d => if negb (String.eqb d (_neuroid_dim self))
                              then d else k0) (_expected_dims self)) in *.
  match type of Hpk with
  | and_then ?n _ = _ => destruct n as [e|q] eqn:En; simpl in Hpk; [discriminate|]
  end.
  pose proof (new_Assembly_shape _ _ _ _ En) as El.
  unfold dims1 in El. rewrite length_map in El.
  apply new_Assembly_inv in En. destruct En as (cs' & _ & -> & _).
  unfold stack in Hpk. cbn [dims values coords attrs] in Hpk.
  destruct (mem k0 dims1) eqn:Em; [|discriminate].
  destruct (mem (_neuroid_dim self) dims1); [discriminate|].
  simpl in Hpk. inversion Hpk; subst p. clear Hpk. cbn [dims values].
  pose proof (rename_mem _ _ _ Hk Em) as Hin.
  destruct (rename_index (_neuroid_dim self) k0 (_expected_dims self) Hk Hnd Hin)
    as [Hi Hr].
  fold dims1 in Hi, Hr. unfold dim in *. rewrite Hi, Hr.
  split; [exact Hin|]. split; [reflexivity|]. split; [reflexivity|].
  intros front Hf.
  assert (Hnf : ~ In (_neuroid_dim self) front).
  { rewrite Hf in Hnd. apply NoDup_remove_2 in Hnd. now rewrite app_nil_r in Hnd. }
  assert (Hidx : index_of (_neuroid_dim self) (_expected_dims self)
                 = List.length front)
    by (rewrite Hf; now apply index_of_last).
  assert (Hrm : remove_nth (List.length front) (_expected_dims self) = front)
    by (rewrite Hf; apply remove_nth_last).
  unfold dim in *. rewrite Hidx, Hrm. split; [now symmetry|].
  assert (Hl : List.length (shape pv) = S (List.length front)).
  { rewrite El, Hf, length_app. simpl. lia. }
  rewrite (move_last_last pv _ Hl).
  destruct (transpose_nd_id pv) as [Hsh Hit].
  split; [exact Hsh|]. intros idx Hlen. apply Hit. now rewrite El.
Qed.

Lemma predict_single_moves_neuroid_last_witness :
  dims prediction_one = presentation_neuroid
  /\ shape (values prediction_one) = [3; 2]
  /\ item (values prediction_one) [2; 1] = 0%Z.
Proof.
  assert (Htv : _target_neuroid_values fitted_one
                = Some [("neuroid_id", of_list [10; 20]%Z)]) by reflexivity.
  assert (Hp : predict fitted_one source_plain = inr prediction_one)
    by reflexivity.
  assert (Hk : ~ In "neuroid_id" (_expected_dims fitted_one)).
  { simpl. intros [H|[H|[]]]; discriminate. }
  destruct (predict_single_moves_neuroid_last fitted_one source_plain
              prediction_one "neuroid_id" _ Htv eq_refl Hk Hp)
    as (s & pv & Hs & Hpv & _ & _ & _ & Hlast).
  destruct (Hlast ["presentation"] eq_refl) as (Hd & Hsh & Hit).
  assert (Es : s = match _align presentation_neuroid source_plain with
                   | inr a => a | inl _ => source_plain end).
  { change (_expected_dims fitted_one) with presentation_neuroid in Hs.
    now rewrite Hs. }
  assert (Epv : pv = mk_ndarray [3; 2] (fun _ => 0%Z)).
  { subst s. vm_compute in Hpv. now inversion Hpv. }
  split; [exact Hd|]. split.
  - rewrite Hsh, Epv. reflexivity.
  - rewrite (Hit [2; 1] eq_refl), Epv. reflexivity.
Defined.

Lemma dict_get_In (k : string) (v : ndarray) (tv : list (string * ndarray)) :
  NoDup (map fst tv) -> In (k, v) tv -> dict_get k tv = Some v.
Proof.
  induction tv as [|[k' v'] r IH]; simpl; intros Hnd Hin; [contradiction|].
  inversion Hnd as [|? ? Hx Hr]; subst.
  destruct Hin as [H|H].
  - inversion H; subst. now rewrite String.eqb_refl.
  - destruct (String.eqb_spec k k') as [->|_]; [|now apply IH].
    elim Hx. apply in_map_iff. now exists (k', v).
Qed.

(** X10.  [predict] raises [ValueError] when the values the regression
    returns cannot carry the labels: when they do not have one axis per
    expected axis, and, with no or several captured neuroid coordinates,
    when a captured coordinate has another number of labels than the
    returned values have entries along the neuroid axis. *)
Theorem predict_rejects_misfit {M : Type} (self : XarrayRegression M)
    (source s : DataArray) (pv : ndarray) (tv : list (string * ndarray))
    (Htv : _target_neuroid_values self = Some tv)
    (Hs : _align (_expected_dims self) source = inr s)
    (Hpv : reg_predict (_regression self) (_model self) s = inr pv) :
  (List.length (shape pv) <> List.length (_expected_dims self) ->
   predict self source = inl ValueError)
  /\ (forall k v,
        List.length tv <> 1 -> NoDup (map fst tv) -> In (k, v) tv ->
        hd 0 (shape v)
        <> nth (index_of (_neuroid_dim self) (_expected_dims self)) (shape pv) 0 ->
        predict self source = inl ValueError).
Proof.
  destruct (align_inv _ _ _ Hs) as (Hds & _ & _).
  split.
  - intros Hl. unfold predict. rewrite Hs. cbn [and_then]. rewrite Hpv.
    cbn [and_then]. unfold _package_prediction. rewrite Htv. cbv zeta.
    unfold new_Assembly, new_DataArray.
    match goal with
    | |- context [if ?b && _ then _ else _] =>
        assert (E : b = false); [|rewrite E; reflexivity]
    end.
    apply Nat.eqb_neq. rewrite Hds.
    destruct tv as [|[k v] [|x r]]; [exact Hl | | exact Hl].
    now rewrite length_map.
  - intros k v Hlen Hk Hin Hne. unfold predict. rewrite Hs. cbn [and_then].
    rewrite Hpv. cbn [and_then]. unfold _package_prediction. rewrite Htv.
    cbv zeta. rewrite (level_dim_none tv Hlen). cbn [or_else].
    unfold new_Assembly, new_DataArray.
    match goal with
    | |- context [if _ && ?b then _ else _] =>
        assert (E : b = false);
        [|rewrite E, andb_false_r; reflexivity]
    end.
    match goal with |- ?b = false => destruct b eqn:Ef; [|reflexivity] end.
    exfalso. rewrite forallb_forall in Ef.
    pose proof (fold_set_lookup (_neuroid_dim self) tv Hk
                  (source_coords (_neuroid_dim self) s) k) as Hg.
    rewrite (dict_get_In k v tv Hk Hin) in Hg.
    apply coords_get_In in Hg. destruct Hg as [Hc _].
    specialize (Ef _ Hc). unfold coord_fits in Ef. cbn [cdims cvalues] in Ef.
    apply andb_true_iff in Ef. destruct Ef as [_ Ef].
    cbn [forallb index_of] in Ef. rewrite String.eqb_refl, andb_true_r in Ef.
    apply Nat.eqb_eq in Ef. apply Hne. rewrite Hds in Ef. rewrite <- Ef.
    now destruct (shape v).
Qed.

Lemma predict_rejects_misfit_witness :
  predict fitted_flat source_plain = inl ValueError.
Proof.
  assert (Htv : _target_neuroid_values fitted_flat
                = Some [("neuroid_id", of_list [10; 20]%Z);
                        ("area", of_list [1; 2]%Z)]) by reflexivity.
  destruct (_align (_expected_dims fitted_flat) source_plain) as [e|s] eqn:Hs;
    [vm_compute in Hs; discriminate|].
  destruct (reg_predict (_regression fitted_flat) (_model fitted_flat) s)
    as [e|pv] eqn:Hpv; [discriminate|].
  destruct (predict_rejects_misfit fitted_flat source_plain s pv _ Htv Hs Hpv)
    as [H _].
  apply H. inversion Hpv. simpl. discriminate.
Defined.

(** ** XarrayCorrelation: what the assertions compare *)

(** sorting by one name keeps every other 1-D coordinate on its axis and
    rearranges its labels *)
Lemma sortby1_other_labels (key k2 : string) (a a' : DataArray) (c2 : coord)
    (d2 : dim) :
  labels_fit a = true -> sortby1 key a = inr a' ->
  getitem k2 a = inr c2 -> cdims c2 = [d2] ->
  exists c2', getitem k2 a' = inr c2' /\ cdims c2' = [d2]
              /\ Permutation (to_list (cvalues c2')) (to_list (cvalues c2)).
Proof.
  intros Hfit Hs Hg Hd2.
  destruct (sortby1_fits key a a' Hfit Hs) as (Hdims & Hshape & _ & _).
  destruct (sortby1_axis key a a' Hs) as (c & d & Hgc & Hd & ->).
  destruct (getitem_fits key a c d Hfit Hgc Hd) as [Hin Hsh].
  destruct (getitem_fits k2 a c2 d2 Hfit Hg Hd2) as [Hin2 Hsh2].
  destruct (argsort_spec (to_list (cvalues c))) as (Hp & _ & _).
  rewrite to_list_length, Hsh in Hp. cbn [hd] in Hp.
  set (order := argsort (to_list (cvalues c))) in *.
  unfold getitem in Hg. destruct (coords_get k2 (coords a)) as [c0|] eqn:Ec.
  - inversion Hg; subst c0. rewrite (getitem_take_along k2 d order a c2 Ec).
    exists (take_coord d order c2). split; [reflexivity|].
    split; [now rewrite (proj1 (take_coord_cdims d order c2))|].
    unfold take_coord. rewrite Hd2. cbn [mem existsb].
    destruct (String.eqb_spec d d2) as [->|Hne]; cbn [orb].
    + cbn [cvalues index_of]. rewrite String.eqb_refl.
      rewrite to_list_take by (left; rewrite Hsh2; discriminate).
      unfold to_list. rewrite Hsh2. cbn [hd].
      now apply Permutation_map.
    + apply Permutation_refl.
  - destruct (mem k2 (dims a)) eqn:Em; [|discriminate].
    inversion Hg; subst c2. cbn [cdims] in Hd2. inversion Hd2; subst d2.
    unfold getitem. cbn [take_along coords dims].
    rewrite coords_get_map by (intros c0; apply take_coord_cdims).
    rewrite Ec. cbn [option_map]. rewrite Em.
    fold (take_along d order a).
    assert (Hsz : size_of k2 (take_along d order a) = size_of k2 a).
    { unfold size_of. now rewrite Hdims, Hshape. }
    rewrite Hsz. eexists. split; [reflexivity|]. split; [reflexivity|].
    apply Permutation_refl.
Qed.

(** a name that can be looked up after sorting could be looked up before,
    on the same axes *)
Lemma sortby1_getitem_back (key k2 : string) (a a' : DataArray) (c2' : coord) :
  sortby1 key a = inr a' -> getitem k2 a' = inr c2' ->
  exists c2, getitem k2 a = inr c2 /\ cdims c2 = cdims c2'.
Proof.
  intros Hs Hg. destruct (sortby1_inv key a a' Hs) as (d & order & ->).
  unfold getitem in *. cbn [take_along coords dims] in Hg.
  rewrite coords_get_map in Hg by (intros c0; apply take_coord_cdims).
  destruct (coords_get k2 (coords a)) as [c0|]; cbn [option_map] in Hg.
  - inversion Hg. exists c0. split; [reflexivity|].
    symmetry. apply take_coord_cdims.
  - destruct (mem k2 (dims a)); [|discriminate].
    inversion Hg. eexists. split; reflexivity.
Qed.

Lemma labels_of_getitem (k : string) (a : DataArray) (c : coord) :
  getitem k a = inr c -> labels_of k a = inr (to_list (cvalues c)).
Proof. intros H. unfold labels_of. now rewrite H. Qed.

Lemma labels_of_inv (k : string) (a : DataArray) (l : list Z) :
  labels_of k a = inr l ->
  exists c, getitem k a = inr c /\ l = to_list (cvalues c).
Proof.
  unfold labels_of. destruct (getitem k a) as [e|c]; [discriminate|].
  intros H. inversion H. now exists c.
Qed.

(** [a.sortby([cc, nc])]: both names keep their labels up to order, those of
    [cc] come out ascending, and [nc] lies on one axis *)
Lemma sortby2_labels (cc nc : string) (a a' : DataArray) :
  labels_fit a = true -> sortby [cc; nc] a = inr a' ->
  (exists l l', labels_of cc a = inr l /\ labels_of cc a' = inr l'
                /\ Permutation l' l /\ StronglySorted Z.le l')
  /\ (exists l l' c d, labels_of nc a = inr l /\ labels_of nc a' = inr l'
                       /\ Permutation l' l
                       /\ getitem nc a' = inr c /\ cdims c = [d]).
Proof.
  intros Hfit Hs. cbn [sortby and_then ok] in Hs.
  destruct (sortby1 nc a) as [e|a1] eqn:E1; [discriminate|].
  cbn [and_then] in Hs.
  destruct (sortby1_fits nc a a1 Hfit E1) as (Hd1 & Hsh1 & Hl1 & _).
  assert (Hfit1 : labels_fit a1 = true)
    by now rewrite (labels_fit_layout a a1 Hd1 Hsh1 Hl1).
  split.
  - destruct (sortby1_axis cc a1 a' Hs) as (c1 & d1 & Hg1 & Hcd1 & _).
    destruct (sortby1_getitem_back nc cc a a1 c1 E1 Hg1) as (c0 & Hg0 & Hcd0).
    rewrite Hcd1 in Hcd0.
    destruct (sortby1_other_labels nc cc a a1 c0 d1 Hfit E1 Hg0 Hcd0)
      as (c1' & Hg1' & _ & Hperm).
    rewrite Hg1 in Hg1'. inversion Hg1'; subst c1'.
    destruct (sortby1_labels cc a1 a' Hs) as (l1 & l' & Hl & Hl' & Hsorted & Hp).
    rewrite (labels_of_getitem cc a1 c1 Hg1) in Hl. inversion Hl; subst l1.
    exists (to_list (cvalues c0)), l'.
    split; [now apply labels_of_getitem|]. split; [exact Hl'|].
    split; [|exact Hsorted].
    now apply perm_trans with (to_list (cvalues c1)).
  - destruct (sortby1_axis nc a a1 E1) as (c & d & Hg & Hcd & _).
    destruct (sortby1_other_labels nc nc a a1 c d Hfit E1 Hg Hcd)
      as (c1 & Hg1 & Hcd1 & Hp1).
    destruct (sortby1_other_labels cc nc a1 a' c1 d Hfit1 Hs Hg1 Hcd1)
      as (c2 & Hg2 & Hcd2 & Hp2).
    exists (to_list (cvalues c)), (to_list (cvalues c2)), c2, d.
    split; [now apply labels_of_getitem|].
    split; [now apply labels_of_getitem|].
    split; [now apply perm_trans with (to_list (cvalues c1))|].
    split; assumption.
Qed.

Lemma all_equal_eq (a b : list Z) :
  List.length a = List.length b -> all_equal a b = true -> a = b.
Proof.
  intros Hl. unfold all_equal. rewrite Hl, Nat.eqb_refl.
  revert b Hl. induction a as [|x r IH]; intros [|y s]; simpl; intros Hl H;
    try reflexivity; try discriminate.
  apply andb_true_iff in H. destruct H as [Hxy Hr].
  apply Z.eqb_eq in Hxy. subst y. f_equal. apply IH; [lia | exact Hr].
Qed.

Lemma sorted_perm_unique (l1 : list Z) :
  forall l2, StronglySorted Z.le l1 -> StronglySorted Z.le l2 ->
             Permutation l1 l2 -> l1 = l2.
Proof.
  induction l1 as [|x r1 IH]; intros l2 H1 H2 Hp.
  - apply Permutation_nil in Hp. now subst.
  - destruct l2 as [|y r2].
    { apply Permutation_sym, Permutation_nil in Hp. discriminate. }
    inversion H1 as [|? ? Hs1 Hall1]; subst.
    inversion H2 as [|? ? Hs2 Hall2]; subst.
    rewrite Forall_forall in Hall1, Hall2.
    assert (Hxy : (y <= x)%Z).
    { assert (Hin : In x (y :: r2))
        by (apply (Permutation_in _ Hp); now left).
      destruct Hin as [->|Hin]; [lia | now apply Hall2]. }
    assert (Hyx : (x <= y)%Z).
    { assert (Hin : In y (x :: r1))
        by (apply (Permutation_in _ (Permutation_sym Hp)); now left).
      destruct Hin as [->|Hin]; [lia | now apply Hall1]. }
    assert (x = y) by lia. subst y. f_equal.
    apply IH; try assumption. now apply Permutation_cons_inv with x.
Qed.

Lemma correlation_call_unfold_labels (corr : Correlation) (cc nc : string)
    (prediction target p t : DataArray) (pc tc : coord) :
  sortby [cc; nc] prediction = inr p -> sortby [cc; nc] target = inr t ->
  getitem cc p = inr pc -> getitem cc t = inr tc ->
  all_equal (to_list (cvalues pc)) (to_list (cvalues tc)) = false ->
  correlation_call corr cc nc prediction target = inl AssertionError.
Proof.
  intros Hp Ht Hpc Htc He. unfold correlation_call.
  rewrite Hp. cbn [and_then]. rewrite Ht. cbn [and_then].
  rewrite Hpc. cbn [and_then]. rewrite Htc. cbn [and_then].
  rewrite He. reflexivity.
Qed.

Lemma correlation_call_unfold_neuroids (corr : Correlation) (cc nc : string)
    (prediction target p t : DataArray) (pc tc pn tn : coord) :
  sortby [cc; nc] prediction = inr p -> sortby [cc; nc] target = inr t ->
  getitem cc p = inr pc -> getitem cc t = inr tc ->
  to_list (cvalues pc) = to_list (cvalues tc) ->
  getitem nc p = inr pn -> getitem nc t = inr tn ->
  all_equal (to_list (cvalues pn)) (to_list (cvalues tn)) = false ->
  correlation_call corr cc nc prediction target = inl AssertionError.
Proof.
  intros Hp Ht Hpc Htc Hc Hpn Htn He. unfold correlation_call.
  rewrite Hp. cbn [and_then]. rewrite Ht. cbn [and_then].
  rewrite Hpc. cbn [and_then]. rewrite Htc. cbn [and_then].
  rewrite Hc, all_equal_refl. cbn [assert_ ok and_then].
  rewrite Hpn. cbn [and_then]. rewrite Htn. cbn [and_then].
  rewrite He. reflexivity.
Qed.

(** X11.  [XarrayCorrelation.__call__] compares the labels after sorting, so
    what it asks of the prediction and the target is the same labels up to
    order.  For two arrays that can be sorted: when the stimulus labels of
    the two, equal in number, are not a rearrangement of each other, the
    call raises [AssertionError]; and so it does when the stimulus labels
    agree up to order and the neuroid labels, equal in number, do not.  The
    comparison strategy is not consulted in either case. *)
Theorem correlation_rejects_other_labels (corr : Correlation) (cc nc : string)
    (prediction target p t : DataArray)
    (Hfp : labels_fit prediction = true) (Hft : labels_fit target = true)
    (Hp : sortby [cc; nc] prediction = inr p)
    (Ht : sortby [cc; nc] target = inr t) :
  (forall lp lt,
      labels_of cc prediction = inr lp -> labels_of cc target = inr lt ->
      List.length lp = List.length lt -> ~ Permutation lp lt ->
      correlation_call corr cc nc prediction target = inl AssertionError)
  /\ (forall lp lt np nt,
        labels_of cc prediction = inr lp -> labels_of cc target = inr lt ->
        Permutation lp lt ->
        labels_of nc prediction = inr np -> labels_of nc target = inr nt ->
        List.length np = List.length nt -> ~ Permutation np nt ->
        correlation_call corr cc nc prediction target = inl AssertionError).
Proof.
  destruct (sortby2_labels cc nc prediction p Hfp Hp)
    as ((lp0 & lp' & Hlp0 & Hlp' & Hpp & Hsp)
        & (np0 & np' & pn & dp & Hnp0 & Hnp' & Hpnp & Hgpn & _)).
  destruct (sortby2_labels cc nc target t Hft Ht)
    as ((lt0 & lt' & Hlt0 & Hlt' & Hpt & Hst)
        & (nt0 & nt' & tn & dt & Hnt0 & Hnt' & Hpnt & Hgtn & _)).
  destruct (labels_of_inv _ _ _ Hlp') as (pc & Hpc & ->).
  destruct (labels_of_inv _ _ _ Hlt') as (tc & Htc & ->).
  rewrite (labels_of_getitem _ _ _ Hgpn) in Hnp'. inversion Hnp'; subst np'.
  rewrite (labels_of_getitem _ _ _ Hgtn) in Hnt'. inversion Hnt'; subst nt'.
  split.
  - intros lp lt Hlp Hlt Hlen Hnperm.
    rewrite Hlp0 in Hlp. inversion Hlp; subst lp0.
    rewrite Hlt0 in Hlt. inversion Hlt; subst lt0.
    apply (correlation_call_unfold_labels corr cc nc prediction target p t pc tc);
      try assumption.
    destruct (all_equal _ _) eqn:Ea; [|reflexivity].
    exfalso. apply Hnperm. apply all_equal_eq in Ea.
    + apply perm_trans with (to_list (cvalues pc));
        [now apply Permutation_sym|]. now rewrite Ea.
    + rewrite (Permutation_length Hpp), (Permutation_length Hpt). exact Hlen.
  - intros lp lt np nt Hlp Hlt Hperm Hnp Hnt Hlen Hnperm.
    rewrite Hlp0 in Hlp. inversion Hlp; subst lp0.
    rewrite Hlt0 in Hlt. inversion Hlt; subst lt0.
    rewrite Hnp0 in Hnp. inversion Hnp; subst np0.
    rewrite Hnt0 in Hnt. inversion Hnt; subst nt0.
    assert (Hc : to_list (cvalues pc) = to_list (cvalues tc)).
    { apply sorted_perm_unique; try assumption.
      apply perm_trans with lp; [exact Hpp|].
      apply perm_trans with lt; [exact Hperm | now apply Permutation_sym]. }
    apply (correlation_call_unfold_neuroids corr cc nc prediction target p t
             pc tc pn tn); try assumption.
    destruct (all_equal _ _) eqn:Ea; [|reflexivity].
    exfalso. apply Hnperm. apply all_equal_eq in Ea.
    + apply perm_trans with (to_list (cvalues pn));
        [now apply Permutation_sym|]. now rewrite Ea.
    + rewrite (Permutation_length Hpnp), (Permutation_length Hpnt). exact Hlen.
Qed.

Lemma correlation_rejects_other_labels_witness :
  correlation_call toy_correlation "stimulus_id" "neuroid_id"
    prediction_other target_two = inl AssertionError.
Proof.
  destruct (sortby ["stimulus_id"; "neuroid_id"] prediction_other)
    as [e|p] eqn:Hp; [vm_compute in Hp; discriminate|].
  destruct (sortby ["stimulus_id"; "neuroid_id"] target_two)
    as [e|t] eqn:Ht; [vm_compute in Ht; discriminate|].
  destruct (correlation_rejects_other_labels toy_correlation "stimulus_id"
              "neuroid_id" prediction_other target_two p t eq_refl eq_refl
              Hp Ht) as [H _].
  apply (H [1; 2; 4]%Z [3; 1; 2]%Z); try reflexivity.
  intros Hperm.
  assert (Hin : In 4%Z [3; 1; 2]%Z)
    by (apply (Permutation_in _ Hperm); simpl; tauto).
  simpl in Hin. destruct Hin as [H0|[H0|[H0|[]]]]; discriminate.
Defined.

Lemma getitem_no_assertion (k : string) (a : DataArray) :
  getitem k a <> inl AssertionError.
Proof.
  unfold getitem. destruct (coords_get k (coords a)); [discriminate|].
  destruct (mem k (dims a)); discriminate.
Qed.

Lemma sortby1_no_assertion (k : string) (a : DataArray) :
  sortby1 k a <> inl AssertionError.
Proof.
  unfold sortby1. destruct (getitem k a) as [e|c] eqn:Eg; simpl.
  - intros H. inversion H; subst. now apply (getitem_no_assertion k a).
  - destruct (cdims c) as [|d [|d' r]]; discriminate.
Qed.

Lemma sortby_no_assertion (keys : list string) :
  forall a, sortby keys a <> inl AssertionError.
Proof.
  induction keys as [|k r IH]; intros a; simpl; [discriminate|].
  destruct (sortby r a) as [e|a'] eqn:Es; simpl.
  - intros H. inversion H; subst. now apply (IH a).
  - apply sortby1_no_assertion.
Qed.

Lemma isel_no_assertion (d : dim) (i : nat) (a : DataArray) :
  isel d i a <> inl AssertionError.
Proof.
  unfold isel. destruct (negb (mem d (dims a))); [discriminate|].
  destruct (negb (Nat.ltb i (size_of d a))); discriminate.
Qed.

Lemma new_DataArray_no_assertion (v : ndarray) (cs : list coord) (ds : list dim) :
  new_DataArray v cs ds <> inl AssertionError.
Proof.
  unfold new_DataArray.
  destruct (Nat.eqb _ _ && forallb _ cs); discriminate.
Qed.

Lemma gather_dims_no_assertion (ds : list dim) :
  forall cs, gather_dims ds cs <> inl AssertionError.
Proof.
  induction ds as [|d rest IH]; simpl; intros cs; [discriminate|].
  destruct (gather_dim d cs) as [e|cs'] eqn:E; simpl; [|apply IH].
  unfold gather_dim in E.
  destruct (filter (on_axis_alone d) cs) as [|c [|c2 more]];
    try discriminate;
    destruct (has_index d cs);
    try (destruct (mem (level_0 d) (map cname cs)));
    try (destruct (mem d (map cname cs)));
    inversion E; discriminate.
Qed.

Lemma new_Assembly_no_assertion (v : ndarray) (cs : list coord) (ds : list dim) :
  new_Assembly v cs ds <> inl AssertionError.
Proof.
  unfold new_Assembly.
  destruct (new_DataArray v cs ds) as [e|a] eqn:E; simpl.
  - rewrite <- E. apply new_DataArray_no_assertion.
  - unfold gather_indexes.
    destruct (gather_dims (dims a) (coords a)) as [e|cs'] eqn:Eg; simpl;
      [|discriminate].
    intros H. injection H as ->. now apply gather_dims_no_assertion in Eg.
Qed.

(** X12.  An [AssertionError] out of [XarrayCorrelation.__call__] that the
    comparison strategy did not raise comes from one of the two label
    comparisons: both arrays were sorted, and the sorted labels of the
    stimulus coordinate or of the neuroid coordinate differ.  The assertion
    that the neuroid coordinate lies on one axis cannot fail, since sorting
    by that coordinate requires as much. *)
Theorem correlation_assertion_is_label_mismatch (corr : Correlation)
    (cc nc : string) (prediction target : DataArray)
    (Hft : labels_fit target = true)
    (Hcorr : forall a b, corr a b <> inl AssertionError)
    (Hcall : correlation_call corr cc nc prediction target = inl AssertionError) :
  exists (p t : DataArray) (k : string) (lp lt : list Z),
    sortby [cc; nc] prediction = inr p /\ sortby [cc; nc] target = inr t
    /\ (k = cc \/ k = nc)
    /\ labels_of k p = inr lp /\ labels_of k t = inr lt /\ lp <> lt.
Proof.
  unfold correlation_call in Hcall.
  destruct (sortby [cc; nc] prediction) as [e|p] eqn:Hp.
  { inversion Hcall; subst. now elim (sortby_no_assertion [cc; nc] prediction). }
  cbn [and_then] in Hcall.
  destruct (sortby [cc; nc] target) as [e|t] eqn:Ht.
  { inversion Hcall; subst. now elim (sortby_no_assertion [cc; nc] target). }
  cbn [and_then] in Hcall.
  exists p, t.
  destruct (getitem cc p) as [e|pc] eqn:Hpc.
  { inversion Hcall; subst. now elim (getitem_no_assertion cc p). }
  cbn [and_then] in Hcall.
  destruct (getitem cc t) as [e|tc] eqn:Htc.
  { inversion Hcall; subst. now elim (getitem_no_assertion cc t). }
  cbn [and_then] in Hcall.
  destruct (all_equal (to_list (cvalues pc)) (to_list (cvalues tc))) eqn:Ec.
  2: { exists cc, (to_list (cvalues pc)), (to_list (cvalues tc)).
       repeat split; try reflexivity; try (now left);
         try (now apply labels_of_getitem).
       intros E. rewrite E, all_equal_refl in Ec. discriminate. }
  cbn [assert_ ok and_then] in Hcall.
  destruct (getitem nc p) as [e|pn] eqn:Hpn.
  { inversion Hcall; subst. now elim (getitem_no_assertion nc p). }
  cbn [and_then] in Hcall.
  destruct (getitem nc t) as [e|tn] eqn:Htn.
  { inversion Hcall; subst. now elim (getitem_no_assertion nc t). }
  cbn [and_then] in Hcall.
  destruct (all_equal (to_list (cvalues pn)) (to_list (cvalues tn))) eqn:En.
  2: { exists nc, (to_list (cvalues pn)), (to_list (cvalues tn)).
       repeat split; try reflexivity; try (now right);
         try (now apply labels_of_getitem).
       intros E. rewrite E, all_equal_refl in En. discriminate. }
  cbn [assert_ ok and_then] in Hcall. exfalso.
  destruct (sortby2_labels cc nc target t Hft Ht)
    as (_ & (l & l' & c & d & _ & _ & _ & Hg & Hd)).
  rewrite Htn in Hg. inversion Hg; subst c. rewrite Hd in Hcall.
  cbn [List.length Nat.eqb assert_ ok and_then hd] in Hcall.
  match type of Hcall with
  | and_then ?tr _ = _ => destruct tr as [e|cs] eqn:Etr
  end; cbn [and_then] in Hcall.
  - inversion Hcall; subst e. apply traverse_raises in Etr.
    destruct Etr as (i & _ & Hi).
    destruct (isel d i t) as [e|ti] eqn:Eti; cbn [and_then] in Hi.
    { inversion Hi; subst. now elim (isel_no_assertion d i t). }
    destruct (isel d i p) as [e|pi] eqn:Epi; cbn [and_then] in Hi.
    { inversion Hi; subst. now elim (isel_no_assertion d i p). }
    destruct (corr ti pi) as [e|rp] eqn:Erp; cbn [and_then] in Hi;
      [|discriminate].
    inversion Hi; subst. now elim (Hcorr ti pi).
  - now elim (new_Assembly_no_assertion _ _ _ Hcall).
Qed.

Lemma correlation_assertion_is_label_mismatch_witness :
  exists (p t : DataArray) (k : string) (lp lt : list Z),
    sortby ["stimulus_id"; "neuroid_id"] prediction_other = inr p
    /\ sortby ["stimulus_id"; "neuroid_id"] target_two = inr t
    /\ (k = "stimulus_id" \/ k = "neuroid_id")
    /\ labels_of k p = inr lp /\ labels_of k t = inr lt /\ lp <> lt.
Proof.
  apply (correlation_assertion_is_label_mismatch toy_correlation).
  - reflexivity.
  - intros a b. unfold toy_correlation. discriminate.
  - reflexivity.
Defined.

(** ** recursive_op with the default operation *)

Lemma store_dict_get_In (k : string) (v : Store.value)
    (m : list (string * Store.value)) :
  Store.dict_get k m = Some v -> In (k, v) m.
Proof.
  induction m as [|[k0 v0] rest IH]; simpl; [discriminate|].
  destruct (String.eqb_spec k k0) as [->|_].
  - intros H. inversion H. now left.
  - intros H. right. now apply IH.
Qed.

Lemma store_dict_get_key (k : string) (m : list (string * Store.value)) :
  In k (map fst m) -> Store.dict_get k m <> None.
Proof.
  induction m as [|[k0 v0] rest IH]; simpl; [tauto|].
  destruct (String.eqb_spec k k0) as [->|Hne]; [discriminate|].
  intros [H|H]; [congruence | now apply IH].
Qed.

(** the loop of the default operation over names of [arr0.attrs], given
    what the nested calls do: it returns the store as it was *)
Lemma identity_loop_returns (depth : nat) (h : Store.store) (r : Store.ref)
    (o : Store.object) (keys : list string) :
  nth_error h r = Some o ->
  incl keys (map fst (Store.o_attrs o)) ->
  (forall k a, In (k, Store.Ref a) (Store.o_attrs o) ->
               Store.recursive_op depth Store.identity_op h a [] = inr (h, a)) ->
  Store.attrs_loop (Store.recursive_op depth Store.identity_op) r r [] keys h
  = inr (h, r).
Proof.
  intros Ho Hkeys Hrec. induction keys as [|k rest IH]; [reflexivity|].
  simpl. unfold Store.lookup. rewrite Ho. cbn [and_then ok].
  assert (Hk : In k (map fst (Store.o_attrs o))) by (apply Hkeys; now left).
  assert (Hrest : incl rest (map fst (Store.o_attrs o)))
    by (intros x Hx; apply Hkeys; now right).
  destruct (Store.dict_get k (Store.o_attrs o)) as [[a|z]|] eqn:Ek.
  - rewrite (Hrec k a (store_dict_get_In _ _ _ Ek)). cbn [and_then fst snd].
    rewrite (set_attr_same _ _ _ _ _ Ho Ek). now apply IH.
  - rewrite (set_attr_same _ _ _ _ _ Ho Ek). now apply IH.
  - now elim (store_dict_get_key k _ Hk).
Qed.

Lemma identity_returns (n : nat) :
  forall h r, nests n h r = true ->
              Store.recursive_op n Store.identity_op h r [] = inr (h, r).
Proof.
  induction n as [|n IH]; intros h r Hn; simpl in Hn; [discriminate|].
  destruct (nth_error h r) as [o|] eqn:Ho; [|discriminate].
  simpl. unfold Store.lookup. rewrite Ho. cbn [and_then ok fst snd].
  apply (identity_loop_returns n h r o _ Ho (incl_refl _)).
  intros k a Hin. apply IH. rewrite forallb_forall in Hn.
  exact (Hn (k, Store.Ref a) Hin).
Qed.

Lemma identity_error (depth : nat) :
  forall h r e, closed h -> r < List.length h ->
    Store.recursive_op depth Store.identity_op h r [] = inl e ->
    e = RecursionError.
Proof.
  induction depth as [|depth IH]; intros h r e Hc Hr H; simpl in H.
  - now inversion H.
  - destruct (nth_error h r) as [o|] eqn:Ho;
      [|apply nth_error_None in Ho; lia].
    unfold Store.lookup in H. rewrite Ho in H. cbn [and_then ok fst snd] in H.
    assert (Hrec : forall a e',
               In a (map (fun kv => match snd kv with
                                    | Store.Ref a => a
                                    | Store.Plain _ => r
                                    end) (Store.o_attrs o)) ->
               Store.recursive_op depth Store.identity_op h a [] = inl e' ->
               e' = RecursionError).
    { intros a e' Hin He. apply (IH h a e' Hc); [|exact He].
      apply in_map_iff in Hin. destruct Hin as ([k v] & Hv & Hkv).
      destruct v as [a'|z]; simpl in Hv; subst; [|exact Hr].
      exact (Hc r o k a Ho Hkv). }
    clear IH.
    assert (Hincl : incl (map fst (Store.o_attrs o)) (map fst (Store.o_attrs o)))
      by apply incl_refl.
    revert H Hincl. generalize (map fst (Store.o_attrs o)) at 1 2 as keys.
    induction keys as [|k rest IHk]; simpl; intros H Hincl; [discriminate|].
    unfold Store.lookup in H. rewrite Ho in H. cbn [and_then ok] in H.
    assert (Hk : In k (map fst (Store.o_attrs o))) by (apply Hincl; now left).
    assert (Hrest : incl rest (map fst (Store.o_attrs o)))
      by (intros x Hx; apply Hincl; now right).
    destruct (Store.dict_get k (Store.o_attrs o)) as [[a|z]|] eqn:Ek.
    + assert (Hin : In a (map (fun kv => match snd kv with
                                         | Store.Ref a => a
                                         | Store.Plain _ => r
                                         end) (Store.o_attrs o))).
      { apply in_map_iff. exists (k, Store.Ref a). split; [reflexivity|].
        now apply store_dict_get_In. }
      destruct (Store.recursive_op depth Store.identity_op h a [])
        as [e'|[h1 r1]] eqn:Er; cbn [and_then fst snd] in H.
      * inversion H; subst. now apply (Hrec a).
      * destruct (store_identity_unchanged _ _ _ _ _ _ Er) as [-> ->].
        rewrite (set_attr_same _ _ _ _ _ Ho Ek) in H. now apply IHk.
    + rewrite (set_attr_same _ _ _ _ _ Ho Ek) in H. now apply IHk.
    + now elim (store_dict_get_key k _ Hk).
Qed.

Lemma identity_cycle (h : Store.store) (r : Store.ref) (o : Store.object)
    (k : string) :
  nth_error h r = Some o ->
  Store.dict_get k (Store.o_attrs o) = Some (Store.Ref r) ->
  forall depth hr,
    Store.recursive_op depth Store.identity_op h r [] <> inr hr.
Proof.
  intros Ho Hk. induction depth as [|depth IH]; intros hr; simpl;
    [discriminate|].
  unfold Store.lookup. rewrite Ho. cbn [and_then ok fst snd].
  assert (Hin : In k (map fst (Store.o_attrs o))).
  { apply in_map_iff. exists (k, Store.Ref r). split; [reflexivity|].
    now apply store_dict_get_In. }
  revert Hin. generalize (map fst (Store.o_attrs o)) as keys.
  induction keys as [|k' rest IHk]; simpl; intros Hin; [contradiction|].
  unfold Store.lookup. rewrite Ho. cbn [and_then ok].
  destruct (Store.dict_get k' (Store.o_attrs o)) as [[a|z]|] eqn:Ek;
    [| |discriminate].
  - destruct (Store.recursive_op depth Store.identity_op h a [])
      as [e'|[h1 r1]] eqn:Er; cbn [and_then fst snd]; [discriminate|].
    destruct (store_identity_unchanged _ _ _ _ _ _ Er) as [-> ->].
    rewrite (set_attr_same _ _ _ _ _ Ho Ek).
    destruct Hin as [->|Hin]; [|now apply IHk].
    rewrite Hk in Ek. inversion Ek; subst a. now elim (IH (h, r)).
  - rewrite (set_attr_same _ _ _ _ _ Ho Ek).
    destruct Hin as [->|Hin]; [|now apply IHk].
    rewrite Hk in Ek. discriminate.
Qed.

(** X13.  [recursive_op(arr)] with the default operation, on a store where
    every attribute refers to an existing array.  When the attributes of
    [arr] nest arrays at most [n] levels deep, a recursion limit of [n]
    suffices: the call returns [arr] itself and leaves every object as it
    was.  The only exception the call can raise is [RecursionError], and it
    raises it at every recursion limit when an attribute of [arr] is [arr]
    itself. *)
Theorem recursive_op_default_operation (h : Store.store) (r : Store.ref)
    (Hc : closed h) (Hr : r < List.length h) :
  (forall n, nests n h r = true ->
             Store.recursive_op n Store.identity_op h r [] = inr (h, r))
  /\ (forall depth e,
        Store.recursive_op depth Store.identity_op h r [] = inl e ->
        e = RecursionError)
  /\ (forall o k,
        nth_error h r = Some o ->
        Store.dict_get k (Store.o_attrs o) = Some (Store.Ref r) ->
        forall depth,
          Store.recursive_op depth Store.identity_op h r [] = inl RecursionError).
Proof.
  split; [|split].
  - intros n. apply identity_returns.
  - intros depth e. now apply identity_error.
  - intros o k Ho Hk depth.
    destruct (Store.recursive_op depth Store.identity_op h r []) as [e|hr] eqn:E.
    + now rewrite (identity_error depth h r e Hc Hr E).
    + now elim (identity_cycle h r o k Ho Hk depth hr).
Qed.

Lemma recursive_op_default_operation_witness :
  Store.recursive_op 2 Store.identity_op store_two 0 [] = inr (store_two, 0)
  /\ Store.recursive_op 7 Store.identity_op store_cycle 0 []
     = inl RecursionError.
Proof.
  assert (Hc2 : closed store_two).
  { intros r o k a Ho Hin. destruct r as [|[|r]]; simpl in Ho.
    - inversion Ho; subst. simpl in Hin. destruct Hin as [H|[]].
      inversion H. simpl. lia.
    - inversion Ho; subst. simpl in Hin. contradiction.
    - destruct r; discriminate. }
  assert (Hcc : closed store_cycle).
  { intros r o k a Ho Hin. destruct r as [|r]; simpl in Ho.
    - inversion Ho; subst. simpl in Hin. destruct Hin as [H|[]].
      inversion H. simpl. lia.
    - destruct r; discriminate. }
  split.
  - apply (recursive_op_default_operation store_two 0 Hc2); [simpl; lia|].
    reflexivity.
  - assert (H0 : 0 < List.length store_cycle) by (simpl; lia).
    destruct (recursive_op_default_operation store_cycle 0 Hcc H0)
      as (_ & _ & H).
    apply (H _ "self" eq_refl eq_refl).
Defined.

(** ** apply_over_dims: what the reassembly requires *)

Lemma collect_attrs_cases (d : dim) (t : attr_dict) :
  (forall k a, In (k, AttrArray a) (attrs_items t) ->
               ~ In d (dims a) /\ has_labels_named d a = false) ->
  forall acc,
    (exists acc', collect_attrs d t acc = inr acc'
                  /\ forall k z, ~ In (k, AttrPlain z) (attrs_items t))
    \/ collect_attrs d t acc = inl AssertionError.
Proof.
  induction t as [|k v rest IH]; intros Hoff acc.
  - left. exists acc. split; [reflexivity|]. intros k z [].
  - simpl. destruct v as [a|z]; [|now right].
    destruct (Hoff k a (or_introl eq_refl)) as [Hd Hl].
    destruct (expand_dims d a) as [e|ex] eqn:Ee.
    { unfold expand_dims in Ee. apply mem_false in Hd. rewrite Hd, Hl in Ee.
      discriminate. }
    cbn [and_then].
    destruct (IH (fun k' a' H => Hoff k' a' (or_intror H)) (append_at k ex acc))
      as [(acc' & E & Hnone)|E].
    + left. exists acc'. split; [exact E|].
      intros k' z [H|H]; [discriminate | now apply (Hnone k' z)].
    + now right.
Qed.

Lemma collect_plain (d : dim) (results : list (option DataArray))
    (r : DataArray) (k : string) (z : Z) :
  In (Some r) results -> In (k, AttrPlain z) (attrs_items (attrs r)) ->
  (forall r' k' a, In (Some r') results ->
                   In (k', AttrArray a) (attrs_items (attrs r')) ->
                   ~ In d (dims a) /\ has_labels_named d a = false) ->
  forall xarr acc, collect d results xarr acc = inl AssertionError.
Proof.
  induction results as [|[r0|] rest IH]; intros Hin Hk Hoff xarr acc.
  - contradiction.
  - simpl.
    destruct (collect_attrs_cases d (attrs r0)
                (fun k' a H => Hoff r0 k' a (or_introl eq_refl) H) acc)
      as [(acc' & E & Hnone)|E].
    + rewrite E. cbn [and_then]. apply IH.
      * destruct Hin as [H|H]; [|exact H].
        inversion H; subst r0. now elim (Hnone k z).
      * exact Hk.
      * intros r' k' a H. apply Hoff. now right.
    + now rewrite E.
  - simpl. apply IH.
    + destruct Hin as [H|H]; [discriminate | exact H].
    + exact Hk.
    + intros r' k' a H. apply Hoff. now right.
Qed.

(** X14.  Every attribute of what the callable returns has to be a labeled
    array: when the slices along an axis are all processed and one of the
    results carries a plain attribute, [apply_helper] raises
    [AssertionError].  This is for results whose nested arrays can take the
    walked axis as a new one, having neither an axis nor labels of that
    name; on another nested array ahead of the plain attribute
    [expand_dims] would raise first. *)
Theorem apply_helper_plain_attribute (callable : Callable) (size : nat)
    (rsizes : list nat) (d : dim) (rdims : list dim) (asms : list DataArray)
    (results : list (option DataArray)) (r : DataArray) (k : string) (z : Z)
    (Hres : traverse (level_result callable rsizes rdims d asms) (seq 0 size)
            = inr results)
    (Hin : In (Some r) results)
    (Hk : In (k, AttrPlain z) (attrs_items (attrs r)))
    (Hoff : forall r' k' a, In (Some r') results ->
              In (k', AttrArray a) (attrs_items (attrs r')) ->
              ~ In d (dims a) /\ has_labels_named d a = false) :
  apply_helper callable (size :: rsizes) (d :: rdims) asms = inl AssertionError.
Proof.
  rewrite apply_helper_unfold, Hres. cbn [and_then].
  destruct asms as [|asm0 rest]; unfold reassemble, reassemble_unlabelled;
    now rewrite (collect_plain d results r k z Hin Hk Hoff).
Qed.

Lemma apply_helper_plain_attribute_witness :
  apply_over_dims identity_callable [asm_units] ["a"] = inl AssertionError.
Proof.
  assert (Et : transpose_front ["a"] asm_units = inr asm_units).
  { reflexivity. }
  rewrite (apply_over_dims_single identity_callable asm_units ["a"] asm_units)
    by (discriminate || exact Et).
  assert (Hsl : forall s, s < 3 -> exists sl,
               level_result identity_callable [] [] "a" [asm_units] s
               = inr (Some sl) /\ attrs sl = attrs asm_units).
  { intros s Hs. unfold level_result. simpl traverse.
    rewrite (isel_first "a" ["b"] asm_units s eq_refl) by exact Hs.
    eexists. split; reflexivity. }
  destruct (Hsl 0) as (s0 & E0 & A0); [lia|].
  destruct (Hsl 1) as (s1 & E1 & A1); [lia|].
  destruct (Hsl 2) as (s2 & E2 & A2); [lia|].
  apply (apply_helper_plain_attribute identity_callable 3 [] "a" [] [asm_units]
           [Some s0; Some s1; Some s2] s0 "units" 3%Z).
  - change (seq 0 3) with [0; 1; 2]. cbn [traverse].
    rewrite E0, E1, E2. reflexivity.
  - now left.
  - rewrite A0. right. now left.
  - intros r' k' a Hr Ha.
    assert (Hat : attrs r' = attrs asm_units).
    { destruct Hr as [H|[H|[H|[]]]]; inversion H; subst; assumption. }
    rewrite Hat in Ha. simpl in Ha.
    destruct Ha as [H|[H|[]]]; inversion H; subst a.
    split; [|reflexivity]. simpl. intros [H0|[]]. discriminate.
Defined.

Lemma traverse_In {A B : Type} (f : A -> result B) (l : list A) (ys : list B)
    (x : A) :
  traverse f l = inr ys -> In x l -> exists y, In y ys /\ f x = inr y.
Proof.
  revert ys. induction l as [|x0 r IH]; intros ys H Hin; [contradiction|].
  simpl in H. destruct (f x0) as [e|y0] eqn:E0; simpl in H; [discriminate|].
  destruct (traverse f r) as [e|ys0]; simpl in H; [discriminate|].
  inversion H; subst ys. destruct Hin as [->|Hin].
  - exists y0. split; [now left | exact E0].
  - destruct (IH ys0 eq_refl Hin) as (y & Hy & Ey).
    exists y. split; [now right | exact Ey].
Qed.

(** X15.  The first array decides how many slices are taken: when another
    array has fewer entries than the first along the first walked axis,
    [apply_over_dims] does not return, whatever the callable. *)
Theorem apply_over_dims_shorter_array (callable : Callable)
    (a0 a : DataArray) (rest : list DataArray) (d : dim) (rds : list dim)
    (Hin : In a rest) (Hshort : size_of d a < size_of d a0) :
  failed (apply_over_dims callable (a0 :: rest) (d :: rds)).
Proof.
  unfold apply_over_dims.
  destruct (traverse (transpose_front (d :: rds)) (a0 :: rest))
    as [e|asms] eqn:Et; [now exists e|].
  cbn [and_then].
  assert (Hsize : forall x x', transpose_front (d :: rds) x = inr x' ->
                               size_of d x' = size_of d x /\ In d (dims x')).
  { intros x x' Hx. unfold transpose_front in Hx.
    destruct (subset (d :: rds) (dims x)); [|discriminate].
    apply transpose_inv in Hx. destruct Hx as (_ & _ & _ & ->).
    split; [apply size_of_transposed|]; simpl; now left. }
  destruct (traverse_In _ _ _ a Et (or_intror Hin)) as (a' & Hin' & Ea).
  destruct (traverse_In _ _ _ a0 Et (or_introl eq_refl)) as (a0' & Hin0 & Ea0).
  destruct (Hsize _ _ Ea) as [Hsa Hda]. destruct (Hsize _ _ Ea0) as [Hsa0 _].
  destruct asms as [|b0 bs]; [contradiction|].
  assert (Hb0 : b0 = a0').
  { simpl in Et. rewrite Ea0 in Et. simpl in Et.
    destruct (traverse (transpose_front (d :: rds)) rest); simpl in Et;
      [discriminate|]. now inversion Et. }
  subst b0. cbn [and_then ok map]. rewrite apply_helper_unfold.
  assert (Hfail : failed (traverse
                    (level_result callable (map (fun d0 => size_of d0 a0') rds)
                       rds d (a0' :: bs)) (seq 0 (size_of d a0')))).
  { apply (traverse_fails _ _ (size_of d a)).
    - apply in_seq. lia.
    - unfold level_result.
      assert (Hf : failed (traverse (isel d (size_of d a)) (a0' :: bs))).
      { apply (traverse_fails _ _ a' Hin'). exists IndexError.
        unfold isel. apply mem_In in Hda. rewrite Hda. cbn [negb].
        rewrite Hsa, Nat.ltb_irrefl. reflexivity. }
      destruct Hf as [e He]. rewrite He. now exists e. }
  destruct Hfail as [e He]. rewrite He. now exists e.
Qed.

Lemma apply_over_dims_shorter_array_witness :
  failed (apply_over_dims first_slice [asm_attr; asm_short] ["a"]).
Proof.
  apply (apply_over_dims_shorter_array first_slice asm_attr asm_short
           [asm_short] "a" []).
  - now left.
  - vm_compute. lia.
Defined.

(** X16.  What a level of [apply_helper] returns when every slice gave an
    array, the arrays having the same axes and the same coordinates of
    these axes, so that their concatenation has nothing to align: the
    results stacked along the walked axis in index order, that is, the
    walked axis first, then the axes of the results, with the values of the
    result for index [s] at the indices that start with [s]; and on the
    walked axis the coordinate the first array has there. *)
Theorem apply_helper_stacks_results (callable : Callable) (size : nat)
    (rsizes : list nat) (d : dim) (rdims : list dim) (a0 : DataArray)
    (rest : list DataArray) (xarr : list DataArray) (x0 out : DataArray)
    (Hres : traverse (level_result callable rsizes rdims d (a0 :: rest))
              (seq 0 size) = inr (map Some xarr))
    (Hkeys : Forall (fun r => NoDup (attrs_keys (attrs r))) xarr)
    (Hx0 : hd_error xarr = Some x0) (Hd : ~ In d (dims x0))
    (Hshare : Forall (same_indexes x0) xarr)
    (Hout : apply_helper callable (size :: rsizes) (d :: rdims) (a0 :: rest)
            = inr (Some out)) :
  dims out = d :: dims x0
  /\ List.length xarr = size
  /\ (forall s idx, s < size ->
        item (values out) (s :: idx) = item (values (nth s xarr x0)) idx)
  /\ exists c, getitem d a0 = inr c /\ coords_get d (coords out) = Some c.
Proof.
  rewrite apply_helper_unfold, Hres in Hout. cbn [and_then] in Hout.
  destruct (reassemble_inv d a0 xarr out Hkeys Hout)
    as (acc & x1 & items & cs & x2 & _ & Hc & _ & Hax & Has & Hat).
  assert (Hm : mem d (dims x0) = false) by now apply mem_false.
  destruct (concat_new_inv d xarr x0 x1 Hx0 Hm Hc) as (Hd1 & Hv1 & _ & _).
  destruct (assign_coords_inv _ _ _ Has) as (Hd2 & Hv2 & _ & Hc2).
  destruct (attach_frame _ _ _ _ Hat) as (Hd3 & Hv3 & Hc3).
  assert (Hlen : List.length xarr = size).
  { apply traverse_Forall2 in Hres. apply Forall2_length in Hres.
    now rewrite length_seq, length_map in Hres. }
  split; [now rewrite Hd3, Hd2, Hd1|]. split; [exact Hlen|]. split.
  - intros s idx Hs. rewrite Hv3, Hv2, Hv1. unfold stack_nd. cbn [item].
    rewrite (nth_indep _ _ (values x0)) by (rewrite length_map; lia).
    now rewrite (map_nth values).
  - unfold axis_coordinate in Hax.
    destruct (getitem d a0) as [e|c] eqn:Eg; [discriminate|].
    cbn [and_then ok] in Hax. inversion Hax; subst cs. clear Hax.
    exists c. split; [reflexivity|].
    rewrite Hc3, Hc2. cbn [fold_left].
    rewrite fold_set_notin.
    + rewrite coords_get_set, (getitem_cname d a0 c Eg).
      now rewrite String.eqb_refl.
    + intros Hin. apply in_map_iff in Hin. destruct Hin as (c' & Hn & Hc').
      apply filter_In in Hc'. destruct Hc' as [_ Hf].
      apply andb_true_iff in Hf. destruct Hf as [_ Hf].
      rewrite Hn, String.eqb_refl in Hf. discriminate.
Qed.

Lemma apply_helper_stacks_results_witness :
  exists out,
    apply_helper identity_callable [3] ["a"] [asm_attr] = inr (Some out)
    /\ dims out = ["a"; "b"]
    /\ item (values out) [2; 1] = 21%Z.
Proof.
  destruct (apply_helper identity_callable [3] ["a"] [asm_attr])
    as [e|[out|]] eqn:E;
    [vm_compute in E; discriminate | | vm_compute in E; discriminate].
  exists out. split; [reflexivity|].
  destruct (apply_helper_stacks_results identity_callable 3 [] "a" [] asm_attr []
              (map (slice_at "a" asm_attr) (seq 0 3))
              (slice_at "a" asm_attr 0) out)
    as (Hd & _ & Hv & _).
  - exact (base_results "a" ["b"] asm_attr eq_refl).
  - repeat constructor; simpl; tauto.
  - reflexivity.
  - simpl. intros [H|[]]. discriminate.
  - repeat constructor.
  - exact E.
  - split; [exact Hd|]. rewrite (Hv 2 [1]) by lia. reflexivity.
Defined.

(** ** XarrayRegression.fit: when it returns *)

Lemma capture_ok (nd : dim) (cs : list coord) :
  (forall c, In c cs -> In nd (cdims c) -> cdims c = [nd]) ->
  forall acc, exists m, capture nd cs acc = inr m.
Proof.
  induction cs as [|c rest IH]; intros H acc; simpl; [now exists acc|].
  assert (Hrest : forall c', In c' rest -> In nd (cdims c') -> cdims c' = [nd])
    by (intros c' Hc'; apply H; now right).
  destruct (mem nd (cdims c)) eqn:Em; [|now apply IH].
  apply mem_In in Em. rewrite (H c (or_introl eq_refl) Em).
  simpl. rewrite String.eqb_refl. simpl. now apply IH.
Qed.

Lemma getitem_aligned (expected : list dim) (key : string) (a a' : DataArray)
    (c : coord) :
  _align expected a = inr a' -> getitem key a = inr c ->
  exists c', getitem key a' = inr c' /\ cdims c' = cdims c.
Proof.
  intros H Hg. apply align_full_inv in H. destruct H as [Hset ->].
  unfold getitem in *. cbn [coords dims].
  destruct (coords_get key (coords a)) as [c0|].
  - inversion Hg; subst. now exists c.
  - destruct (mem key (dims a)) eqn:Em; [|discriminate].
    inversion Hg; subst. apply mem_In in Em. apply Hset in Em.
    apply mem_In in Em. rewrite Em. eexists. split; reflexivity.
Qed.

Lemma sortby1_ok (key : string) (a : DataArray) (c : coord) (d : dim) :
  getitem key a = inr c -> cdims c = [d] ->
  sortby1 key a = inr (take_along d (argsort (to_list (cvalues c))) a).
Proof. intros Hg Hd. unfold sortby1. rewrite Hg. simpl. now rewrite Hd. Qed.

(** X17.  [fit] returns a fitted adapter when the source and the target
    have the expected axes, the stimulus coordinate can be looked up on
    both and lies on one axis, the regression returns a model, and every
    coordinate of the target that touches the neuroid axis lies on that
    axis alone.  The adapter keeps its configuration. *)
Theorem fit_returns {M : Type} (self : XarrayRegression M)
    (source target : DataArray) (cs ct : coord) (ds dt : dim)
    (He : NoDup (_expected_dims self))
    (Hs : NoDup (dims source)) (Ht : NoDup (dims target))
    (Hss : set_equal (dims source) (_expected_dims self))
    (Hst : set_equal (dims target) (_expected_dims self))
    (Hcs : getitem (_stimulus_coord self) source = inr cs)
    (Hds : cdims cs = [ds])
    (Hct : getitem (_stimulus_coord self) target = inr ct)
    (Hdt : cdims ct = [dt])
    (Hreg : forall s t, exists m, reg_fit (_regression self) s t = inr m)
    (Hn : forall c, In c (coords target) -> In (_neuroid_dim self) (cdims c) ->
                    cdims c = [_neuroid_dim self]) :
  exists self' m captured,
    fit self source target = inr self'
    /\ _model self' = Some m
    /\ _target_neuroid_values self' = Some captured
    /\ _regression self' = _regression self
    /\ _expected_dims self' = _expected_dims self
    /\ _neuroid_dim self' = _neuroid_dim self
    /\ _stimulus_coord self' = _stimulus_coord self.
Proof.
  pose proof (align_ok _ _ He Hs Hss) as Ea.
  pose proof (align_ok _ _ He Ht Hst) as Eb.
  destruct (getitem_aligned _ _ _ _ _ Ea Hcs) as (cs' & Hgs & Hcds).
  destruct (getitem_aligned _ _ _ _ _ Eb Hct) as (ct' & Hgt & Hcdt).
  rewrite Hds in Hcds. rewrite Hdt in Hcdt.
  pose proof (sortby1_ok _ _ _ _ Hgs Hcds) as Es.
  pose proof (sortby1_ok _ _ _ _ Hgt Hcdt) as Et.
  unfold fit. rewrite Ea. cbn [and_then]. rewrite Eb. cbn [and_then].
  rewrite !sortby_single, Es. cbn [and_then]. rewrite Et. cbn [and_then].
  match goal with
  | |- context [reg_fit _ ?s ?t] => destruct (Hreg s t) as [m Em]; rewrite Em
  end.
  cbn [and_then].
  match goal with
  | |- context [capture ?nd ?l ?a0] =>
      assert (Hcap : exists captured, capture nd l a0 = inr captured)
  end.
  { apply capture_ok. intros c Hc Hin. unfold walk_coords in Hc.
    cbn [take_along coords] in Hc.
    apply in_map_iff in Hc. destruct Hc as (c0 & <- & Hc0).
    rewrite (proj1 (take_coord_cdims _ _ c0)) in *. now apply Hn. }
  destruct Hcap as [captured Ec]. rewrite Ec. cbn [and_then ok].
  eexists _, m, captured. repeat split.
Qed.

Lemma fit_returns_witness :
  exists self',
    fit toy_adapter source_plain target_two = inr self'
    /\ _expected_dims self' = presentation_neuroid.
Proof.
  edestruct (fit_returns toy_adapter source_plain target_two)
    as (self' & m & captured & Hf & _ & _ & _ & He & _).
  - apply nodup_b_spec. reflexivity.
  - apply nodup_b_spec. reflexivity.
  - apply nodup_b_spec. reflexivity.
  - apply set_eq_spec. reflexivity.
  - apply set_eq_spec. reflexivity.
  - reflexivity.
  - reflexivity.
  - reflexivity.
  - reflexivity.
  - intros s t. eexists. reflexivity.
  - intros c Hc Hin. simpl in Hc.
    destruct Hc as [<-|[<-|[<-|[]]]]; simpl in *;
      try reflexivity; destruct Hin as [H|[]]; discriminate.
  - exists self'. split; [exact Hf | exact He].
Defined.

(** ** recursive_op: the attribute tree of the result *)

Lemma attrs_get_of_item (k : string) (v : attr_value) (t : attr_dict) :
  NoDup (attrs_keys t) -> In (k, v) (attrs_items t) -> attrs_get k t = Some v.
Proof.
  induction t as [|k0 v0 rest IH]; simpl; intros Hnd Hin; [contradiction|].
  inversion Hnd as [|? ? Hx Hr]; subst.
  destruct Hin as [H|H].
  - inversion H; subst. now rewrite String.eqb_refl.
  - destruct (String.eqb_spec k k0) as [->|_]; [|now apply IH].
    elim Hx. clear -H. induction rest as [|k1 v1 r IHr]; simpl in *; [tauto|].
    destruct H as [H|H]; [inversion H; now left | right; now apply IHr].
Qed.

Lemma same_attrs_intro (t : attr_dict) (b : DataArray) :
  (forall k a, In (k, AttrArray a) (attrs_items t) ->
               exists vb, attrs_get k (attrs b) = Some vb /\ same_tree a vb) ->
  same_attrs t b.
Proof.
  induction t as [|k v rest IH]; intros H; simpl; [exact I|].
  split.
  - destruct v as [a|z]; [|exact I]. apply H. now left.
  - apply IH. intros k' a Hin. apply H. now right.
Qed.

Lemma recursive_op_tree (op : Op) :
  drops_attrs op ->
  forall arr0, keys_unique arr0 ->
  forall others r, recursive_op op arr0 others = inr r ->
                   same_tree arr0 (AttrArray r).
Proof.
  intros Hdrop.
  apply (DataArray_mut
    (fun a => keys_unique a -> forall others r,
                recursive_op op a others = inr r -> same_tree a (AttrArray r))
    (fun t => attrs_unique t -> forall k a,
                In (k, AttrArray a) (attrs_items t) ->
                forall others r, recursive_op op a others = inr r ->
                                 same_tree a (AttrArray r))
    (fun v => match v with
              | AttrArray a =>
                  keys_unique a -> forall others r,
                    recursive_op op a others = inr r -> same_tree a (AttrArray r)
              | AttrPlain _ => True
              end)).
  - intros ds v cs t IHt [Hnd Hu] others r Hr.
    rewrite recursive_op_unfold in Hr. cbn [attrs] in Hr.
    destruct (op (AttrArray (mk_DataArray ds v cs t) :: others))
      as [e|val] eqn:Eval; [discriminate|].
    cbn [and_then] in Hr. rewrite (Hdrop _ _ Eval) in Hr.
    destruct (attrs_loop op t others attrs_nil) as [e|t'] eqn:El;
      [discriminate|].
    cbn [and_then ok] in Hr. inversion Hr; subst r. clear Hr.
    destruct (attrs_loop_spec op others t Hnd attrs_nil t' El) as [HA HB].
    simpl. split.
    + intros k. split.
      * intros Hk. destruct (attrs_get_of_key k t Hk) as (v0 & Hv0 & _).
        specialize (HA k v0 Hv0). destruct v0 as [a|z]; simpl in HA.
        -- destruct HA as (aa & r' & _ & _ & Hg).
           now apply (attrs_get_keys k t' _ Hg).
        -- now apply (attrs_get_keys k t' _ HA).
      * intros Hk. destruct (in_dec string_dec k (attrs_keys t)) as [Hi|Hni];
          [exact Hi|].
        exfalso. specialize (HB k (attrs_get_None k t Hni)). simpl in HB.
        destruct (attrs_get_of_key k t' Hk) as (v0 & Hv0 & _). congruence.
    + apply same_attrs_intro. cbn [with_attrs attrs]. intros k a Hin.
      pose proof (HA k _ (attrs_get_of_item k _ t Hnd Hin)) as Hc.
      simpl in Hc. destruct Hc as (aa & r' & _ & Hrec & Hg).
      exists (AttrArray r'). split; [exact Hg|].
      exact (IHt Hu k a Hin aa r' Hrec).
  - intros _ k a [].
  - intros k v IHv rest IHrest [Hv Hrest] k' a Hin others r Hr.
    simpl in Hin. destruct Hin as [H|H].
    + inversion H; subst. exact (IHv Hv others r Hr).
    + exact (IHrest Hrest k' a H others r Hr).
  - intros a IHa. exact IHa.
  - intros z. exact I.
Qed.

(** X18.  When [op] returns arrays without attributes, the result of
    [recursive_op] has the attribute tree of the first operand: the same
    names at every level, a nested array wherever the first operand has
    one.  So the result can be combined again with the first operand: a
    second [recursive_op] on the two returns whenever [op] does. *)
Theorem recursive_op_result_tree (op : Op) (arr0 : DataArray)
    (others : list attr_value) (r : DataArray)
    (Hdrop : drops_attrs op) (Hu : keys_unique arr0)
    (Hr : recursive_op op arr0 others = inr r) :
  same_tree arr0 (AttrArray r)
  /\ set_equal (attrs_keys (attrs arr0)) (attrs_keys (attrs r))
  /\ (returns_always op ->
      exists r2, recursive_op op arr0 [AttrArray r] = inr r2).
Proof.
  pose proof (recursive_op_tree op Hdrop arr0 Hu others r Hr) as Hs.
  split; [exact Hs|]. split.
  - destruct arr0. simpl in Hs. exact (proj1 Hs).
  - intros Hop. apply (recursive_op_returns op Hop). now constructor.
Qed.

Lemma recursive_op_result_tree_witness :
  exists r,
    recursive_op toy_op annotated [AttrArray annotated] = inr r
    /\ same_tree annotated (AttrArray r).
Proof.
  destruct (recursive_op toy_op annotated [AttrArray annotated])
    as [e|r] eqn:E; [vm_compute in E; discriminate|].
  exists r. split; [reflexivity|].
  apply (recursive_op_result_tree toy_op annotated [AttrArray annotated] r).
  - intros arrs val H. unfold toy_op in H.
    destruct arrs as [|[a|z] rest]; inversion H; reflexivity.
  - simpl. repeat split; try constructor; simpl; try tauto. constructor.
  - exact E.
Defined.

(** ** XarrayCorrelation: missing names, and the p-value *)

Lemma sortby2_missing (cc nc : string) (a : DataArray) :
  coords_get nc (coords a) = None -> ~ In nc (dims a) ->
  sortby [cc; nc] a = inl KeyError.
Proof.
  intros Hc Hn. cbn [sortby]. unfold ok at 1. cbn [and_then].
  unfold sortby1 at 1. now rewrite (getitem_missing nc a Hc Hn).
Qed.

(** X19.  [XarrayCorrelation.__call__] sorts by both coordinates first:
    when the prediction has neither a coordinate nor an axis named like the
    neuroid coordinate the call raises [KeyError], and so it does when the
    prediction can be sorted and the target lacks that name.  The comparison
    strategy is not consulted. *)
Theorem correlation_needs_coordinates (corr : Correlation) (cc nc : string)
    (prediction target : DataArray) :
  (coords_get nc (coords prediction) = None -> ~ In nc (dims prediction) ->
   correlation_call corr cc nc prediction target = inl KeyError)
  /\ (forall p,
        sortby [cc; nc] prediction = inr p ->
        coords_get nc (coords target) = None -> ~ In nc (dims target) ->
        correlation_call corr cc nc prediction target = inl KeyError).
Proof.
  split.
  - intros Hc Hn. unfold correlation_call.
    now rewrite (sortby2_missing cc nc prediction Hc Hn).
  - intros p Hp Hc Hn. unfold correlation_call. rewrite Hp. cbn [and_then].
    now rewrite (sortby2_missing cc nc target Hc Hn).
Qed.

Lemma correlation_needs_coordinates_witness :
  correlation_call toy_correlation "stimulus_id" "neuroid_id"
    asm_attr target_two = inl KeyError.
Proof.
  destruct (correlation_needs_coordinates toy_correlation "stimulus_id"
              "neuroid_id" asm_attr target_two) as [H _].
  apply H; [reflexivity|].
  simpl. intros [H0|[H0|[]]]; discriminate.
Defined.

Lemma traverse_ext {A B : Type} (f g : A -> result B) (l : list A) :
  (forall x, f x = g x) -> traverse f l = traverse g l.
Proof.
  intros H. induction l as [|x r IH]; simpl; [reflexivity|].
  now rewrite H, IH.
Qed.

(** X20.  Only the first component of what the comparison strategy returns
    is used: two strategies that raise on the same inputs and otherwise
    return the same statistic give the same outcome of
    [XarrayCorrelation.__call__], whatever p-values they return. *)
Theorem correlation_drops_p_value (corr1 corr2 : Correlation) (cc nc : string)
    (prediction target : DataArray)
    (Hsame : forall a b,
        match corr1 a b, corr2 a b with
        | inl e1, inl e2 => e1 = e2
        | inr rp1, inr rp2 => fst rp1 = fst rp2
        | _, _ => False
        end) :
  correlation_call corr1 cc nc prediction target
  = correlation_call corr2 cc nc prediction target.
Proof.
  unfold correlation_call.
  destruct (sortby [cc; nc] prediction) as [e|p]; [reflexivity|].
  cbn [and_then].
  destruct (sortby [cc; nc] target) as [e|t]; [reflexivity|].
  cbn [and_then].
  destruct (getitem cc p) as [e|pc]; [reflexivity|]. cbn [and_then].
  destruct (getitem cc t) as [e|tc]; [reflexivity|]. cbn [and_then].
  destruct (assert_ _) as [e|u]; [reflexivity|]. cbn [and_then].
  destruct (getitem nc p) as [e|pn]; [reflexivity|]. cbn [and_then].
  destruct (getitem nc t) as [e|tn]; [reflexivity|]. cbn [and_then].
  destruct (assert_ _) as [e|u']; [reflexivity|]. cbn [and_then].
  destruct (assert_ _) as [e|u'']; [reflexivity|]. cbn [and_then].
  match goal with
  | |- and_then (traverse ?f ?l) _ = and_then (traverse ?g _) _ =>
      rewrite (traverse_ext f g l); [reflexivity|]
  end.
  intros i.
  destruct (isel (hd "" (cdims tn)) i t) as [e|ti]; [reflexivity|].
  cbn [and_then].
  destruct (isel (hd "" (cdims tn)) i p) as [e|pi]; [reflexivity|].
  cbn [and_then]. specialize (Hsame ti pi).
  destruct (corr1 ti pi) as [e1|rp1], (corr2 ti pi) as [e2|rp2];
    cbn [and_then ok]; try contradiction; congruence.
Qed.

Lemma correlation_drops_p_value_witness :
  correlation_call toy_correlation "stimulus_id" "neuroid_id"
    prediction_shuffled target_two
  = correlation_call toy_correlation_p "stimulus_id" "neuroid_id"
      prediction_shuffled target_two.
Proof.
  apply correlation_drops_p_value.
  intros a b. reflexivity.
Defined.
